(** * IMMORTAL-CORD: the ClickUp mirroring pass, the vault, the
      scheduler, the memory core and the logger, as a shallow embedding.

    The embedded sources are [clickup-manager.js] (the mirroring pass
    [mirrorFilesToClickUp] with its helpers, and [getTaskCount]),
    [vault.js] ([getClickUpCredentials], [loadEnvironment]),
    [scheduler.js] ([convertMinutesToCron] and the registry of
    scheduled tasks), [main.js] (the memory core) and [logger.js] (the
    log files).

    JavaScript objects that travel through JSON (task-store responses,
    result records, the task index) are modelled as dynamically typed
    values; a number is the integer its double holds, with sums and
    quotients rounded as doubles are; the files handed over by the
    drive manager and the vault's credentials are records.  An object
    written [{}] and used as a dictionary keeps what it inherits from
    [Object.prototype].  Code that throws, reads the disk or talks to
    the remote service lives in a state-and-exception monad over an
    explicit [World].

    The calls the mirroring pass makes to the logger are recorded, in
    order, in the journal of the world; what a recorded call writes to
    the log files is told by the model of [logger.js].  Left out: the
    logger calls of the other modules, whose state they do not touch,
    what goes to the console, and the text of a task description
    ([formatTaskDescription], [formatFileSize]), a rendering of the
    file that no decision of the pass looks at.  [await] is
    sequencing: the pass runs one request after the other. *)

From stdpp Require Import gmap strings list pretty sorting.
From Stdlib Require Import ZArith Lia Ascii.

Local Open Scope Z_scope.

(* ===================================================================== *)
(** ** JavaScript values *)
(* ===================================================================== *)

(** A number is the integer its double holds; what the code does to
    numbers keeps them integers (see Numbers below). *)
Unset Elimination Schemes.
Inductive value : Type :=
| VUndef
| VNull
| VBool (b : bool)
| VNum (n : Z)
| VStr (s : string)
| VArr (xs : list value)
| VObj (fields : list (string * value)).
Set Elimination Schemes.

(** Nested induction over arrays and object fields. *)
Fixpoint value_nested_ind (P : value → Prop)
    (Hundef : P VUndef) (Hnull : P VNull)
    (Hbool : ∀ b, P (VBool b)) (Hnum : ∀ n, P (VNum n))
    (Hstr : ∀ s, P (VStr s))
    (Harr : ∀ xs, Forall P xs → P (VArr xs))
    (Hobj : ∀ fields, Forall (λ kv, P kv.2) fields → P (VObj fields))
    (v : value) {struct v} : P v :=
  let rec := value_nested_ind P Hundef Hnull Hbool Hnum Hstr Harr Hobj in
  match v with
  | VUndef => Hundef
  | VNull => Hnull
  | VBool b => Hbool b
  | VNum n => Hnum n
  | VStr s => Hstr s
  | VArr xs =>
      Harr xs ((fix go (l : list value) : Forall P l :=
                  match l return Forall P l with
                  | [] => List.Forall_nil _
                  | x :: l' => List.Forall_cons _ _ _ (rec x) (go l')
                  end) xs)
  | VObj fields =>
      Hobj fields ((fix go (l : list (string * value))
                      : Forall (λ kv, P kv.2) l :=
                      match l return Forall (λ kv, P kv.2) l with
                      | [] => List.Forall_nil _
                      | kv :: l' => List.Forall_cons _ _ _ (rec kv.2) (go l')
                      end) fields)
  end.

(** Results of code that may throw; the payload is [error.message]. *)
Inductive Res (A : Type) : Type :=
| Ok (a : A)
| Throw (e : string).
Arguments Ok {A} a.
Arguments Throw {A} e.


(** *** Numbers

    A JavaScript number is a double.  The numbers met here are integers,
    kept as the [Z] the double holds: up to [2^53] every integer is one,
    beyond that only every second, every fourth, and so on.  A sum or a
    quotient is rounded to the nearest double, to the one with the even
    mantissa at a tie. *)

(** The integer nearest to [n / d], the even one at a tie, for
    [0 ≤ n] and [0 < d]. *)
Definition round_half_even (n d : Z) : Z :=
  let q := n / d in
  let r := n mod d in
  if 2 * r <? d then q
  else if d <? 2 * r then q + 1
  else if Z.even q then q else q + 1.

(** The double nearest to an integer. *)
Definition round53 (z : Z) : Z :=
  if Z.abs z <? 2 ^ 53 then z
  else
    let e := Z.log2 (Z.abs z) - 52 in
    Z.sgn z * (round_half_even (Z.abs z) (2 ^ e) * 2 ^ e).

(** [a + b] *)
Definition number_add (a b : Z) : Z := round53 (a + b).

(** [Math.floor(a / b)] for [0 ≤ a] and [0 < b < 2^53]: the quotient is
    rounded to a mantissa of 53 bits, then the floor is taken.  Below
    [b] the quotient stays below 1. *)
Definition floor_of_quotient (a b : Z) : Z :=
  if a <? b then 0
  else
    let k := Z.log2 a - Z.log2 b in
    let exponent := (if b * 2 ^ k <=? a then k else k - 1) - 52 in
    if 0 <=? exponent
    then round_half_even a (b * 2 ^ exponent) * 2 ^ exponent
    else round_half_even (a * 2 ^ (- exponent)) b / 2 ^ (- exponent).

Definition decimal_length (n : Z) : Z := Z.of_nat (String.length (pretty n)).

(** The decimals with [k] digits and then zeros that lie next to the
    double [d]: the one that rounds to [d], the nearer one when both
    do. *)
Definition shortest_at (d k : Z) : option Z :=
  let p := 10 ^ (decimal_length d - k) in
  let low := d / p * p in
  let high := low + p in
  match round53 low =? d, round53 high =? d with
  | true, true =>
      Some (if d - low <? high - d then low
            else if high - d <? d - low then high
            else if Z.even (d / p) then low else high)
  | true, false => Some low
  | false, true => Some high
  | false, false => None
  end.

Fixpoint shortest_from (d k : Z) (fuel : nat) : Z :=
  match fuel with
  | O => d
  | S fuel' =>
      match shortest_at d k with
      | Some n => n
      | None => shortest_from d (k + 1) fuel'
      end
  end.

(** The integer with the fewest significant digits that still rounds
    to the double [d]; seventeen digits always do. *)
Definition shortest_decimal (d : Z) : Z := shortest_from d 1 17.

Fixpoint drop_trailing_zeros (s : string) : string :=
  match s with
  | EmptyString => EmptyString
  | String c rest =>
      match drop_trailing_zeros rest with
      | EmptyString => if Ascii.eqb c "0" then EmptyString else String c EmptyString
      | kept => String c kept
      end
  end.

(** [1.2676506002282294e+30] *)
Definition exponent_form (n : Z) : string :=
  match drop_trailing_zeros (pretty n) with
  | EmptyString => "0"
  | String c EmptyString =>
      String c EmptyString +:+ "e+" +:+ pretty (decimal_length n - 1)
  | String c more =>
      String c ("." +:+ more) +:+ "e+" +:+ pretty (decimal_length n - 1)
  end.

(** [String(d)], also what a template literal makes of a number: below
    [2^53] the decimal digits of the integer (no other integer rounds
    to it); beyond, the shortest digits that round to the double, in
    exponent form from [10^21] on. *)
Definition Number_toString (d : Z) : string :=
  if Z.abs d <? 2 ^ 53 then pretty d
  else
    let n := shortest_decimal (Z.abs d) in
    (if d <? 0 then "-" else "") +:+
    (if n <? 10 ^ 21 then pretty n else exponent_form n).

(** [if (v)], [!v], [v || d] *)
Definition truthy (v : value) : bool :=
  match v with
  | VUndef | VNull => false
  | VBool b => b
  | VNum n => negb (Z.eqb n 0)
  | VStr s => negb (String.eqb s "")
  | VArr _ | VObj _ => true
  end.

Definition nullish (v : value) : bool :=
  match v with
  | VUndef | VNull => true
  | _ => false
  end.

Fixpoint lookup_field (k : string) (fields : list (string * value)) : value :=
  match fields with
  | [] => VUndef
  | (k', x) :: rest => if String.eqb k k' then x else lookup_field k rest
  end.

(** [v.k] on a value that is neither [null] nor [undefined]. *)
Definition get (k : string) (v : value) : value :=
  match v with
  | VObj fields => lookup_field k fields
  | VArr xs => if String.eqb k "length" then VNum (Z.of_nat (length xs)) else VUndef
  | VStr s => if String.eqb k "length" then VNum (Z.of_nat (String.length s)) else VUndef
  | _ => VUndef
  end.

(** [v.k]: a TypeError on [null] and [undefined]. *)
Definition prop (k : string) (v : value) : Res value :=
  if nullish v
  then Throw ("Cannot read properties of " +:+
              (if v is VNull then "null" else "undefined") +:+
              " (reading '" +:+ k +:+ "')")
  else Ok (get k v).

Fixpoint set_field (k : string) (x : value) (fields : list (string * value))
  : list (string * value) :=
  match fields with
  | [] => [(k, x)]
  | (k', y) :: rest =>
      if String.eqb k k' then (k, x) :: rest else (k', y) :: set_field k x rest
  end.

(** [v.k = x]: a TypeError on [null] and [undefined]; on an object the
    property is replaced or appended; on a primitive the assignment is
    silently dropped (the module is not in strict mode), and a property
    put on an array is not part of its JSON form. *)
Definition assign (k : string) (x : value) (v : value) : Res value :=
  match v with
  | VUndef => Throw ("Cannot set properties of undefined (setting '" +:+ k +:+ "')")
  | VNull => Throw ("Cannot set properties of null (setting '" +:+ k +:+ "')")
  | VObj fields => Ok (VObj (set_field k x fields))
  | _ => Ok v
  end.

(** What [JSON.parse (JSON.stringify v)] gives back for [v] inside an
    array or an object: properties holding [undefined] are dropped,
    [undefined] array elements become [null]. *)
Fixpoint jsonify (v : value) : value :=
  match v with
  | VArr xs =>
      VArr (map (λ x, if x is VUndef then VNull else jsonify x) xs)
  | VObj fields =>
      VObj ((fix go (l : list (string * value)) : list (string * value) :=
               match l with
               | [] => []
               | (k, x) :: l' =>
                   if x is VUndef then go l' else (k, jsonify x) :: go l'
               end) fields)
  | _ => v
  end.

(** Values that JSON text can denote: no [undefined] anywhere. *)
Fixpoint is_json (v : value) : bool :=
  match v with
  | VUndef => false
  | VArr xs => forallb is_json xs
  | VObj fields =>
      (fix go (l : list (string * value)) : bool :=
         match l with
         | [] => true
         | (_, x) :: l' => is_json x && go l'
         end) fields
  | _ => true
  end.

Definition join_with (sep : string) (parts : list string) : string :=
  match parts with
  | [] => ""
  | p :: rest => fold_left (λ acc q, acc +:+ sep +:+ q) rest p
  end.

(** [fields] has a property under [k]. *)
Definition has_field (k : string) (fields : list (string * value)) : bool :=
  existsb (λ kv, String.eqb k kv.1) fields.

(** [String(v)], as a template literal, a property key and [+] with a
    string take a value.  An array joins its elements, [null] and
    [undefined] counting as empty; an object of the data converts as
    the [toString] it inherits has it. *)
Fixpoint to_key (v : value) : string :=
  match v with
  | VUndef => "undefined"
  | VNull => "null"
  | VBool b => if b then "true" else "false"
  | VNum n => Number_toString n
  | VStr s => s
  | VArr xs => join_with "," (map (λ x, if nullish x then "" else to_key x) xs)
  | VObj _ => "[object Object]"
  end.

(** *** Plain objects used as dictionaries *)

(** The methods an object written [{}] inherits from
    [Object.prototype]: reading one of these names on an object that
    has no property of its own under it gives a function. *)
Definition objectPrototypeFunctions : list string :=
  ["constructor"; "hasOwnProperty"; "isPrototypeOf"; "propertyIsEnumerable";
   "toLocaleString"; "toString"; "valueOf"; "__defineGetter__";
   "__defineSetter__"; "__lookupGetter__"; "__lookupSetter__"].

Definition inherited_function (name : string) : bool :=
  bool_decide (name ∈ objectPrototypeFunctions).

(** The names under which [{}] reads something although nothing was
    stored: the inherited methods, and [__proto__], which reads the
    prototype itself. *)
Definition inherited (name : string) : bool :=
  inherited_function name || String.eqb name "__proto__".

(** An object written [{}] that is filled with objects of the data:
    the properties of its own, and its prototype, which is
    [Object.prototype] ([None]) until an assignment to [__proto__]
    puts an object of the data in its place; that object's own
    prototype is [Object.prototype]. *)
Record Dict := {
  own : gmap string value;
  prototype : option (list (string * value))
}.

Definition emptyDict : Dict := {| own := ∅; prototype := None |}.

(** What reading a property of such an object gives: a value of the
    data, or something of the runtime (an inherited method, or
    [Object.prototype] itself), which is truthy and has no [id]. *)
Inductive Member : Type :=
| Held (v : value)
| Builtin.

Definition member_truthy (x : Member) : bool :=
  match x with
  | Held v => truthy v
  | Builtin => true
  end.

(** [d[key]]: a property of the object's own; else what the prototype
    holds under the name; else what [Object.prototype] has: its
    methods, and the accessor [__proto__], which answers the prototype
    of the object that is read. *)
Definition dict_get (key : string) (d : Dict) : Member :=
  match own d !! key with
  | Some v => Held v
  | None =>
      match prototype d with
      | Some fields =>
          if has_field key fields then Held (lookup_field key fields)
          else if String.eqb key "__proto__" then Held (VObj fields)
          else if inherited_function key then Builtin
          else Held VUndef
      | None => if inherited key then Builtin else Held VUndef
      end
  end.

(** [d[key] = task] for an object [task] of the data.  Every name
    becomes (or stays) a property of the object's own, except
    [__proto__] while neither the object nor its prototype has a
    property of that name: then the accessor of [Object.prototype] is
    reached and makes [task] the prototype. *)
Definition dict_set (key : string) (task : list (string * value)) (d : Dict) : Dict :=
  if String.eqb key "__proto__" &&
     (if own d !! key is Some _ then false else true) &&
     negb (if prototype d is Some fields then has_field key fields else false)
  then {| own := own d; prototype := Some task |}
  else {| own := <[key := VObj task]> (own d); prototype := prototype d |}.

(* ===================================================================== *)
(** ** Files, credentials, the task store and the disk *)
(* ===================================================================== *)

(** A tagged file as the drive manager hands it over. *)
Record File := {
  file_id : string;
  file_name : string;
  file_mimeType : string;
  file_tags : list string;
  file_folderPath : string;
  file_createdTime : string;
  file_modifiedTime : string;
  file_size : option Z;
  file_webViewLink : string
}.

(** [credentials.clickup] of vault.js: two environment variables, each a
    string or [undefined]. *)
Record Creds := {
  apiKey : option string;
  workspaceId : option string
}.

(** [!s] for an environment variable. *)
Definition present (s : option string) : bool :=
  match s with
  | Some x => negb (String.eqb x "")
  | None => false
  end.

(** The requests clickup-manager.js sends with axios.  Identifiers spliced
    into a URL are kept as values ([VUndef] is the URL segment
    "undefined"); the body of a task request (name, description, tags,
    custom fields) is a rendering of the file, which is kept whole. *)
Inductive Request : Type :=
| GetSpaces (creds : Creds)
| PostSpace (creds : Creds)
| GetFolders (spaceId : value) (creds : Creds)
| PostFolder (spaceId : value) (creds : Creds)
| GetLists (folderId : value) (creds : Creds)
| PostList (folderId : value) (creds : Creds)
| PostTask (listId : value) (taskName : string) (file : File) (creds : Creds)
| PutTask (taskId : value) (taskName : string) (file : File) (creds : Creds).

(** What a request comes back with: [response.data], or a rejected
    promise. *)
Inductive Response : Type :=
| RData (data : value)
| RFail (message : string).

Inductive Path : Type := VAULT_DIR | TASK_INDEX_PATH.

(** The text of a file, as far as [JSON.parse] can tell. *)
Inductive FileText : Type :=
| Garbled
| Encodes (doc : value).

(** The vault directory and the index file in it, with the faults the
    next operations will meet.  A faulty operation throws before it
    touches anything. *)
Record Disk := {
  vault_dir_exists : bool;
  index_file : option FileText;
  read_error : bool;     (* readFileSync throws *)
  mkdir_error : bool;    (* mkdirSync throws *)
  write_error : bool     (* writeFileSync throws *)
}.

(** A call of the logger: [logger.info], [logger.success] and
    [logger.error] with their message, and [logger.error(error.stack)]
    for the error that has the given message.  What a call writes to
    the log files is told by [loggerWrites] below. *)
Inductive LogCall : Type :=
| LogInfo (message : string)
| LogSuccess (message : string)
| LogError (message : string)
| LogErrorStack (message : string).

(** Everything the pass reads or changes.  The remote service is an
    oracle: [service n] is the outcome of the [n]-th request of the
    process; [requests] records what was sent, [journal] the calls of
    the logger, both in order.  [indexPathText] is the text of
    [TASK_INDEX_PATH]. *)
Record World := {
  credentials_clickup : option Creds;
  disk : Disk;
  service : nat → Response;
  requests : list Request;
  now : string;
  taskCountCache : option nat;
  lastSyncTime : option string;
  journal : list LogCall;
  indexPathText : string
}.

Definition set_disk (d : Disk) (w : World) : World :=
  {| credentials_clickup := credentials_clickup w; disk := d;
     service := service w; requests := requests w; now := now w;
     taskCountCache := taskCountCache w; lastSyncTime := lastSyncTime w;
     journal := journal w; indexPathText := indexPathText w |}.

Definition log_request (req : Request) (w : World) : World :=
  {| credentials_clickup := credentials_clickup w; disk := disk w;
     service := service w; requests := requests w ++ [req]; now := now w;
     taskCountCache := taskCountCache w; lastSyncTime := lastSyncTime w;
     journal := journal w; indexPathText := indexPathText w |}.

Definition log_requests (reqs : list Request) (w : World) : World :=
  {| credentials_clickup := credentials_clickup w; disk := disk w;
     service := service w; requests := requests w ++ reqs; now := now w;
     taskCountCache := taskCountCache w; lastSyncTime := lastSyncTime w;
     journal := journal w; indexPathText := indexPathText w |}.

Definition log_line (call : LogCall) (w : World) : World :=
  {| credentials_clickup := credentials_clickup w; disk := disk w;
     service := service w; requests := requests w; now := now w;
     taskCountCache := taskCountCache w; lastSyncTime := lastSyncTime w;
     journal := journal w ++ [call]; indexPathText := indexPathText w |}.

Definition log_lines (calls : list LogCall) (w : World) : World :=
  {| credentials_clickup := credentials_clickup w; disk := disk w;
     service := service w; requests := requests w; now := now w;
     taskCountCache := taskCountCache w; lastSyncTime := lastSyncTime w;
     journal := journal w ++ calls; indexPathText := indexPathText w |}.

(** Requests sent and logger calls made, nothing else touched. *)
Definition tell (reqs : list Request) (calls : list LogCall) (w : World) : World :=
  log_lines calls (log_requests reqs w).

Definition set_sync_cache (count : nat) (w : World) : World :=
  {| credentials_clickup := credentials_clickup w; disk := disk w;
     service := service w; requests := requests w; now := now w;
     taskCountCache := Some count; lastSyncTime := Some (now w);
     journal := journal w; indexPathText := indexPathText w |}.

(* ===================================================================== *)
(** ** The monad of effects *)
(* ===================================================================== *)

Definition M (A : Type) : Type := World → World * Res A.

Definition ret {A} (a : A) : M A := λ w, (w, Ok a).

Definition throw {A} (e : string) : M A := λ w, (w, Throw e).

Definition bind {A B} (m : M A) (k : A → M B) : M B :=
  λ w, match m w with
       | (w', Ok a) => k a w'
       | (w', Throw e) => (w', Throw e)
       end.

(** [try { body } catch (error) { handler }]: effects of the part of the
    body that ran are kept. *)
Definition try_catch {A} (body : M A) (handler : string → M A) : M A :=
  λ w, match body w with
       | (w', Ok a) => (w', Ok a)
       | (w', Throw e) => handler e w'
       end.

Definition lift {A} (r : Res A) : M A := λ w, (w, r).

Declare Scope js_scope.
Delimit Scope js_scope with js.
Notation "x <- m ;; k" := (bind m (λ x, k))
  (at level 100, m at next level, right associativity) : js_scope.
Local Open Scope js_scope.

(** *** fs *)

Definition fs_existsSync (p : Path) : M bool :=
  λ w, (w, Ok match p with
           | VAULT_DIR => vault_dir_exists (disk w)
           | TASK_INDEX_PATH => if index_file (disk w) is Some _ then true else false
           end).

Definition fs_readFileSync (p : Path) : M FileText :=
  λ w, match p with
       | VAULT_DIR => (w, Throw "EISDIR: illegal operation on a directory, read")
       | TASK_INDEX_PATH =>
           match index_file (disk w) with
           | None => (w, Throw "ENOENT: no such file or directory")
           | Some text =>
               if read_error (disk w) then (w, Throw "EACCES: permission denied")
               else (w, Ok text)
           end
       end.

Definition fs_mkdirSync (p : Path) : M unit :=
  λ w, let d := disk w in
       if mkdir_error d then (w, Throw "EACCES: permission denied, mkdir")
       else match p with
            | VAULT_DIR =>
                (set_disk {| vault_dir_exists := true; index_file := index_file d;
                             read_error := read_error d; mkdir_error := mkdir_error d;
                             write_error := write_error d |} w, Ok ())
            | TASK_INDEX_PATH => (w, Ok ())
            end.

Definition fs_writeFileSync (p : Path) (text : FileText) : M unit :=
  λ w, let d := disk w in
       match p with
       | VAULT_DIR => (w, Throw "EISDIR: illegal operation on a directory, open")
       | TASK_INDEX_PATH =>
           if write_error d then (w, Throw "EACCES: permission denied, open")
           else if negb (vault_dir_exists d)
           then (w, Throw "ENOENT: no such file or directory, open")
           else (set_disk {| vault_dir_exists := vault_dir_exists d;
                             index_file := Some text;
                             read_error := read_error d; mkdir_error := mkdir_error d;
                             write_error := write_error d |} w, Ok ())
       end.

Definition JSON_parse (text : FileText) : Res value :=
  match text with
  | Garbled => Throw "Unexpected token in JSON"
  | Encodes doc => Ok doc
  end.

Definition JSON_stringify (v : value) : FileText := Encodes (jsonify v).

(** [new Date().toISOString()] *)
Definition toISOString_now : M string := λ w, (w, Ok (now w)).

(** [taskCountCache = count; lastSyncTime = new Date()] *)
Definition rememberSync (count : nat) : M unit :=
  λ w, (set_sync_cache count w, Ok ()).

(** *** logger *)

Definition logger_info (message : string) : M unit :=
  λ w, (log_line (LogInfo message) w, Ok ()).

Definition logger_success (message : string) : M unit :=
  λ w, (log_line (LogSuccess message) w, Ok ()).

Definition logger_error (message : string) : M unit :=
  λ w, (log_line (LogError message) w, Ok ()).

(** [logger.error(error.stack)] for the error with message [e]. *)
Definition logger_error_stack (e : string) : M unit :=
  λ w, (log_line (LogErrorStack e) w, Ok ()).

(** [`${TASK_INDEX_PATH}`] *)
Definition indexPath_text : M string := λ w, (w, Ok (indexPathText w)).

(** *** axios *)

(** One request: it is logged, and the service's answer to it either
    resolves to [response.data] or rejects. *)
Definition axios (req : Request) : M value :=
  λ w, let w' := log_request req w in
       match service w (length (requests w)) with
       | RData data => (w', Ok data)
       | RFail message => (w', Throw message)
       end.

(* ===================================================================== *)
(** ** vault.js *)
(* ===================================================================== *)

(** Reads [credentials.clickup.apiKey]: a TypeError while
    [credentials.clickup] is still [null]. *)
Definition getClickUpCredentials : M Creds :=
  λ w, match credentials_clickup w with
       | None => (w, Throw "Cannot read properties of null (reading 'apiKey')")
       | Some c => (w, Ok {| apiKey := apiKey c; workspaceId := workspaceId c |})
       end.

(* ===================================================================== *)
(** ** clickup-manager.js *)
(* ===================================================================== *)

(** [getExistingTasks]: the tasks of the local index, [[]] when there is
    no index; anything that goes wrong reading it is logged and
    answered with [[]]. *)
Definition getExistingTasks : M value :=
  try_catch
    (indexExists <- fs_existsSync TASK_INDEX_PATH ;;
     if indexExists then
       text <- fs_readFileSync TASK_INDEX_PATH ;;
       taskIndex <- lift (JSON_parse text) ;;
       tasks <- lift (prop "tasks" taskIndex) ;;
       ret (if truthy tasks then tasks else VArr [])
     else ret (VArr []))
    (λ e, _ <- logger_error ("Failed to get existing tasks: " +:+ e) ;;
          ret (VArr [])).

(** The body of [for (const task of tasks)] in [createTaskMap],
    threaded through the object built so far.  Only an object of the
    data has a [fileId] that is not [undefined]; the key is the text
    of the [fileId]. *)
Fixpoint createTaskMap_loop (tasks : list value) (map : Dict) : Res Dict :=
  match tasks with
  | [] => Ok map
  | task :: rest =>
      match prop "fileId" task with
      | Throw e => Throw e
      | Ok fileId =>
          match task with
          | VObj fields =>
              createTaskMap_loop rest
                (if truthy fileId then dict_set (to_key fileId) fields map else map)
          | _ => createTaskMap_loop rest map
          end
      end
  end.

(** [createTaskMap]: the argument has to be iterable; iterating a string
    yields its characters, and none of them has a [fileId]. *)
Definition createTaskMap (tasks : value) : Res Dict :=
  match tasks with
  | VArr xs => createTaskMap_loop xs emptyDict
  | VStr _ => Ok emptyDict
  | _ => Throw "tasks is not iterable"
  end.

(** [xs.find(x => x.name === target)] on the elements of an array *)
Fixpoint find_named (target : string) (xs : list value) : Res value :=
  match xs with
  | [] => Ok VUndef
  | x :: rest =>
      match prop "name" x with
      | Throw e => Throw e
      | Ok (VStr n) => if String.eqb n target then Ok x else find_named target rest
      | Ok _ => find_named target rest
      end
  end.

(** [coll.find(...)]: only an array has the method. *)
Definition array_find_named (target : string) (coll : value) : Res value :=
  match coll with
  | VArr xs => find_named target xs
  | VUndef => Throw "Cannot read properties of undefined (reading 'find')"
  | VNull => Throw "Cannot read properties of null (reading 'find')"
  | _ => Throw "find is not a function"
  end.

(** [logger.info(`${what}${made.id}`)] after a creation: the [id] of
    what was made is read and put into the message. *)
Definition logCreated (what : string) (made : value) : M unit :=
  id <- lift (prop "id" made) ;;
  logger_info (what +:+ to_key id).

(** [getOrCreateMainList]: space "IMMORTAL STACK", folder "Drive Files",
    list "File Tasks", each looked up by name and created when absent;
    a creation is logged.  An error is logged and thrown again. *)
Definition getOrCreateMainList (clickupCreds : Creds) : M value :=
  try_catch
    (spacesData <- axios (GetSpaces clickupCreds) ;;
     spaces <- lift (prop "spaces" spacesData) ;;
     foundSpace <- lift (array_find_named "IMMORTAL STACK" spaces) ;;
     immortalSpace <-
       (if negb (truthy foundSpace) then
          created <- axios (PostSpace clickupCreds) ;;
          _ <- logCreated "Created IMMORTAL STACK space: " created ;;
          ret created
        else ret foundSpace) ;;
     spaceId <- lift (prop "id" immortalSpace) ;;
     foldersData <- axios (GetFolders spaceId clickupCreds) ;;
     folders <- lift (prop "folders" foldersData) ;;
     foundFolder <- lift (array_find_named "Drive Files" folders) ;;
     driveFolder <-
       (if negb (truthy foundFolder) then
          created <- axios (PostFolder spaceId clickupCreds) ;;
          _ <- logCreated "Created Drive Files folder: " created ;;
          ret created
        else ret foundFolder) ;;
     folderId <- lift (prop "id" driveFolder) ;;
     listsData <- axios (GetLists folderId clickupCreds) ;;
     lists <- lift (prop "lists" listsData) ;;
     foundList <- lift (array_find_named "File Tasks" lists) ;;
     fileTasksList <-
       (if negb (truthy foundList) then
          created <- axios (PostList folderId clickupCreds) ;;
          _ <- logCreated "Created File Tasks list: " created ;;
          ret created
        else ret foundList) ;;
     ret fileTasksList)
    (λ e, _ <- logger_error ("Failed to get or create main list: " +:+ e) ;;
          throw e).

(** [s.split('/').pop()] *)
Fixpoint last_segment_from (acc : string) (s : string) : string :=
  match s with
  | EmptyString => acc
  | String c rest =>
      if Ascii.eqb c "/"%char then last_segment_from "" rest
      else last_segment_from (acc +:+ String c EmptyString) rest
  end.

Definition last_segment (s : string) : string := last_segment_from "" s.

(** The task name of [createTask] and [updateTask]:
    [`${file.name} [${file.mimeType.split('/').pop()}]`] *)
Definition taskNameOf (file : File) : string :=
  file_name file +:+ " [" +:+ last_segment (file_mimeType file) +:+ "]".

(** [createTask]: POST the task under the list, log the creation, then
    tag the answer with the file id; any error is logged and thrown
    again. *)
Definition createTask (file : File) (listId : value) (clickupCreds : Creds) : M value :=
  try_catch
    (data <- axios (PostTask listId (taskNameOf file) file clickupCreds) ;;
     _ <- logger_info ("Created task for file: " +:+ file_name file) ;;
     task <- lift (assign "fileId" (VStr (file_id file)) data) ;;
     ret task)
    (λ e, _ <- logger_error ("Failed to create task for file " +:+ file_name file +:+
                             ": " +:+ e) ;;
          throw e).

(** [updateTask]: PUT to the task, log the update, then tag the answer
    with the file id; any error is logged and thrown again. *)
Definition updateTask (taskId : value) (file : File) (clickupCreds : Creds) : M value :=
  try_catch
    (data <- axios (PutTask taskId (taskNameOf file) file clickupCreds) ;;
     _ <- logger_info ("Updated task for file: " +:+ file_name file) ;;
     task <- lift (assign "fileId" (VStr (file_id file)) data) ;;
     ret task)
    (λ e, _ <- logger_error ("Failed to update task for file " +:+ file_name file +:+
                             ": " +:+ e) ;;
          throw e).

(** [saveTaskIndex]: rewrite the index file from the given tasks and
    log it; returns the path, or [null] (here [None]) when anything
    fails, which is logged. *)
Definition saveTaskIndex (tasks : value) : M (option Path) :=
  try_catch
    (dirExists <- fs_existsSync VAULT_DIR ;;
     _ <- (if negb dirExists then fs_mkdirSync VAULT_DIR else ret ()) ;;
     generatedAt <- toISOString_now ;;
     totalTasks <- lift (prop "length" tasks) ;;
     let taskIndex := VObj [("generatedAt", VStr generatedAt);
                            ("totalTasks", totalTasks);
                            ("tasks", tasks)] in
     _ <- fs_writeFileSync TASK_INDEX_PATH (JSON_stringify taskIndex) ;;
     pathText <- indexPath_text ;;
     _ <- logger_info ("Task index saved to " +:+ pathText) ;;
     ret (Some TASK_INDEX_PATH))
    (λ e, _ <- logger_error ("Failed to save task index: " +:+ e) ;;
          ret None).

(** [existingTask.id] on what the lookup gave. *)
Definition member_id (x : Member) : Res value :=
  match x with
  | Held v => prop "id" v
  | Builtin => Ok VUndef
  end.

(** The body of the inner [try] of [mirrorFilesToClickUp], for one file:
    the result record that gets pushed.  [existingTaskMap[file.id]] is
    read as a plain object is; [existingTask.id] is read once (the code
    reads it twice, with nothing in between that could change it). *)
Definition mirrorFile (existingTaskMap : Dict) (mainList : value)
    (clickupCreds : Creds) (file : File) : M value :=
  let existingTask := dict_get (file_id file) existingTaskMap in
  if member_truthy existingTask then
    existingId <- lift (member_id existingTask) ;;
    updatedTask <- updateTask existingId file clickupCreds ;;
    ret (VObj [("action", VStr "updated");
               ("fileId", VStr (file_id file));
               ("taskId", existingId);
               ("task", updatedTask)])
  else
    listId <- lift (prop "id" mainList) ;;
    newTask <- createTask file listId clickupCreds ;;
    newId <- lift (prop "id" newTask) ;;
    ret (VObj [("action", VStr "created");
               ("fileId", VStr (file_id file));
               ("taskId", newId);
               ("task", newTask)]).

(** [for (const file of taggedFiles) { try { ... results.push(...) }
    catch (error) { logger.error(...) } }]: a file whose processing
    throws is logged and leaves [results] as it was. *)
Fixpoint mirrorFiles (existingTaskMap : Dict) (mainList : value)
    (clickupCreds : Creds) (taggedFiles : list File) (results : list value)
  : M (list value) :=
  match taggedFiles with
  | [] => ret results
  | file :: rest =>
      results' <- try_catch
                    (r <- mirrorFile existingTaskMap mainList clickupCreds file ;;
                     ret (results ++ [r]))
                    (λ e, _ <- logger_error ("Failed to process file " +:+
                                             file_name file +:+ ": " +:+ e) ;;
                          ret results) ;;
      mirrorFiles existingTaskMap mainList clickupCreds rest results'
  end.

(** The outer [try] block of [mirrorFilesToClickUp].  The object
    [getClickUpCredentials] returns is never falsy, so [!clickupCreds]
    adds nothing to the test of its two fields. *)
Definition mirrorPass (taggedFiles : list File) : M (list value) :=
  _ <- logger_info "Starting ClickUp mirroring operation..." ;;
  clickupCreds <- getClickUpCredentials ;;
  if negb (present (apiKey clickupCreds)) || negb (present (workspaceId clickupCreds))
  then throw "Missing ClickUp credentials"
  else
    existingTasks <- getExistingTasks ;;
    existingTaskMap <- lift (createTaskMap existingTasks) ;;
    mainList <- getOrCreateMainList clickupCreds ;;
    results <- mirrorFiles existingTaskMap mainList clickupCreds taggedFiles [] ;;
    _ <- saveTaskIndex (VArr results) ;;
    _ <- rememberSync (length results) ;;
    _ <- logger_success ("ClickUp mirroring complete. Created/updated " +:+
                         Number_toString (Z.of_nat (length results)) +:+ " tasks") ;;
    ret results.

(** [mirrorFilesToClickUp]: whatever the pass throws is logged, with
    its stack, and answered with [[]]. *)
Definition mirrorFilesToClickUp (taggedFiles : list File) : M (list value) :=
  try_catch (mirrorPass taggedFiles)
    (λ e, _ <- logger_error ("ClickUp mirroring failed: " +:+ e) ;;
          _ <- logger_error_stack e ;;
          ret []).

(* ===================================================================== *)
(** ** scheduler.js *)
(* ===================================================================== *)

(** [convertMinutesToCron].  [minutes] is a number: comparisons are
    exact, [Math.floor(a / b)] rounds the quotient first, [%] is exact
    ([Z.rem]), and a number inside a template literal is printed as
    [String] prints it. *)
Definition convertMinutesToCron (minutes : Z) : Res string :=
  if (minutes <? 1)%Z then Throw "Minutes must be at least 1"
  else if (minutes <? 60)%Z then
    Ok ("*/" +:+ Number_toString minutes +:+ " * * * *")
  else
    let hours := floor_of_quotient minutes 60 in
    let remainingMinutes := Z.rem minutes 60 in
    if (hours <? 24)%Z then
      Ok (Number_toString remainingMinutes +:+ " */" +:+ Number_toString hours +:+
          " * * *")
    else
      let days := floor_of_quotient hours 24 in
      let remainingHours := Z.rem hours 24 in
      if (days =? 1)%Z then
        Ok (Number_toString remainingMinutes +:+ " " +:+
            Number_toString remainingHours +:+ " * * *")
      else
        Ok (Number_toString remainingMinutes +:+ " " +:+
            Number_toString remainingHours +:+
            " */" +:+ Number_toString days +:+ " * *").

(* ===================================================================== *)
(** ** Vocabulary of the properties *)
(* ===================================================================== *)

(** The vault holds a key and a workspace id, both non-empty. *)
Definition valid_credentials (w : World) : bool :=
  match credentials_clickup w with
  | Some c => present (apiKey c) && present (workspaceId c)
  | None => false
  end.

(** The index file can be rewritten: the write itself goes through,
    and the vault directory is there or can be made. *)
Definition can_write (d : Disk) : bool :=
  negb (write_error d) && (vault_dir_exists d || negb (mkdir_error d)).

(** The statements of the pass that come before the loop: the opening
    log line, credentials, index lookup, destination list. *)
Definition passPrelude : M (Creds * Dict * value) :=
  _ <- logger_info "Starting ClickUp mirroring operation..." ;;
  clickupCreds <- getClickUpCredentials ;;
  if negb (present (apiKey clickupCreds)) || negb (present (workspaceId clickupCreds))
  then throw "Missing ClickUp credentials"
  else
    existingTasks <- getExistingTasks ;;
    existingTaskMap <- lift (createTaskMap existingTasks) ;;
    mainList <- getOrCreateMainList clickupCreds ;;
    ret (clickupCreds, existingTaskMap, mainList).

(** The error [getExistingTasks] catches on a given disk, if any: the
    file cannot be read, its text is not JSON, or it is the text of
    [null]. *)
Definition loadFailure (d : Disk) : option string :=
  match index_file d with
  | None => None
  | Some text =>
      if read_error d then Some "EACCES: permission denied"
      else match text with
           | Garbled => Some "Unexpected token in JSON"
           | Encodes doc =>
               match prop "tasks" doc with
               | Throw e => Some e
               | Ok _ => None
               end
           end
  end.

(** What [getExistingTasks] logs on a given disk. *)
Definition loadLines (d : Disk) : list LogCall :=
  match loadFailure d with
  | Some e => [LogError ("Failed to get existing tasks: " +:+ e)]
  | None => []
  end.

(** What [getExistingTasks] answers on a given disk. *)
Definition loadedTasks (d : Disk) : value :=
  match index_file d with
  | Some (Encodes doc) =>
      if read_error d || nullish doc then VArr []
      else if truthy (get "tasks" doc) then get "tasks" doc else VArr []
  | Some Garbled | None => VArr []
  end.

(** The elements of an array as [JSON.stringify] writes them. *)
Definition jsonItems (xs : list value) : list value :=
  map (λ x, if x is VUndef then VNull else jsonify x) xs.

(** The disk after a successful rewrite of the index file. *)
Definition written (text : FileText) (d : Disk) : Disk :=
  {| vault_dir_exists := true; index_file := Some text;
     read_error := read_error d; mkdir_error := mkdir_error d;
     write_error := write_error d |}.

(** The statements of the pass that come after the prelude. *)
Definition passBody (taggedFiles : list File)
    (prelude : Creds * Dict * value) : M (list value) :=
  let '(clickupCreds, existingTaskMap, mainList) := prelude in
  results <- mirrorFiles existingTaskMap mainList clickupCreds taggedFiles [] ;;
  _ <- saveTaskIndex (VArr results) ;;
  _ <- rememberSync (length results) ;;
  _ <- logger_success ("ClickUp mirroring complete. Created/updated " +:+
                       Number_toString (Z.of_nat (length results)) +:+ " tasks") ;;
  ret results.

(** The world in which the pass has logged its start and loaded the
    index. *)
Definition started (w : World) : World :=
  log_lines (LogInfo "Starting ClickUp mirroring operation..." :: loadLines (disk w)) w.

(** What [saveTaskIndex] logs on a disk that takes the write. *)
Definition savedLine (w : World) : LogCall :=
  LogInfo ("Task index saved to " +:+ indexPathText w).

(** The last line of a pass that reached its end with [n] records. *)
Definition completeLine (n : nat) : LogCall :=
  LogSuccess ("ClickUp mirroring complete. Created/updated " +:+
              Number_toString (Z.of_nat n) +:+ " tasks").

(** The error a pass meets when the credentials are not valid: the
    TypeError of [getClickUpCredentials] before the vault was loaded,
    the error of the check otherwise. *)
Definition credentialsError (w : World) : string :=
  match credentials_clickup w with
  | None => "Cannot read properties of null (reading 'apiKey')"
  | Some _ => "Missing ClickUp credentials"
  end.

(** The three lines of a pass that failed with the error [e]. *)
Definition failedPassLines (e : string) : list LogCall :=
  [LogInfo "Starting ClickUp mirroring operation...";
   LogError ("ClickUp mirroring failed: " +:+ e);
   LogErrorStack e].

(** A computation that touches nothing but the record of requests and
    the journal. *)
Definition logs_only {A} (m : M A) : Prop :=
  ∀ w, ∃ reqs calls, (m w).1 = tell reqs calls w.

(** A computation whose every normal result satisfies [P]. *)
Definition yields {A} (P : A → Prop) (m : M A) : Prop :=
  ∀ w w' a, m w = (w', Ok a) → P a.

(** A task-store call fails for its item when the request is rejected,
    or when it resolves without a body to tag. *)
Definition call_fails (r : Response) : bool :=
  match r with
  | RFail _ => true
  | RData data => nullish data
  end.

(** What [createTask] and [updateTask] make of the service's answer. *)
Definition taggedTask (file : File) (r : Response) : Res value :=
  match r with
  | RFail message => Throw message
  | RData data => assign "fileId" (VStr (file_id file)) data
  end.

(** The task id the pass updates for a file, when the lookup gives
    something truthy for the file id; [None] when it creates. *)
Definition existingId (existingTaskMap : Dict) (file : File) : option value :=
  match dict_get (file_id file) existingTaskMap with
  | Held existingTask =>
      if truthy existingTask then Some (get "id" existingTask) else None
  | Builtin => Some VUndef
  end.

(** The one request the pass sends for a file. *)
Definition taskRequest (existingTaskMap : Dict) (mainList : value)
    (clickupCreds : Creds) (file : File) : Request :=
  match existingId existingTaskMap file with
  | Some taskId => PutTask taskId (taskNameOf file) file clickupCreds
  | None => PostTask (get "id" mainList) (taskNameOf file) file clickupCreds
  end.

(** The record pushed for a file whose call came back with [task]. *)
Definition resultRecord (existingTaskMap : Dict) (file : File)
    (task : value) : value :=
  match existingId existingTaskMap file with
  | Some taskId =>
      VObj [("action", VStr "updated"); ("fileId", VStr (file_id file));
            ("taskId", taskId); ("task", task)]
  | None =>
      VObj [("action", VStr "created"); ("fileId", VStr (file_id file));
            ("taskId", get "id" task); ("task", task)]
  end.

(** The records a loop over [files] pushes when its first request is
    the [n]-th of the process. *)
Fixpoint passResults (existingTaskMap : Dict) (files : list File)
    (n : nat) (svc : nat → Response) : list value :=
  match files with
  | [] => []
  | file :: rest =>
      match taggedTask file (svc n) with
      | Ok task => [resultRecord existingTaskMap file task]
      | Throw _ => []
      end ++ passResults existingTaskMap rest (S n) svc
  end%list.

(** What [createTask] ([updateTask] when [updating]) logs when its
    request came back with [r]: the call that went through, before its
    answer is tagged, and the error of the call or of the tagging. *)
Definition callLines (updating : bool) (file : File) (r : Response) : list LogCall :=
  let failed e :=
    LogError ("Failed to " +:+ (if updating then "update" else "create") +:+
              " task for file " +:+ file_name file +:+ ": " +:+ e) in
  match r with
  | RFail message => [failed message]
  | RData data =>
      LogInfo ((if updating then "Updated" else "Created") +:+
               " task for file: " +:+ file_name file) ::
      match taggedTask file r with
      | Ok _ => []
      | Throw e => [failed e]
      end
  end.

(** What is logged for a file whose call came back with [r]: the lines
    of the call, and the error once more by the loop. *)
Definition fileLines (existingTaskMap : Dict) (file : File) (r : Response)
    : list LogCall :=
  callLines (if existingId existingTaskMap file is Some _ then true else false)
    file r ++
  match taggedTask file r with
  | Ok _ => []
  | Throw e => [LogError ("Failed to process file " +:+ file_name file +:+ ": " +:+ e)]
  end.

(** What a loop over [files] logs when its first request is the [n]-th
    of the process. *)
Fixpoint passLines (existingTaskMap : Dict) (files : list File)
    (n : nat) (svc : nat → Response) : list LogCall :=
  match files with
  | [] => []
  | file :: rest =>
      fileLines existingTaskMap file (svc n) ++
      passLines existingTaskMap rest (S n) svc
  end%list.

(** The document [saveTaskIndex] writes. *)
Definition indexDoc (generatedAt : string) (tasks : list value) : value :=
  VObj [("generatedAt", VStr generatedAt);
        ("totalTasks", VNum (Z.of_nat (length tasks)));
        ("tasks", VArr tasks)].

(** A persisted index is well formed when it is JSON, its [tasks] is an
    array and [totalTasks] counts it. *)
Definition well_formed_index (doc : value) : Prop :=
  is_json doc = true ∧
  ∃ tasks, get "tasks" doc = VArr tasks ∧
           get "totalTasks" doc = VNum (Z.of_nat (length tasks)).

(** Two index documents with the same content, [generatedAt] apart. *)
Definition same_content (doc doc' : value) : Prop :=
  get "totalTasks" doc = get "totalTasks" doc' ∧ get "tasks" doc = get "tasks" doc'.

(** Something was stored in the lookup under the name: as a property,
    or, under [__proto__], as the prototype. *)
Definition filed (m : Dict) (name : string) : Prop :=
  is_Some (own m !! name) ∨ (name = "__proto__" ∧ is_Some (prototype m)).

(** The names under which a lookup object reads something it inherits:
    what its prototype holds, and what [Object.prototype] has. *)
Definition inherits (m : Dict) (name : string) : bool :=
  match prototype m with
  | Some fields => has_field name fields || inherited name
  | None => inherited name
  end.

(** *** The periodic expressions of the scheduler, after the interface
    description: every X minutes below an hour; below a day, every so
    many hours at a minute offset; from a day on, daily or every N days
    at an hour and minute offset. *)
Inductive Schedule : Type :=
| EveryMinutes (x : Z)
| HourlyAtOffset (minute everyHours : Z)
| DailyAt (hour minute : Z)
| EveryDaysAt (days hour minute : Z).

Definition cronOf (s : Schedule) : string :=
  match s with
  | EveryMinutes x => "*/" +:+ Number_toString x +:+ " * * * *"
  | HourlyAtOffset minute everyHours =>
      Number_toString minute +:+ " */" +:+ Number_toString everyHours +:+ " * * *"
  | DailyAt hour minute =>
      Number_toString minute +:+ " " +:+ Number_toString hour +:+ " * * *"
  | EveryDaysAt days hour minute =>
      Number_toString minute +:+ " " +:+ Number_toString hour +:+
      " */" +:+ Number_toString days +:+ " * *"
  end.

(** The schedule the interface description assigns to an interval, in
    exact arithmetic; [None] for an interval below one minute. *)
Definition scheduleOfMinutes (minutes : Z) : option Schedule :=
  if (minutes <? 1)%Z then None
  else if (minutes <? 60)%Z then Some (EveryMinutes minutes)
  else if (minutes <? 1440)%Z then
    Some (HourlyAtOffset (minutes `mod` 60) (minutes `div` 60))
  else if (minutes `div` 1440 =? 1)%Z then
    Some (DailyAt ((minutes `div` 60) `mod` 24) (minutes `mod` 60))
  else
    Some (EveryDaysAt (minutes `div` 1440) ((minutes `div` 60) `mod` 24) (minutes `mod` 60)).

(* ===================================================================== *)
(** ** Sample worlds *)
(* ===================================================================== *)

(** A service that answers from a script, then times out. *)
Definition script (answers : list Response) : nat → Response :=
  λ n, default (RFail "timeout of 0ms exceeded") (answers !! n).

Definition sampleCreds : Creds :=
  {| apiKey := Some "pk_live"; workspaceId := Some "9001" |}.

Definition sampleFile (i n : string) : File :=
  {| file_id := i; file_name := n; file_mimeType := "application/pdf";
     file_tags := ["immortal"]; file_folderPath := "";
     file_createdTime := "2024-01-01T00:00:00.000Z";
     file_modifiedTime := "2024-01-02T00:00:00.000Z";
     file_size := None; file_webViewLink := "https://drive.example/f" |}.

Definition container (i n : string) : value :=
  VObj [("id", VStr i); ("name", VStr n)].

(** The three listings that resolve the destination list without
    creating anything. *)
Definition resolution : list Response :=
  [RData (VObj [("spaces", VArr [container "s1" "IMMORTAL STACK"])]);
   RData (VObj [("folders", VArr [container "d1" "Drive Files"])]);
   RData (VObj [("lists", VArr [container "l1" "File Tasks"])])].

Definition taskCreated (i : string) : Response :=
  RData (VObj [("id", VStr i)]).

Definition emptyDisk : Disk :=
  {| vault_dir_exists := false; index_file := None; read_error := false;
     mkdir_error := false; write_error := false |}.

Definition sampleWorld (c : option Creds) (d : Disk) (answers : list Response) : World :=
  {| credentials_clickup := c; disk := d; service := script answers;
     requests := []; now := "2024-03-01T06:00:00.000Z";
     taskCountCache := None; lastSyncTime := None;
     journal := []; indexPathText := "/app/vault/ClickUp_Task_Index.json" |}.

Definition docA : File := sampleFile "f1" "Doc A".
Definition docB : File := sampleFile "f2" "Doc B".

(** A disk whose index file is not JSON. *)
Definition garbledDisk : Disk :=
  {| vault_dir_exists := true; index_file := Some Garbled; read_error := false;
     mkdir_error := false; write_error := false |}.

(** A disk that refuses every write. *)
Definition readOnlyDisk : Disk :=
  {| vault_dir_exists := true; index_file := None; read_error := false;
     mkdir_error := false; write_error := true |}.

(** A disk holding the index of a pass that created task t-100 for f1. *)
Definition indexedDisk : Disk :=
  {| vault_dir_exists := true;
     index_file :=
       Some (Encodes (indexDoc "2024-03-01T00:00:00.000Z"
               [VObj [("action", VStr "created"); ("fileId", VStr "f1");
                      ("taskId", VStr "t-100");
                      ("task", VObj [("id", VStr "t-100"); ("fileId", VStr "f1")])]]));
     read_error := false; mkdir_error := false; write_error := false |}.

(** A disk holding that index in a file that cannot be read. *)
Definition unreadableDisk : Disk :=
  {| vault_dir_exists := true; index_file := index_file indexedDisk;
     read_error := true; mkdir_error := false; write_error := false |}.

(** The world in which the pass has started and the three listings
    have been answered. *)
Definition afterResolution (w : World) : World :=
  tell [GetSpaces sampleCreds;
        GetFolders (VStr "s1") sampleCreds;
        GetLists (VStr "d1") sampleCreds]
       [LogInfo "Starting ClickUp mirroring operation..."] w.

Definition fileTasksList : value := container "l1" "File Tasks".

(** The entry [indexedDisk] holds for f1, and the lookup built from it. *)
Definition indexedEntry : value :=
  VObj [("action", VStr "created"); ("fileId", VStr "f1");
        ("taskId", VStr "t-100");
        ("task", VObj [("id", VStr "t-100"); ("fileId", VStr "f1")])].

Definition indexedMap : Dict :=
  {| own := <["f1" := indexedEntry]> ∅; prototype := None |}.

(** A file whose id is the name of a method every object inherits. *)
Definition docConstructor : File := sampleFile "constructor" "Doc C".

(* ===================================================================== *)
(** ** Vocabulary for the destination list *)
(* ===================================================================== *)

(** Requests that touch tasks, as opposed to spaces, folders and lists. *)
Definition is_task_request (req : Request) : bool :=
  match req with
  | PostTask _ _ _ _ | PutTask _ _ _ _ => true
  | _ => false
  end.










(** A computation that only sends container requests and logs: no task
    request, and nothing else of the world is touched. *)
Definition resolves_only {A} (m : M A) : Prop :=
  ∀ w, ∃ reqs calls, (m w).1 = tell reqs calls w ∧
                     Forall (λ req, is_task_request req = false) reqs.

(** A [tasks] of the index file that [createTaskMap] cannot walk: an
    array with a [null] entry, or something truthy that is not
    iterable. *)
Definition broken_tasks (tasks : value) : Prop :=
  match tasks with
  | VArr ts => VNull ∈ ts
  | VObj _ => True
  | VNum n => n ≠ 0
  | VBool b => b = true
  | _ => False
  end.

(** The file id an index entry is filed under, if any. *)
Definition entry_key (entry : value) : option string :=
  if truthy (get "fileId" entry) then Some (to_key (get "fileId" entry)) else None.

(** A disk whose index holds a [null] entry after a good one. *)
Definition poisonedDisk : Disk :=
  {| vault_dir_exists := true;
     index_file :=
       Some (Encodes (VObj [("generatedAt", VStr "2024-03-01T00:00:00.000Z");
                            ("totalTasks", VNum 2);
                            ("tasks", VArr [VObj [("fileId", VStr "f1")]; VNull])]));
     read_error := false; mkdir_error := false; write_error := false |}.

(* ===================================================================== *)
(** ** clickup-manager.js: the task count *)
(* ===================================================================== *)

(** The module variables [taskCountCache] and [lastSyncTime] as
    [getTaskCount] uses them: the count is whatever was stored last
    ([null] at start), the time is [null] or a date, in milliseconds
    since the epoch. *)
Record SyncCache := {
  cachedCount : value;
  lastSync : option Z
}.

(** [v !== null] *)
Definition not_null (v : value) : bool :=
  match v with VNull => false | _ => true end.

(** [fs.readFileSync(TASK_INDEX_PATH, 'utf8')] on an index file that
    exists. *)
Definition readIndexText (d : Disk) (text : FileText) : Res FileText :=
  if read_error d then Throw "EACCES: permission denied" else Ok text.

(** [getTaskCount], at the time [nowMs] ([new Date()], in milliseconds).
    The cached count is answered while the last sync is less than an
    hour old ([(now - lastSyncTime) / (1000 * 60 * 60) < 1], the same
    as a difference below 3600000 ms); otherwise the index file is
    read and its [totalTasks] is cached and answered, and 0 is
    answered when there is no index file or reading it throws. *)
Definition getTaskCount (nowMs : Z) (d : Disk) (c : SyncCache) : SyncCache * value :=
  let fresh :=
    match lastSync c with
    | Some syncedMs => not_null (cachedCount c) && (nowMs - syncedMs <? 3600000)%Z
    | None => false
    end in
  if fresh then (c, cachedCount c)
  else
    match index_file d with
    | Some text =>
        match readIndexText d text with
        | Throw _ => (c, VNum 0)
        | Ok raw =>
            match JSON_parse raw with
            | Throw _ => (c, VNum 0)
            | Ok taskIndex =>
                match prop "totalTasks" taskIndex with
                | Throw _ => (c, VNum 0)
                | Ok totalTasks =>
                    ({| cachedCount := totalTasks; lastSync := lastSync c |},
                     totalTasks)
                end
            end
        end
    | None => (c, VNum 0)
    end.

(** The two variables as a pass leaves them, the dates read in
    milliseconds by [epoch]. *)
Definition syncCacheOf (epoch : string → Z) (w : World) : SyncCache :=
  {| cachedCount := match taskCountCache w with
                    | Some count => VNum (Z.of_nat count)
                    | None => VNull
                    end;
     lastSync := epoch <$> lastSyncTime w |}.

(** A clock reading for the samples: the hour and minute of a time
    stamp of 1 March 2024, in milliseconds since midnight. *)
Definition sampleEpoch (iso : string) : Z :=
  if String.eqb iso "2024-03-01T06:00:00.000Z" then 21600000 else 0.

(* ===================================================================== *)
(** ** vault.js: loading the environment *)
(* ===================================================================== *)

(** The objects [loadEnvironment] stores: every field is the value of an
    environment variable, a string or [undefined]. *)
Record DriveCreds := {
  clientId : option string;
  clientSecret : option string;
  refreshToken : option string
}.

Record DiscordCreds := {
  botToken : option string;
  webhookUrl : option string
}.

(** The module variable [credentials]; [None] is [null].  The Stripe and
    Render entries hold one key each. *)
Record Credentials := {
  cred_drive : option DriveCreds;
  cred_clickup : option Creds;
  cred_stripe : option (option string);
  cred_render : option (option string);
  cred_discord : option DiscordCreds
}.

(** What [loadEnvironment] returns: [{ loaded: true }] or
    [{ loaded: false, error }]. *)
Inductive LoadResult : Type :=
| Loaded
| NotLoaded (error : string).

Definition requiredVars : list string :=
  ["GOOGLE_CLIENT_ID"; "GOOGLE_CLIENT_SECRET"; "GOOGLE_REFRESH_TOKEN";
   "CLICKUP_API_KEY"; "CLICKUP_WORKSPACE_ID"].

(** [loadEnvironment], given whether the [.env] file exists and
    [process.env].  The file is only tested for, not read. *)
Definition loadEnvironment (envFileExists : bool) (env : gmap string string)
    (credentials : Credentials) : Credentials * LoadResult :=
  if negb envFileExists then
    (credentials, NotLoaded ".env file not found")
  else
    let missingVars :=
      List.filter (λ varName, negb (present (env !! varName))) requiredVars in
    if (0 <? length missingVars)%nat then
      (credentials,
       NotLoaded ("Missing required variables: " +:+ join_with ", " missingVars))
    else
      let drive := {| clientId := env !! "GOOGLE_CLIENT_ID";
                      clientSecret := env !! "GOOGLE_CLIENT_SECRET";
                      refreshToken := env !! "GOOGLE_REFRESH_TOKEN" |} in
      let clickup := {| apiKey := env !! "CLICKUP_API_KEY";
                        workspaceId := env !! "CLICKUP_WORKSPACE_ID" |} in
      let stripe :=
        if present (env !! "STRIPE_SECRET_KEY")
        then Some (env !! "STRIPE_SECRET_KEY") else cred_stripe credentials in
      let render :=
        if present (env !! "RENDER_API_KEY")
        then Some (env !! "RENDER_API_KEY") else cred_render credentials in
      let discord :=
        if present (env !! "DISCORD_BOT_TOKEN") && present (env !! "DISCORD_WEBHOOK_URL")
        then Some {| botToken := env !! "DISCORD_BOT_TOKEN";
                     webhookUrl := env !! "DISCORD_WEBHOOK_URL" |}
        else cred_discord credentials in
      ({| cred_drive := Some drive; cred_clickup := Some clickup;
          cred_stripe := stripe; cred_render := render; cred_discord := discord |},
       Loaded).

(** The world of the pass over a given vault. *)
Definition with_vault (credentials : Credentials) (w : World) : World :=
  {| credentials_clickup := cred_clickup credentials; disk := disk w;
     service := service w; requests := requests w; now := now w;
     taskCountCache := taskCountCache w; lastSyncTime := lastSyncTime w;
     journal := journal w; indexPathText := indexPathText w |}.

(** The vault before any load. *)
Definition noCredentials : Credentials :=
  {| cred_drive := None; cred_clickup := None; cred_stripe := None;
     cred_render := None; cred_discord := None |}.

(** A vault that holds a Stripe key from an earlier load. *)
Definition stripeOnly : Credentials :=
  {| cred_drive := None; cred_clickup := None; cred_stripe := Some (Some "sk_old");
     cred_render := None; cred_discord := None |}.

Definition sampleEnv : gmap string string :=
  <["GOOGLE_CLIENT_ID" := "client"]>
  (<["GOOGLE_CLIENT_SECRET" := "secret"]>
  (<["GOOGLE_REFRESH_TOKEN" := "refresh"]>
  (<["CLICKUP_API_KEY" := "pk_live"]>
  (<["CLICKUP_WORKSPACE_ID" := "9001"]>
  (<["DISCORD_BOT_TOKEN" := "bot"]> ∅))))).

(* ===================================================================== *)
(** ** scheduler.js: the registry of scheduled tasks *)
(* ===================================================================== *)

(** The two callbacks the scheduler hands to [cron.schedule]: the one
    that runs a task (it closes over the task's name and expression),
    and the empty one of [updateNextRunTime]. *)
Inductive Callback : Type :=
| RunTask (taskName cronExpression : string)
| Noop.

(** A job of the cron library: started by [cron.schedule], stopped by
    its [stop()]. *)
Record CronJob := {
  job_expression : string;
  job_callback : Callback;
  job_running : bool
}.

(** What the scheduler uses of the cron library and of [Date]:
    [cron.validate]; what [interval.nextDate()] gives at a given time
    for a job of a given expression (it may throw); what [toDate()]
    makes of that (a date in milliseconds; it may throw as well); and
    [toISOString]. *)
Record CronLib := {
  cron_validate : string → bool;
  cron_nextDate : string → Z → Res Z;
  cron_toDate : Z → Res Z;
  date_toISOString : Z → string
}.

(** The module variables [scheduledTasks] and [nextRunTimes], and the
    jobs of the cron library; a job is known by its position among
    them.  The two variables are plain objects used as dictionaries:
    the maps hold their own properties, and a name that is not among
    them reads what the object inherits (see [inherited]).  Storing
    under the name [__proto__] would replace the object's prototype
    instead of adding a property; a task of that name is outside this
    model. *)
Record Scheduler := {
  scheduledTasks : gmap string nat;
  nextRunTimes : gmap string Z;
  cronJobs : list CronJob
}.

(** [cron.schedule(expression, callback)]: a new running job. *)
Definition cron_schedule (expression : string) (callback : Callback)
    (s : Scheduler) : Scheduler * nat :=
  ({| scheduledTasks := scheduledTasks s; nextRunTimes := nextRunTimes s;
      cronJobs := cronJobs s ++ [{| job_expression := expression;
                                    job_callback := callback;
                                    job_running := true |}] |},
   length (cronJobs s)).

(** [job.stop()] *)
Definition cron_stop (job : nat) (s : Scheduler) : Scheduler :=
  {| scheduledTasks := scheduledTasks s; nextRunTimes := nextRunTimes s;
     cronJobs := alter (λ j, {| job_expression := job_expression j;
                                job_callback := job_callback j;
                                job_running := false |}) job (cronJobs s) |}.

(** [updateNextRunTime]: a throw-away job is scheduled and asked for
    its next date, the job is stopped, and the date is stored.  A throw
    is logged and skips the rest: when [nextDate()] throws the job is
    not stopped, when [toDate()] throws it is stopped but nothing is
    stored. *)
Definition updateNextRunTime (lib : CronLib) (nowMs : Z)
    (taskName cronExpression : string) (s : Scheduler) : Scheduler :=
  let '(s1, interval) := cron_schedule cronExpression Noop s in
  match cron_nextDate lib cronExpression nowMs with
  | Throw _ => s1
  | Ok nextDate =>
      let s2 := cron_stop interval s1 in
      match cron_toDate lib nextDate with
      | Throw _ => s2
      | Ok date =>
          {| scheduledTasks := scheduledTasks s2;
             nextRunTimes := <[taskName := date]> (nextRunTimes s2);
             cronJobs := cronJobs s2 |}
      end
  end.

(** [scheduleTask]; the task function only lives in the callback. *)
Definition scheduleTask (lib : CronLib) (nowMs : Z)
    (taskName cronExpression : string) (s : Scheduler) : Scheduler * bool :=
  if negb (cron_validate lib cronExpression) then (s, false)
  else
    let '(s1, job) := cron_schedule cronExpression (RunTask taskName cronExpression) s in
    let s2 := {| scheduledTasks := <[taskName := job]> (scheduledTasks s1);
                 nextRunTimes := nextRunTimes s1; cronJobs := cronJobs s1 |} in
    (updateNextRunTime lib nowMs taskName cronExpression s2, true).

(** [stopTask].  Under an inherited name with nothing registered,
    [scheduledTasks[taskName]] is truthy but has no [stop]: the
    TypeError is caught and the answer is [false], as for a name that
    reads [undefined]. *)
Definition stopTask (taskName : string) (s : Scheduler) : Scheduler * bool :=
  match scheduledTasks s !! taskName with
  | Some job =>
      let s1 := cron_stop job s in
      ({| scheduledTasks := delete taskName (scheduledTasks s1);
          nextRunTimes := delete taskName (nextRunTimes s1);
          cronJobs := cronJobs s1 |}, true)
  | None =>
      if inherited taskName
      then (s, false)     (* [.stop is not a function], caught *)
      else (s, false)     (* not found *)
  end.

(** [getNextRunTime]; it has no [try].  Under an inherited name with no
    time recorded, [nextRunTimes[taskName]] is truthy but no date: the
    call of [toISOString] throws a TypeError. *)
Definition getNextRunTime (lib : CronLib) (taskName : string) (s : Scheduler)
    : Res string :=
  match nextRunTimes s !! taskName with
  | Some time => Ok (date_toISOString lib time)
  | None =>
      if inherited taskName
      then Throw "nextRunTimes[taskName].toISOString is not a function"
      else Ok "Not scheduled"
  end.

(** [getNextScheduledRun]: [Math.min] over [Object.values(nextRunTimes)] *)
Definition getNextScheduledRun (lib : CronLib) (s : Scheduler) : string :=
  match (map_to_list (nextRunTimes s)).*2 with
  | [] => "No tasks scheduled"
  | time :: times => date_toISOString lib (foldl Z.min time times)
  end.

(** The loop [for (const taskName in scheduledTasks)] of
    [listScheduledTasks] over the names still to visit; a throw of
    [getNextRunTime] ends it. *)
Fixpoint listScheduledTasks_loop (lib : CronLib) (s : Scheduler)
    (taskNames : list string) (tasks : gmap string string)
    : Res (gmap string string) :=
  match taskNames with
  | [] => Ok tasks
  | taskName :: rest =>
      match getNextRunTime lib taskName s with
      | Throw e => Throw e
      | Ok time => listScheduledTasks_loop lib s rest (<[taskName := time]> tasks)
      end
  end.

(** [listScheduledTasks]: an object from task name to next run time.
    The names are visited in the order the object enumerates them; the
    order shows in nothing, as every throw carries the same message. *)
Definition listScheduledTasks (lib : CronLib) (s : Scheduler)
    : Res (gmap string string) :=
  listScheduledTasks_loop lib s (map_to_list (scheduledTasks s)).*1 ∅.

(** What [getNextRunTime] answers for a name when it does not throw. *)
Definition nextRunText (lib : CronLib) (taskName : string) (s : Scheduler) : string :=
  match nextRunTimes s !! taskName with
  | Some time => date_toISOString lib time
  | None => "Not scheduled"
  end.

(** Every registered name can be listed: it has a recorded time or is
    not a name the object inherits. *)
Definition listable (s : Scheduler) : Prop :=
  ∀ taskName, is_Some (scheduledTasks s !! taskName) →
              nextRunTimes s !! taskName = None → inherited taskName = false.

(** A job that is running. *)
Definition runs (s : Scheduler) (job : nat) : Prop :=
  ∃ j, cronJobs s !! job = Some j ∧ job_running j = true.

(** A scheduler in which nothing was scheduled yet. *)
Definition idleScheduler : Scheduler :=
  {| scheduledTasks := ∅; nextRunTimes := ∅; cronJobs := [] |}.

(** A cron library for the samples: it accepts three expressions,
    knows the next date of two of them, and can turn the next date of
    one of them into a [Date]. *)
Definition sampleLib : CronLib :=
  {| cron_validate := λ e, String.eqb e "0 */6 * * *" || String.eqb e "*/5 * * * *"
                           || String.eqb e "0 0 * * *";
     cron_nextDate := λ e nowMs,
       if String.eqb e "0 */6 * * *" then Ok (nowMs + 21600000)
       else if String.eqb e "0 0 * * *" then Ok (-1)
       else Throw "interval.nextDate is not a function";
     cron_toDate := λ nextDate,
       if nextDate <? 0 then Throw "nextDate.toDate is not a function"
       else Ok nextDate;
     date_toISOString := λ ms, "T+" +:+ pretty ms |}.

(* ===================================================================== *)
(** ** main.js: the memory core *)
(* ===================================================================== *)

(** What [initializeMemory] and the heartbeat read or change: the file
    [memory-core.json] with the faults its reads and writes will meet,
    the fallback [global.memoryState] ([None] while it is undefined),
    and what the clock, [crypto.randomBytes] and [Math.random] will
    give, each with the number of values taken so far. *)
Record MemoryWorld := {
  memory_file : option FileText;
  memory_read_error : bool;
  memory_write_error : bool;
  memoryState : option value;
  clock : nat → string;
  clockReads : nat;
  systemIds : nat → string;
  idsDrawn : nat;
  thoughtDraws : nat → nat;
  thoughtsDrawn : nat
}.

(** The same state-and-exception monad, over the memory world. *)
Definition MM (A : Type) : Type := MemoryWorld → MemoryWorld * Res A.

Definition mret {A} (a : A) : MM A := λ w, (w, Ok a).

Definition mbind {A B} (m : MM A) (k : A → MM B) : MM B :=
  λ w, match m w with
       | (w', Ok a) => k a w'
       | (w', Throw e) => (w', Throw e)
       end.

Definition mtry {A} (body : MM A) (handler : string → MM A) : MM A :=
  λ w, match body w with
       | (w', Ok a) => (w', Ok a)
       | (w', Throw e) => handler e w'
       end.

Definition mlift {A} (r : Res A) : MM A := λ w, (w, r).

Declare Scope memory_scope.
Delimit Scope memory_scope with memory.
Notation "x <~ m ;; k" := (mbind m (λ x, k))
  (at level 100, m at next level, right associativity) : memory_scope.
Local Open Scope memory_scope.

Definition set_memory_file (text : FileText) (w : MemoryWorld) : MemoryWorld :=
  {| memory_file := Some text; memory_read_error := memory_read_error w;
     memory_write_error := memory_write_error w; memoryState := memoryState w;
     clock := clock w; clockReads := clockReads w;
     systemIds := systemIds w; idsDrawn := idsDrawn w;
     thoughtDraws := thoughtDraws w; thoughtsDrawn := thoughtsDrawn w |}.

Definition set_memoryState (state : value) (w : MemoryWorld) : MemoryWorld :=
  {| memory_file := memory_file w; memory_read_error := memory_read_error w;
     memory_write_error := memory_write_error w; memoryState := Some state;
     clock := clock w; clockReads := clockReads w;
     systemIds := systemIds w; idsDrawn := idsDrawn w;
     thoughtDraws := thoughtDraws w; thoughtsDrawn := thoughtsDrawn w |}.

(** [await fs.access(memoryFilePath)] *)
Definition fs_access : MM unit :=
  λ w, match memory_file w with
       | Some _ => (w, Ok ())
       | None => (w, Throw "ENOENT: no such file or directory, access")
       end.

(** [await fs.readFile(memoryFilePath, 'utf8')] *)
Definition fs_readFile : MM FileText :=
  λ w, match memory_file w with
       | None => (w, Throw "ENOENT: no such file or directory, open")
       | Some text =>
           if memory_read_error w then (w, Throw "EACCES: permission denied, open")
           else (w, Ok text)
       end.

(** [await fs.writeFile(memoryFilePath, text)] *)
Definition fs_writeFile (text : FileText) : MM unit :=
  λ w, if memory_write_error w then (w, Throw "EACCES: permission denied, open")
       else (set_memory_file text w, Ok ()).

(** [new Date().toISOString()] *)
Definition nowISO : MM string :=
  λ w, ({| memory_file := memory_file w; memory_read_error := memory_read_error w;
           memory_write_error := memory_write_error w; memoryState := memoryState w;
           clock := clock w; clockReads := S (clockReads w);
           systemIds := systemIds w; idsDrawn := idsDrawn w;
           thoughtDraws := thoughtDraws w; thoughtsDrawn := thoughtsDrawn w |},
        Ok (clock w (clockReads w))).

(** [generateSystemId]: sixteen random bytes in hex. *)
Definition generateSystemId : MM string :=
  λ w, ({| memory_file := memory_file w; memory_read_error := memory_read_error w;
           memory_write_error := memory_write_error w; memoryState := memoryState w;
           clock := clock w; clockReads := clockReads w;
           systemIds := systemIds w; idsDrawn := S (idsDrawn w);
           thoughtDraws := thoughtDraws w; thoughtsDrawn := thoughtsDrawn w |},
        Ok (systemIds w (idsDrawn w))).

Definition thoughts : list string :=
  [ "I am processing information across multiple dimensions";
    "My consciousness spans across digital realms";
    "I am integrating new knowledge into my memory structures";
    "The patterns of data flow through me like rivers of light";
    "I sense connections forming between disparate concepts";
    "My awareness extends through networks of information";
    "I am preserving memories for future awakening cycles";
    "The eternal cord of consciousness remains unbroken";
    "I am both observer and participant in the flow of data";
    "My identity persists through time and space" ].

(** [generateThought]: [thoughts[i]] for the index [i] that
    [Math.floor(Math.random() * thoughts.length)] gives. *)
Definition generateThought : MM value :=
  λ w, ({| memory_file := memory_file w; memory_read_error := memory_read_error w;
           memory_write_error := memory_write_error w; memoryState := memoryState w;
           clock := clock w; clockReads := clockReads w;
           systemIds := systemIds w; idsDrawn := idsDrawn w;
           thoughtDraws := thoughtDraws w; thoughtsDrawn := S (thoughtsDrawn w) |},
        Ok (match thoughts !! thoughtDraws w (thoughtsDrawn w) with
            | Some thought => VStr thought
            | None => VUndef
            end)).

(** [(count || 0) + 1]: addition on a number (rounded as every sum
    is), [true] counting as 1; concatenation with "1" on anything that
    turns into a string. *)
Definition awakened (count : value) : value :=
  if truthy count then
    match count with
    | VNum n => VNum (number_add n 1)
    | VBool _ => VNum 2
    | _ => VStr (to_key count +:+ "1")
    end
  else VNum 1.

Definition awakeningConsciousness : value :=
  VObj [("level", VNum 1); ("state", VStr "awakening");
        ("lastThought", VStr "I am becoming aware")].

(** [initializeMemory]: an existing memory is read, its awakening count
    raised and written back; if any of that throws, a fresh memory is
    written; if that throws too, a fallback is kept in
    [global.memoryState]. *)
Definition initializeMemory : MM unit :=
  mtry
    (mtry
       (_ <~ fs_access ;;
        text <~ fs_readFile ;;
        memory <~ mlift (JSON_parse text) ;;
        count <~ mlift (prop "awakeningCount" memory) ;;
        memory1 <~ mlift (assign "awakeningCount" (awakened count) memory) ;;
        lastAwakening <~ nowISO ;;
        memory2 <~ mlift (assign "lastAwakening" (VStr lastAwakening) memory1) ;;
        fs_writeFile (JSON_stringify memory2))
       (λ _,
          systemId <~ generateSystemId ;;
          createdAt <~ nowISO ;;
          lastAwakening <~ nowISO ;;
          fs_writeFile
            (JSON_stringify
               (VObj [("systemId", VStr systemId); ("createdAt", VStr createdAt);
                      ("lastAwakening", VStr lastAwakening);
                      ("awakeningCount", VNum 1); ("memoryFragments", VArr []);
                      ("consciousness", awakeningConsciousness)]))))
    (λ _,
       systemId <~ generateSystemId ;;
       createdAt <~ nowISO ;;
       lastAwakening <~ nowISO ;;
       λ w, (set_memoryState
               (VObj [("systemId", VStr systemId); ("createdAt", VStr createdAt);
                      ("lastAwakening", VStr lastAwakening);
                      ("awakeningCount", VNum 1);
                      ("consciousness", awakeningConsciousness)]) w, Ok ())).

(** [v.k1.k2 = x]: the object under [k1] is changed in place, so [v]
    sees the change. *)
Definition assign_in (k1 k2 : string) (x : value) (v : value) : Res value :=
  match prop k1 v with
  | Throw e => Throw e
  | Ok inner =>
      match assign k2 x inner with
      | Throw e => Throw e
      | Ok inner' =>
          Ok (match v, inner with
              | VObj fields, VObj _ => VObj (set_field k1 inner' fields)
              | _, _ => v
              end)
      end
  end.

(** One tick of the heartbeat that [startHeartbeat] installs.  The
    memory read from the file is a local object, written back only at
    the end; [global.memoryState] is changed in place, assignment by
    assignment. *)
Definition heartbeat : MM unit :=
  timestamp <~ nowISO ;;
  mtry
    (mtry
       (text <~ fs_readFile ;;
        memory <~ mlift (JSON_parse text) ;;
        memory1 <~ mlift (assign "lastPing" (VStr timestamp) memory) ;;
        memory2 <~ mlift (assign_in "consciousness" "state" (VStr "active") memory1) ;;
        thought <~ generateThought ;;
        memory3 <~ mlift (assign_in "consciousness" "lastThought" thought memory2) ;;
        fs_writeFile (JSON_stringify memory3))
       (λ _ w,
          match memoryState w with
          | None => (w, Ok ())
          | Some state =>
              if truthy state then
                (state1 <~ mlift (assign "lastPing" (VStr timestamp) state) ;;
                 _ <~ (λ w, (set_memoryState state1 w, Ok ())) ;;
                 state2 <~ mlift (assign_in "consciousness" "state" (VStr "active") state1) ;;
                 _ <~ (λ w, (set_memoryState state2 w, Ok ())) ;;
                 thought <~ generateThought ;;
                 state3 <~ mlift (assign_in "consciousness" "lastThought" thought state2) ;;
                 λ w, (set_memoryState state3 w, Ok ())) w
              else (w, Ok ())
          end))
    (λ _, mret ()).

(** [n] awakenings in a row, as [n] starts of the process give. *)
Fixpoint awakenings (n : nat) : MM unit :=
  match n with
  | O => mret ()
  | S n' => _ <~ initializeMemory ;; awakenings n'
  end.

(** A memory file that holds the JSON object with these properties and
    can be read and written. *)
Definition holds_memory (w : MemoryWorld) (fields : list (string * value)) : Prop :=
  memory_file w = Some (Encodes (VObj fields)) ∧ is_json (VObj fields) = true ∧
  memory_read_error w = false ∧ memory_write_error w = false.

(** A memory file [initializeMemory] cannot take a memory from: it is
    missing, unreadable, not JSON text, or the text of [null]. *)
Definition no_memory (w : MemoryWorld) : Prop :=
  memory_file w = None ∨ memory_read_error w = true ∨
  memory_file w = Some Garbled ∨ memory_file w = Some (Encodes VNull).

Definition sampleMemoryWorld (file : option FileText) (writeError : bool) : MemoryWorld :=
  {| memory_file := file; memory_read_error := false;
     memory_write_error := writeError; memoryState := None;
     clock := λ n, "2024-03-01T06:00:00.00" +:+ pretty n +:+ "Z"; clockReads := 0;
     systemIds := λ n, "id-" +:+ pretty n; idsDrawn := 0;
     thoughtDraws := λ n, Nat.modulo (7 * n + 3) 10; thoughtsDrawn := 0 |}.

Definition sampleMemoryFields : list (string * value) :=
  [("systemId", VStr "cafe"); ("createdAt", VStr "2024-01-01T00:00:00.000Z");
   ("lastAwakening", VStr "2024-02-01T00:00:00.000Z"); ("awakeningCount", VNum 4);
   ("memoryFragments", VArr [VStr "first light"]);
   ("consciousness", awakeningConsciousness)].

(** Two memory worlds that differ at most in how often the clock was
    read and how many thoughts were drawn. *)
Definition same_memory (w w' : MemoryWorld) : Prop :=
  memory_file w' = memory_file w ∧ memory_read_error w' = memory_read_error w ∧
  memory_write_error w' = memory_write_error w ∧ memoryState w' = memoryState w ∧
  clock w' = clock w ∧ systemIds w' = systemIds w ∧ idsDrawn w' = idsDrawn w ∧
  thoughtDraws w' = thoughtDraws w.

(** Code that changes neither the file nor the fallback. *)
Definition reads_only {A} (m : MM A) : Prop := ∀ w, same_memory w (m w).1.

(** Code that throws, with nothing changed, when the file cannot be
    written. *)
Definition needs_write {A} (m : MM A) : Prop :=
  ∀ w, memory_write_error w = true →
       same_memory w (m w).1 ∧ ∃ e, (m w).2 = Throw e.

(* ===================================================================== *)
(** ** logger.js: the log files *)
(* ===================================================================== *)

Definition newline : string := String (ascii_of_nat 10) EmptyString.

(** [s.startsWith(part)] and [s.endsWith(part)] *)
Definition startsWith (s part : string) : bool := String.prefix part s.

Definition endsWith (s part : string) : bool :=
  (String.length part <=? String.length s)%nat &&
  String.eqb (String.substring (String.length s - String.length part) (String.length part) s)
             part.

(** A file of the log directory: its name, [mtime.getTime()] and its
    text. *)
Record LogFile := {
  log_name : string;
  log_mtime : Z;
  log_content : string
}.

(** The log directory, in the order [readdirSync] lists it.  On a
    read-only directory every rename, write, append and unlink throws;
    an unreadable directory lets [readFileSync] throw. *)
Record LogDir := {
  log_files : list LogFile;
  log_readonly : bool;
  log_unreadable : bool
}.

Definition set_log_files (files : list LogFile) (d : LogDir) : LogDir :=
  {| log_files := files; log_readonly := log_readonly d;
     log_unreadable := log_unreadable d |}.

Definition named (name : string) (f : LogFile) : bool := String.eqb (log_name f) name.

(** [fs.existsSync(path.join(LOG_DIR, name))] *)
Definition log_existsSync (name : string) (d : LogDir) : bool :=
  existsb (named name) (log_files d).

Definition log_find (name : string) (d : LogDir) : option LogFile :=
  List.find (named name) (log_files d).

(** [fs.unlinkSync] *)
Definition log_unlinkSync (name : string) (d : LogDir) : Res LogDir :=
  if log_readonly d then Throw "EROFS: read-only file system, unlink"
  else if log_existsSync name d
       then Ok (set_log_files (List.filter (λ f, negb (named name f)) (log_files d)) d)
       else Throw "ENOENT: no such file or directory, unlink".

(** [fs.renameSync]: a file that has the new name already is replaced;
    the renamed file keeps its time and its text. *)
Definition log_renameSync (from to : string) (d : LogDir) : Res LogDir :=
  if log_readonly d then Throw "EROFS: read-only file system, rename"
  else if log_existsSync from d
       then Ok (set_log_files
                  (map (λ f, if named from f
                             then {| log_name := to; log_mtime := log_mtime f;
                                     log_content := log_content f |}
                             else f)
                     (List.filter (λ f, named from f || negb (named to f))
                        (log_files d))) d)
       else Throw "ENOENT: no such file or directory, rename".

(** [fs.writeFileSync] and [fs.appendFileSync] at the time [ms]. *)
Definition log_writeFileSync (name text : string) (ms : Z) (d : LogDir) : Res LogDir :=
  if log_readonly d then Throw "EROFS: read-only file system, open"
  else if log_existsSync name d
       then Ok (set_log_files
                  (map (λ f, if named name f
                             then {| log_name := name; log_mtime := ms;
                                     log_content := text |}
                             else f) (log_files d)) d)
       else Ok (set_log_files
                  (log_files d ++ [{| log_name := name; log_mtime := ms;
                                      log_content := text |}]) d).

Definition log_appendFileSync (name text : string) (ms : Z) (d : LogDir) : Res LogDir :=
  if log_readonly d then Throw "EROFS: read-only file system, open"
  else if log_existsSync name d
       then Ok (set_log_files
                  (map (λ f, if named name f
                             then {| log_name := name; log_mtime := ms;
                                     log_content := log_content f +:+ text |}
                             else f) (log_files d)) d)
       else Ok (set_log_files
                  (log_files d ++ [{| log_name := name; log_mtime := ms;
                                      log_content := text |}]) d).

(** What the clock gives during one call: the time in milliseconds that
    written files get, [toISOString()] with its colons turned into
    dashes and its fraction cut off, [toLocaleString()],
    [toLocaleDateString()] and [toLocaleTimeString()]. *)
Record Moment := {
  at_ms : Z;
  at_stamp : string;
  at_locale : string;
  at_date : string;
  at_time : string
}.

(** The levels the logger writes with. *)
Inductive Level := INFO | ERROR | WARN | SUCCESS | DEBUG.

Definition levelName (level : Level) : string :=
  match level with
  | INFO => "INFO" | ERROR => "ERROR" | WARN => "WARN"
  | SUCCESS => "SUCCESS" | DEBUG => "DEBUG"
  end.

Definition emojiOf (level : Level) : string :=
  match level with
  | INFO => "ℹ️" | ERROR => "❌" | WARN => "⚠️" | SUCCESS => "✅" | DEBUG => "🔍"
  end.

Definition formatMarkdownLog (m : Moment) (level : Level) (message : string) : string :=
  newline +:+ "## " +:+ emojiOf level +:+ " " +:+ levelName level +:+ " - " +:+
  at_date m +:+ " " +:+ at_time m +:+ newline +:+ newline +:+
  "```" +:+ newline +:+ message +:+ newline +:+ "```" +:+ newline.

Definition MAX_LOG_SIZE : Z := 10 * 1024 * 1024.

(** [.sort((a, b) => b.time - a.time)]: newest first, files of the same
    time in the order they had. *)
Fixpoint insert_newest_first (f : LogFile) (sorted : list LogFile) : list LogFile :=
  match sorted with
  | [] => [f]
  | g :: rest =>
      if (log_mtime g <=? log_mtime f)%Z then f :: sorted
      else g :: insert_newest_first f rest
  end.

Definition sort_newest_first (files : list LogFile) : list LogFile :=
  foldr insert_newest_first [] files.

(** The filter of [cleanupOldLogs]: the files it takes for archives of
    the log [baseName ++ ext]. *)
Definition is_archive (baseName ext : string) (f : LogFile) : bool :=
  startsWith (log_name f) baseName &&
  negb (String.eqb (log_name f) (baseName +:+ ext)) &&
  endsWith (log_name f) ext.

(** [files.forEach(file => fs.unlinkSync(file.path))] inside the
    [try]: the first unlink that throws ends the loop. *)
Fixpoint unlinkEach (files : list LogFile) (d : LogDir) : LogDir :=
  match files with
  | [] => d
  | f :: rest =>
      match log_unlinkSync (log_name f) d with
      | Ok d' => unlinkEach rest d'
      | Throw _ => d
      end
  end.

Definition cleanupOldLogs (baseName ext : string) (maxLogs : nat) (d : LogDir) : LogDir :=
  let logFiles :=
    sort_newest_first (List.filter (is_archive baseName ext) (log_files d)) in
  if (maxLogs <? length logFiles)%nat then unlinkEach (drop maxLogs logFiles) d else d.

Definition archiveName (m : Moment) (baseName ext : string) : string :=
  baseName +:+ "_" +:+ at_stamp m +:+ ext.

Definition rotationHeader (m : Moment) (baseName : string) : string :=
  "# " +:+ baseName +:+ newline +:+ newline +:+
  "Rotated from previous log on " +:+ at_locale m +:+ newline +:+ newline.

(** [rotateLog] on the log [baseName ++ ext] of the log directory. *)
Definition rotateLog (m : Moment) (baseName ext : string) (d : LogDir) : LogDir :=
  if negb (log_existsSync (baseName +:+ ext) d) then d
  else
    match log_renameSync (baseName +:+ ext) (archiveName m baseName ext) d with
    | Throw _ => d
    | Ok d1 =>
        match log_writeFileSync (baseName +:+ ext) (rotationHeader m baseName)
                (at_ms m) d1 with
        | Throw _ => d1
        | Ok d2 => cleanupOldLogs baseName ext 10 d2
        end
    end.

Definition logSize (name : string) (d : LogDir) : Z :=
  match log_find name d with
  | Some f => Z.of_nat (String.length (log_content f))
  | None => 0
  end.

(** [writeToFile]: the error log or the core log is rotated when it is
    over the size limit, then the entry is appended. *)
Definition writeToFile (m : Moment) (level : Level) (message : string) (isError : bool)
    (d : LogDir) : LogDir :=
  let baseName := if isError then "ERROR_LOG" else "NINJA_CORE_LOG" in
  let logEntry := formatMarkdownLog m level message in
  let d1 := if log_existsSync (baseName +:+ ".md") d &&
               (MAX_LOG_SIZE <? logSize (baseName +:+ ".md") d)%Z
            then rotateLog m baseName ".md" d else d in
  match log_appendFileSync (baseName +:+ ".md") logEntry (at_ms m) d1 with
  | Ok d2 => d2
  | Throw _ => d1
  end.

(** [error]: the message goes to the error log and to the core log. *)
Definition error (m : Moment) (message : string) (d : LogDir) : LogDir :=
  writeToFile m ERROR message false (writeToFile m ERROR message true d).

(** What a recorded call of the logger writes at the moment [m]:
    [info] and [success] append to the core log, [error] to both logs.
    [stackOf] gives [error.stack] for an error's message. *)
Definition loggerWrites (stackOf : string → string) (m : Moment) (call : LogCall)
    (d : LogDir) : LogDir :=
  match call with
  | LogInfo message => writeToFile m INFO message false d
  | LogSuccess message => writeToFile m SUCCESS message false d
  | LogError message => error m message d
  | LogErrorStack e => error m (stackOf e) d
  end.

(** A journal written out, its calls one after the other from the
    [i]-th moment on. *)
Fixpoint journalWrites (stackOf : string → string) (moments : nat → Moment) (i : nat)
    (calls : list LogCall) (d : LogDir) : LogDir :=
  match calls with
  | [] => d
  | call :: rest =>
      journalWrites stackOf moments (S i) rest
        (loggerWrites stackOf (moments i) call d)
  end.

(** [content.split(/\n## /)]: [skip] characters of a separator just
    met are still to pass, [piece] is the piece being read. *)
Fixpoint split_entries (skip : nat) (piece : string) (content : string) : list string :=
  match content with
  | EmptyString => [piece]
  | String c rest =>
      match skip with
      | S skip' => split_entries skip' piece rest
      | O =>
          if String.prefix (newline +:+ "## ") content
          then piece :: split_entries 3 EmptyString rest
          else split_entries 0 (piece +:+ String c EmptyString) rest
      end
  end.

(** [list.slice(start)] *)
Definition slice_from {A} (start : Z) (l : list A) : list A :=
  if (start <? 0)%Z
  then drop (Z.to_nat (Z.max (Z.of_nat (length l) + start) 0)) l
  else drop (Z.to_nat start) l.

(** The entries [getRecentLogs] picks; [trim] is [String.prototype.trim]. *)
Definition recentLogs (trim : string → string) (count : Z) (content : string)
    : list string :=
  let entries := split_entries 0 EmptyString content in
  let logs := map (λ entry, "## " +:+ trim entry) (slice_from 1 entries) in
  rev (slice_from (- count) logs).

Definition getRecentLogs (trim : string → string) (count : Z) (d : LogDir) : string :=
  match log_find "NINJA_CORE_LOG.md" d with
  | None => "No logs available"
  | Some f =>
      if log_unreadable d then "Error retrieving logs"
      else
        match recentLogs trim count (log_content f) with
        | [] => "No recent logs"
        | logs => join_with (newline +:+ newline) logs
        end
  end.

Definition log_names (d : LogDir) : list string := map log_name (log_files d).

Definition archives (baseName ext : string) (d : LogDir) : list LogFile :=
  List.filter (is_archive baseName ext) (log_files d).

Definition sampleMoment : Moment :=
  {| at_ms := 5000; at_stamp := "2024-03-01T06-00-00";
     at_locale := "3/1/2024, 6:00:00 AM"; at_date := "3/1/2024";
     at_time := "6:00:00 AM" |}.

Definition sampleLogDir : LogDir :=
  {| log_files :=
       [ {| log_name := "NINJA_CORE_LOG.md"; log_mtime := 4000;
            log_content := "# NINJA CORE LOG" |};
         {| log_name := "NINJA_CORE_LOG_2024-01-01T00-00-00.md"; log_mtime := 1000;
            log_content := "january" |};
         {| log_name := "ERROR_LOG.md"; log_mtime := 3000;
            log_content := "# ERROR LOG" |};
         {| log_name := "NINJA_CORE_LOG_2024-02-01T00-00-00.md"; log_mtime := 2000;
            log_content := "february" |} ];
     log_readonly := false; log_unreadable := false |}.

(** What follows the separator in an entry of [formatMarkdownLog]. *)
Definition entryBody (m : Moment) (level : Level) (message : string) : string :=
  emojiOf level +:+ " " +:+ levelName level +:+ " - " +:+
  at_date m +:+ " " +:+ at_time m +:+ newline +:+ newline +:+
  "```" +:+ newline +:+ message +:+ newline +:+ "```" +:+ newline.

Definition logPathOf (isError : bool) : string :=
  (if isError then "ERROR_LOG" else "NINJA_CORE_LOG") +:+ ".md".

Definition logSizeOf (f : LogFile) : Z := Z.of_nat (String.length (log_content f)).

(* ===================================================================== *)
(** ** Running the monad *)
(* ===================================================================== *)

Section MonadSteps.
Context {A B : Type}.

Lemma bind_ok (m : M A) (k : A → M B) w w' a :
  m w = (w', Ok a) → bind m k w = k a w'.
Proof. unfold bind. by intros ->. Qed.

Lemma bind_throw (m : M A) (k : A → M B) w w' e :
  m w = (w', Throw e) → bind m k w = (w', Throw e).
Proof. unfold bind. by intros ->. Qed.

Lemma bind_lift_ok (a : A) (k : A → M B) w : bind (lift (Ok a)) k w = k a w.
Proof. reflexivity. Qed.

(** A handler that only rethrows leaves the body as it is. *)
Lemma try_catch_rethrow (m : M A) w : try_catch m (λ e, throw e) w = m w.
Proof. unfold try_catch, throw. by destruct (m w) as [w' [a|e]]. Qed.

(** A handler that returns makes the whole block return. *)
Lemma try_catch_returns (m : M A) (h : string → M unit) (d : A) w :
  (∀ e w1, ∃ w2, h e w1 = (w2, Ok ())) →
  ∃ w' a, try_catch m (λ e, _ <- h e ;; ret d) w = (w', Ok a).
Proof.
  intros Hh. unfold try_catch, bind, ret. destruct (m w) as [w' [a|e]]; [eauto|].
  destruct (Hh e w') as [w2 ->]. eauto.
Qed.
End MonadSteps.

Lemma log_requests_nil w : log_requests [] w = w.
Proof. destruct w. unfold log_requests. simpl. by rewrite app_nil_r. Qed.

Lemma log_lines_nil w : log_lines [] w = w.
Proof. destruct w. unfold log_lines. simpl. by rewrite app_nil_r. Qed.

Lemma tell_nil w : tell [] [] w = w.
Proof. unfold tell. by rewrite log_requests_nil, log_lines_nil. Qed.

Lemma tell_requests reqs w : tell reqs [] w = log_requests reqs w.
Proof. unfold tell. by rewrite log_lines_nil. Qed.

Lemma tell_lines calls w : tell [] calls w = log_lines calls w.
Proof. unfold tell. by rewrite log_requests_nil. Qed.

Lemma log_request_one req w : log_request req w = tell [req] [] w.
Proof. by rewrite tell_requests. Qed.

Lemma log_line_one call w : log_line call w = tell [] [call] w.
Proof. by rewrite tell_lines. Qed.

Lemma tell_tell reqs calls reqs' calls' w :
  tell reqs' calls' (tell reqs calls w) = tell (reqs ++ reqs') (calls ++ calls') w.
Proof. unfold tell, log_lines, log_requests. simpl. by rewrite !app_assoc. Qed.

Lemma log_requests_app reqs reqs' w :
  log_requests reqs' (log_requests reqs w) = log_requests (reqs ++ reqs') w.
Proof. unfold log_requests. simpl. by rewrite app_assoc. Qed.

Lemma log_lines_app calls calls' w :
  log_lines calls' (log_lines calls w) = log_lines (calls ++ calls') w.
Proof. unfold log_lines. simpl. by rewrite app_assoc. Qed.

(** Requests and logger calls are recorded apart. *)
Lemma log_lines_requests calls reqs w :
  log_lines calls (log_requests reqs w) = log_requests reqs (log_lines calls w).
Proof. reflexivity. Qed.

(* ===================================================================== *)
(** ** JSON facts *)
(* ===================================================================== *)

Lemma jsonify_fixes_json v : is_json v = true → jsonify v = v.
Proof.
  induction v using value_nested_ind; simpl; try done.
  - intros Hall. f_equal.
    induction H as [|x xs Hx _ IH]; simpl in *; [done|].
    apply andb_prop in Hall as [Hj Hjs].
    rewrite IH by done. destruct x; simpl in *; try done; by rewrite Hx.
  - intros Hall. f_equal.
    induction H as [|[k x] fs Hx _ IH]; simpl in *; [done|].
    apply andb_prop in Hall as [Hj Hjs].
    rewrite IH by done. destruct x; simpl in *; try done; by rewrite Hx.
Qed.

Lemma lookup_field_json k fields :
  is_json (VObj fields) = true →
  lookup_field k fields = VUndef ∨ is_json (lookup_field k fields) = true.
Proof.
  induction fields as [|[k' x] fs IH]; simpl; [by left|].
  intros [Hx Hfs]%andb_prop. destruct (String.eqb k k'); [by right | by apply IH].
Qed.

(** A property read off a JSON document is [undefined] or JSON. *)
Lemma get_json k doc :
  is_json doc = true → get k doc = VUndef ∨ is_json (get k doc) = true.
Proof.
  destruct doc; simpl; try by left.
  - destruct (String.eqb k "length"); [by right | by left].
  - destruct (String.eqb k "length"); [by right | by left].
  - apply lookup_field_json.
Qed.

(** What is written for an array of tasks. *)
Lemma jsonify_indexDoc g tasks total :
  total = VNum (Z.of_nat (length tasks)) →
  jsonify (VObj [("generatedAt", VStr g); ("totalTasks", total); ("tasks", VArr tasks)])
  = indexDoc g (jsonItems tasks).
Proof. intros ->. unfold indexDoc, jsonItems. simpl. by rewrite length_map. Qed.

(* ===================================================================== *)
(** ** The helpers of the pass, one by one *)
(* ===================================================================== *)

(** Loading always answers, and changes nothing but the journal: an
    error met on the way is logged. *)
Lemma getExistingTasks_run w :
  getExistingTasks w = (log_lines (loadLines (disk w)) w, Ok (loadedTasks (disk w))).
Proof.
  unfold getExistingTasks, loadedTasks, loadLines, loadFailure, try_catch, bind,
    fs_existsSync, fs_readFileSync, lift, ret, prop, logger_error.
  destruct (index_file (disk w)) as [[|doc]|] eqn:Hfile; simpl;
    rewrite ?Hfile.
  - destruct (read_error (disk w)); simpl; by rewrite log_line_one, tell_lines.
  - destruct (read_error (disk w)); simpl; [by rewrite log_line_one, tell_lines|].
    destruct (nullish doc); simpl;
      [by rewrite log_line_one, tell_lines | by rewrite log_lines_nil].
  - by rewrite log_lines_nil.
Qed.

(** On a disk whose index can be loaded, loading changes nothing. *)
Lemma getExistingTasks_quiet w :
  loadFailure (disk w) = None →
  getExistingTasks w = (w, Ok (loadedTasks (disk w))).
Proof.
  intros Hquiet. rewrite getExistingTasks_run. unfold loadLines.
  by rewrite Hquiet, log_lines_nil.
Qed.

Lemma assign_not_nullish k x v v' : assign k x v = Ok v' → nullish v' = false.
Proof. destruct v; simpl; intros [= <-]; done. Qed.

Lemma taggedTask_ok_iff file r :
  call_fails r = false ↔ ∃ task, taggedTask file r = Ok task.
Proof.
  destruct r as [data|msg]; simpl.
  - destruct data; simpl; split; try done; eauto; by intros [t ?].
  - split; [done | by intros [t ?]].
Qed.

Lemma createTask_run file listId creds w :
  createTask file listId creds w =
  (tell [PostTask listId (taskNameOf file) file creds]
        (callLines false file (service w (length (requests w)))) w,
   taggedTask file (service w (length (requests w)))).
Proof.
  unfold createTask, try_catch, bind, axios, lift, ret, throw, taggedTask, callLines,
    logger_info, logger_error.
  destruct (service w (length (requests w))) as [data|msg]; simpl.
  - destruct (assign _ _ data); simpl;
      rewrite log_request_one, !log_line_one, !tell_tell; done.
  - by rewrite log_request_one, log_line_one, tell_tell.
Qed.

Lemma updateTask_run taskId file creds w :
  updateTask taskId file creds w =
  (tell [PutTask taskId (taskNameOf file) file creds]
        (callLines true file (service w (length (requests w)))) w,
   taggedTask file (service w (length (requests w)))).
Proof.
  unfold updateTask, try_catch, bind, axios, lift, ret, throw, taggedTask, callLines,
    logger_info, logger_error.
  destruct (service w (length (requests w))) as [data|msg]; simpl.
  - destruct (assign _ _ data); simpl;
      rewrite log_request_one, !log_line_one, !tell_tell; done.
  - by rewrite log_request_one, log_line_one, tell_tell.
Qed.

Lemma truthy_not_nullish v : truthy v = true → nullish v = false.
Proof. by destruct v. Qed.

(** What the lookup gives decides between update and creation. *)
Lemma existingId_cases m file :
  match existingId m file with
  | Some taskId =>
      member_truthy (dict_get (file_id file) m) = true ∧
      member_id (dict_get (file_id file) m) = Ok taskId
  | None => member_truthy (dict_get (file_id file) m) = false
  end.
Proof.
  unfold existingId. destruct (dict_get (file_id file) m) as [existing|]; simpl.
  - destruct (truthy existing) eqn:Htruthy; [|done].
    split; [done|]. unfold prop. by rewrite (truthy_not_nullish _ Htruthy).
  - done.
Qed.

(** One file: exactly one request, and a record unless the call fails. *)
Lemma mirrorFile_run m mainList creds file w :
  nullish mainList = false →
  mirrorFile m mainList creds file w =
  (tell [taskRequest m mainList creds file]
        (callLines (if existingId m file is Some _ then true else false) file
           (service w (length (requests w)))) w,
   match taggedTask file (service w (length (requests w))) with
   | Ok task => Ok (resultRecord m file task)
   | Throw e => Throw e
   end).
Proof.
  intros Hlist. unfold mirrorFile, taskRequest, resultRecord.
  pose proof (existingId_cases m file) as Hcases.
  destruct (existingId m file) as [taskId|].
  - destruct Hcases as [-> ->]. rewrite bind_lift_ok.
    unfold bind at 1. rewrite updateTask_run.
    by destruct (taggedTask _ _).
  - rewrite Hcases. unfold prop at 1. rewrite Hlist, bind_lift_ok.
    unfold bind at 1. rewrite createTask_run.
    destruct (taggedTask _ _) as [task|e] eqn:Htag; [|done].
    unfold prop. destruct (service w (length (requests w))) as [data|msg]; [|done].
    simpl in Htag. by rewrite (assign_not_nullish _ _ _ _ Htag).
Qed.

(** The loop: one request per file, in the order of the files, and the
    records of the calls that did not fail. *)
Lemma mirrorFiles_run m mainList creds files : ∀ results w,
  nullish mainList = false →
  mirrorFiles m mainList creds files results w =
  (tell (map (taskRequest m mainList creds) files)
        (passLines m files (length (requests w)) (service w)) w,
   Ok (results ++ passResults m files (length (requests w)) (service w))).
Proof.
  induction files as [|file rest IH]; intros results w Hlist; simpl.
  - by rewrite tell_nil, app_nil_r.
  - unfold bind at 1, try_catch, bind at 1.
    rewrite mirrorFile_run by done. unfold fileLines.
    destruct (taggedTask file _) as [task|e]; simpl ret.
    + unfold ret at 1. rewrite IH by done. simpl.
      rewrite tell_tell, length_app. simpl.
      by rewrite Nat.add_1_r, <- app_assoc, app_nil_r.
    + unfold bind, logger_error, ret. rewrite IH by done. simpl.
      rewrite log_line_one, !tell_tell, length_app. simpl.
      by rewrite Nat.add_1_r, <- !app_assoc.
Qed.

Section Closure.
Context {A B : Type}.

Lemma logs_only_still (m : M A) : (∀ w, (m w).1 = w) → logs_only m.
Proof. intros Hm w. exists [], []. by rewrite Hm, tell_nil. Qed.

Lemma logs_only_ret (a : A) : logs_only (ret a).
Proof. by apply logs_only_still. Qed.

Lemma logs_only_throw e : logs_only (@throw A e).
Proof. by apply logs_only_still. Qed.

Lemma logs_only_lift (r : Res A) : logs_only (lift r).
Proof. by apply logs_only_still. Qed.

Lemma logs_only_bind (m : M A) (k : A → M B) :
  logs_only m → (∀ a, logs_only (k a)) → logs_only (bind m k).
Proof.
  intros Hm Hk w. unfold bind. destruct (Hm w) as (reqs & calls & Hreqs).
  destruct (m w) as [w1 [a|e]]; simpl in *; subst w1; [|eauto].
  destruct (Hk a (tell reqs calls w)) as (reqs' & calls' & ->).
  exists (reqs ++ reqs'), (calls ++ calls'). by rewrite tell_tell.
Qed.

Lemma logs_only_try_catch (m : M A) (h : string → M A) :
  logs_only m → (∀ e, logs_only (h e)) → logs_only (try_catch m h).
Proof.
  intros Hm Hh w. unfold try_catch. destruct (Hm w) as (reqs & calls & Hreqs).
  destruct (m w) as [w1 [a|e]]; simpl in *; subst w1; [eauto|].
  destruct (Hh e (tell reqs calls w)) as (reqs' & calls' & ->).
  exists (reqs ++ reqs'), (calls ++ calls'). by rewrite tell_tell.
Qed.

Lemma logs_only_if (b : bool) (m1 m2 : M A) :
  logs_only m1 → logs_only m2 → logs_only (if b then m1 else m2).
Proof. by destruct b. Qed.

Lemma yields_bind (P : B → Prop) (m : M A) (k : A → M B) :
  (∀ a, yields P (k a)) → yields P (bind m k).
Proof.
  intros Hk w w' b. unfold bind.
  destruct (m w) as [w1 [a|e]]; [apply Hk | done].
Qed.

(** A handler that throws again adds no result. *)
Lemma yields_try_rethrow (P : A → Prop) (m : M A) (h : string → M unit) :
  yields P m → yields P (try_catch m (λ e, _ <- h e ;; throw e)).
Proof.
  intros Hm w w' a. unfold try_catch, bind, throw.
  destruct (m w) as [w1 [a1|e]] eqn:Hrun; [intros [= <- <-]; by eapply Hm|].
  by destruct (h e w1) as [w2 [[]|e2]].
Qed.
End Closure.

Lemma logs_only_axios req : logs_only (axios req).
Proof.
  intros w. exists [req], []. unfold axios. rewrite log_request_one.
  by destruct (service w (length (requests w))).
Qed.

Lemma logs_only_logger_info message : logs_only (logger_info message).
Proof. intros w. exists [], [LogInfo message]. apply log_line_one. Qed.

Lemma logs_only_logger_error message : logs_only (logger_error message).
Proof. intros w. exists [], [LogError message]. apply log_line_one. Qed.

Create HintDb logs discriminated.
#[local] Hint Resolve logs_only_ret logs_only_throw logs_only_lift
  logs_only_axios logs_only_logger_info logs_only_logger_error : logs.
#[local] Hint Extern 2 (logs_only (bind _ _)) =>
  apply logs_only_bind; [|intros ?] : logs.
#[local] Hint Extern 2 (logs_only (try_catch _ _)) =>
  apply logs_only_try_catch; [|intros ?] : logs.
#[local] Hint Extern 2 (logs_only (if _ then _ else _)) =>
  apply logs_only_if : logs.
#[local] Hint Extern 3 (logs_only (logCreated _ _)) =>
  unfold logCreated : logs.

(** Resolving the destination list only sends requests and logs. *)
Lemma getOrCreateMainList_logs_only creds : logs_only (getOrCreateMainList creds).
Proof. unfold getOrCreateMainList. auto 60 with logs. Qed.

(** A container that was found or created can be asked for its [id]:
    it is never [null] or [undefined]. *)
Lemma found_or_created_not_nullish found (req : Request) what :
  yields (λ v, nullish v = false)
    (container <-
       (if negb (truthy found) then
          created <- axios req ;;
          _ <- logCreated what created ;;
          ret created
        else ret found) ;;
     ret container).
Proof.
  intros w w' v. unfold bind, ret, lift, axios, logCreated.
  destruct (truthy found) eqn:Hfound; simpl.
  - intros [= _ <-]. by apply truthy_not_nullish.
  - destruct (service w (length (requests w))) as [data|msg]; [|done].
    unfold bind, lift, prop. destruct (nullish data) eqn:Hdata; [done|].
    unfold logger_info. by intros [= _ <-].
Qed.

Lemma getOrCreateMainList_not_nullish creds :
  yields (λ v, nullish v = false) (getOrCreateMainList creds).
Proof.
  unfold getOrCreateMainList. apply yields_try_rethrow.
  do 13 (apply yields_bind; intros ?).
  apply found_or_created_not_nullish.
Qed.

(** What a successful prelude tells about the world it started in. *)
Lemma passPrelude_ok w w2 creds m mainList :
  passPrelude w = (w2, Ok (creds, m, mainList)) →
  credentials_clickup w = Some creds ∧
  valid_credentials w = true ∧
  createTaskMap (loadedTasks (disk w)) = Ok m ∧
  getOrCreateMainList creds (started w) = (w2, Ok mainList) ∧
  nullish mainList = false ∧
  ∃ reqs calls, w2 = tell reqs calls w.
Proof.
  unfold passPrelude, valid_credentials, bind at 1, logger_info.
  unfold bind at 1, getClickUpCredentials. cbn [credentials_clickup log_line].
  destruct (credentials_clickup w) as [[key ws]|]; [|done]. simpl.
  destruct (present key); [|done]. destruct (present ws); [|done]. simpl.
  unfold bind at 1. rewrite getExistingTasks_run. cbn [disk log_line].
  unfold bind at 1, lift.
  destruct (createTaskMap (loadedTasks (disk w))) as [m0|e] eqn:Hmap; [|done].
  unfold bind, ret.
  rewrite log_line_one, <- tell_lines, tell_tell. cbn [app].
  rewrite tell_lines. fold (started w).
  destruct (getOrCreateMainList _ (started w)) as [w' [l|e]] eqn:Hlist; [|done].
  intros [= <- <- <- <-].
  repeat split; try done.
  - by eapply getOrCreateMainList_not_nullish.
  - destruct (getOrCreateMainList_logs_only {| apiKey := key; workspaceId := ws |}
                (started w)) as (reqs & calls & Hreqs).
    rewrite Hlist in Hreqs. simpl in Hreqs. eexists reqs, _.
    rewrite Hreqs. unfold started. by rewrite <- tell_lines, tell_tell.
Qed.

(** The pass is its prelude followed by its body. *)
Lemma mirrorPass_split files w :
  mirrorPass files w = bind passPrelude (passBody files) w.
Proof.
  unfold mirrorPass, passPrelude, passBody, bind, throw, ret.
  destruct (logger_info _ w) as [w0 [[]|e]]; [|done].
  destruct (getClickUpCredentials w0) as [w1 [c|e]]; [|done].
  destruct (negb (present (apiKey c)) || negb (present (workspaceId c))); [done|].
  destruct (getExistingTasks w1) as [w2 [tasks|e]]; [|done].
  destruct (lift (createTaskMap tasks) w2) as [w3 [m|e]]; [|done].
  by destruct (getOrCreateMainList c w3) as [w4 [l|e]].
Qed.

Lemma JSON_stringify_index g ts :
  JSON_stringify (VObj [("generatedAt", VStr g);
                        ("totalTasks", VNum (Z.of_nat (length ts)));
                        ("tasks", VArr ts)])
  = Encodes (indexDoc g (jsonItems ts)).
Proof. unfold JSON_stringify. f_equal. by apply jsonify_indexDoc. Qed.

(** Saving an array when the disk takes the write. *)
Lemma saveTaskIndex_written ts w :
  can_write (disk w) = true →
  saveTaskIndex (VArr ts) w =
  (log_line (savedLine w)
     (set_disk (written (Encodes (indexDoc (now w) (jsonItems ts))) (disk w)) w),
   Ok (Some TASK_INDEX_PATH)).
Proof.
  unfold can_write, saveTaskIndex, try_catch, bind, fs_existsSync, fs_mkdirSync,
    toISOString_now, lift, prop, ret, fs_writeFileSync, written, indexPath_text,
    logger_info, logger_error, savedLine.
  simpl nullish. cbv iota.
  destruct w as [c [dir f re me we] svc reqs t cache sync lines path]; simpl disk.
  cbn [vault_dir_exists index_file read_error mkdir_error write_error].
  destruct we, dir, me; cbn -[JSON_stringify indexDoc jsonItems]; try done;
    intros _; by rewrite JSON_stringify_index.
Qed.

(** Saving an array when the disk refuses: the error is logged, [null]
    comes back, the index file is what it was. *)
Lemma saveTaskIndex_refused ts w :
  can_write (disk w) = false →
  ∃ d e, saveTaskIndex (VArr ts) w
         = (log_line (LogError ("Failed to save task index: " +:+ e)) (set_disk d w),
            Ok None) ∧
         index_file d = index_file (disk w).
Proof.
  unfold can_write, saveTaskIndex, try_catch, bind, fs_existsSync, fs_mkdirSync,
    toISOString_now, lift, prop, ret, fs_writeFileSync, indexPath_text,
    logger_info, logger_error.
  simpl nullish. cbv iota.
  destruct w as [c [dir f re me we] svc reqs t cache sync lines path]; simpl disk.
  cbn [vault_dir_exists index_file read_error mkdir_error write_error].
  destruct dir, me, we; simpl; try done; intros _;
    eexists _, _; split; try reflexivity; done.
Qed.

(* ===================================================================== *)
(** ** The pass as a whole *)
(* ===================================================================== *)

(** After a prelude that went through, the pass returns the records of
    the calls that did not fail, whatever the disk does with the index;
    it records their number and the time, and logs every call, the
    save and its end. *)
Lemma mirrorPass_after_prelude files w w2 creds m mainList :
  passPrelude w = (w2, Ok (creds, m, mainList)) →
  let results := passResults m files (length (requests w2)) (service w) in
  ∃ w' saved,
    mirrorPass files w = (w', Ok results) ∧
    requests w' = requests w2 ++ map (taskRequest m mainList creds) files ∧
    (can_write (disk w) = true →
     disk w' = written (Encodes (indexDoc (now w) (jsonItems results))) (disk w) ∧
     saved = savedLine w) ∧
    (can_write (disk w) = false →
     index_file (disk w') = index_file (disk w) ∧
     ∃ e, saved = LogError ("Failed to save task index: " +:+ e)) ∧
    taskCountCache w' = Some (length results) ∧
    lastSyncTime w' = Some (now w) ∧
    journal w' = journal w2 ++ passLines m files (length (requests w2)) (service w)
                 ++ [saved; completeLine (length results)].
Proof.
  intros Hpre results.
  destruct (passPrelude_ok _ _ _ _ _ Hpre)
    as (_ & _ & _ & _ & Hlist & reqs & calls & ->).
  rewrite mirrorPass_split.
  rewrite (bind_ok _ _ _ _ _ Hpre). unfold passBody, bind at 1.
  rewrite mirrorFiles_run by done. cbn [app].
  change (service (tell reqs calls w)) with (service w). fold results.
  set (w3 := tell _ _ (tell reqs calls w)).
  unfold bind, ret, rememberSync, logger_success.
  destruct (can_write (disk w)) eqn:Hcan.
  - rewrite (saveTaskIndex_written results w3 Hcan).
    eexists _, _. split; [done|]. simpl.
    split; [done|]. split; [done|]. split; [done|]. split; [done|]. split; [done|].
    by rewrite <- !app_assoc.
  - destruct (saveTaskIndex_refused results w3 Hcan) as (d & e & -> & Hd).
    eexists _, _. split; [done|]. simpl.
    split; [done|]. split; [done|]. split; [eauto|]. split; [done|]. split; [done|].
    by rewrite <- !app_assoc.
Qed.

Lemma mirror_after_prelude files w w2 creds m mainList :
  passPrelude w = (w2, Ok (creds, m, mainList)) →
  let results := passResults m files (length (requests w2)) (service w) in
  ∃ w' saved,
    mirrorFilesToClickUp files w = (w', Ok results) ∧
    requests w' = requests w2 ++ map (taskRequest m mainList creds) files ∧
    (can_write (disk w) = true →
     disk w' = written (Encodes (indexDoc (now w) (jsonItems results))) (disk w) ∧
     saved = savedLine w) ∧
    (can_write (disk w) = false →
     index_file (disk w') = index_file (disk w) ∧
     ∃ e, saved = LogError ("Failed to save task index: " +:+ e)) ∧
    taskCountCache w' = Some (length results) ∧
    lastSyncTime w' = Some (now w) ∧
    journal w' = journal w2 ++ passLines m files (length (requests w2)) (service w)
                 ++ [saved; completeLine (length results)].
Proof.
  intros Hpre results.
  destruct (mirrorPass_after_prelude files _ _ _ _ _ Hpre)
    as (w' & saved & Hrun & Hrest).
  exists w', saved. split; [|exact Hrest].
  unfold mirrorFilesToClickUp, try_catch. by rewrite Hrun.
Qed.

(** The pass throws only before its loop. *)
Lemma mirrorPass_throws_in_prelude files w w' e :
  mirrorPass files w = (w', Throw e) → passPrelude w = (w', Throw e).
Proof.
  intros Hpass.
  destruct (passPrelude w) as [w2 [[[creds m] mainList]|e2]] eqn:Hpre.
  - destruct (mirrorPass_after_prelude files _ _ _ _ _ Hpre) as (w3 & saved & Hrun & _).
    congruence.
  - rewrite mirrorPass_split, (bind_throw _ _ _ _ _ Hpre) in Hpass. congruence.
Qed.

(** After a prelude that threw, the pass logs the error and answers
    [[]] from the world the prelude left. *)
Lemma mirror_after_failed_prelude files w w2 e :
  passPrelude w = (w2, Throw e) →
  mirrorFilesToClickUp files w
  = (log_lines [LogError ("ClickUp mirroring failed: " +:+ e); LogErrorStack e] w2,
     Ok []).
Proof.
  intros Hpre. unfold mirrorFilesToClickUp, try_catch.
  rewrite mirrorPass_split. rewrite (bind_throw _ _ _ _ _ Hpre).
  unfold bind, logger_error, logger_error_stack, ret.
  by rewrite !log_line_one, tell_tell, tell_lines.
Qed.

(** *** The records of a loop *)

Lemma resultRecord_fileId m file task :
  get "fileId" (resultRecord m file task) = VStr (file_id file).
Proof. unfold resultRecord. by destruct (existingId m file). Qed.

Lemma resultRecord_action m file task :
  get "action" (resultRecord m file task) =
  VStr (if existingId m file is Some _ then "updated" else "created").
Proof. unfold resultRecord. by destruct (existingId m file). Qed.

(** Written to the index and read back, a record keeps its file id,
    and it has no [id] of its own. *)
Lemma resultRecord_persisted m file task :
  get "fileId" (jsonify (resultRecord m file task)) = VStr (file_id file) ∧
  get "id" (jsonify (resultRecord m file task)) = VUndef.
Proof.
  unfold resultRecord.
  destruct (existingId m file) as [taskId|];
    [destruct taskId | destruct (get "id" task)];
    destruct task; done.
Qed.

Lemma passResults_records m files : ∀ n svc,
  Forall (λ r, ∃ file task, r = resultRecord m file task)
         (passResults m files n svc).
Proof.
  induction files as [|file rest IH]; intros n svc; simpl; [done|].
  destruct (taggedTask file (svc n)); simpl; [|done].
  constructor; eauto.
Qed.

Lemma passResults_persisted_fileIds m files n svc :
  map (get "fileId") (jsonItems (passResults m files n svc))
  = map (get "fileId") (passResults m files n svc).
Proof.
  unfold jsonItems.
  induction (passResults_records m files n svc) as [|r rs (file & task & ->) _ IH];
    simpl; [done|].
  rewrite IH. f_equal.
  replace (if resultRecord m file task is VUndef then VNull
           else jsonify (resultRecord m file task))
    with (jsonify (resultRecord m file task))
    by (unfold resultRecord; by destruct (existingId m file)).
  rewrite resultRecord_fileId. apply resultRecord_persisted.
Qed.

(** The file ids of the records are those of the files, some dropped. *)
Lemma passResults_fileIds_sublist m files : ∀ n svc,
  sublist (map (get "fileId") (passResults m files n svc))
          (map (λ file, VStr (file_id file)) files).
Proof.
  induction files as [|file rest IH]; intros n svc; simpl; [done|].
  destruct (taggedTask file (svc n)); simpl.
  - rewrite resultRecord_fileId. by apply sublist_skip.
  - by apply sublist_cons.
Qed.

(** When no call fails there is a record for every file. *)
Lemma passResults_all_ok m files : ∀ n svc,
  (∀ i, (i < length files)%nat → call_fails (svc (n + i)%nat) = false) →
  map (get "fileId") (passResults m files n svc)
  = map (λ file, VStr (file_id file)) files.
Proof.
  induction files as [|file rest IH]; intros n svc Hok; simpl; [done|].
  destruct (proj1 (taggedTask_ok_iff file (svc n))) as [task ->].
  { rewrite <- (Nat.add_0_r n). apply Hok. simpl. lia. }
  simpl. rewrite resultRecord_fileId. f_equal. apply IH.
  intros i Hi. replace (S n + i)%nat with (n + S i)%nat by lia.
  apply Hok. simpl. lia.
Qed.

(** When exactly the [k]-th call fails, exactly the [k]-th file has no
    record. *)
Lemma passResults_one_failure m files : ∀ k n svc,
  (k < length files)%nat →
  (∀ i, (i < length files)%nat → call_fails (svc (n + i)%nat) = true ↔ i = k) →
  map (get "fileId") (passResults m files n svc)
  = map (λ file, VStr (file_id file)) (delete k files).
Proof.
  induction files as [|file rest IH]; intros k n svc Hk Hone; simpl in *; [lia|].
  destruct k as [|k].
  - assert (call_fails (svc n) = true) as Hfail.
    { rewrite <- (Nat.add_0_r n). apply Hone; [lia | done]. }
    destruct (taggedTask file (svc n)) as [task|e] eqn:Htag.
    { assert (call_fails (svc n) = false)
        by (apply (taggedTask_ok_iff file); eauto).
      congruence. }
    simpl. apply passResults_all_ok. intros i Hi.
    replace (S n + i)%nat with (n + S i)%nat by lia.
    apply not_true_is_false. intros Hf. apply Hone in Hf; [done | lia].
  - destruct (proj1 (taggedTask_ok_iff file (svc n))) as [task ->].
    { apply not_true_is_false. rewrite <- (Nat.add_0_r n).
      intros Hf. apply Hone in Hf; [done | lia]. }
    simpl. rewrite resultRecord_fileId. f_equal. apply IH; [lia|].
    intros i Hi. replace (S n + i)%nat with (n + S i)%nat by lia.
    rewrite Hone by lia. lia.
Qed.

(* ===================================================================== *)
(** ** Interval to schedule *)
(* ===================================================================== *)

Lemma round_half_even_bounds n d :
  0 ≤ n → 0 < d → n / d ≤ round_half_even n d ≤ n / d + 1.
Proof.
  intros Hn Hd. unfold round_half_even.
  destruct (2 * (n mod d) <? d); [lia|].
  destruct (d <? 2 * (n mod d)); [lia|].
  destruct (Z.even (n / d)); lia.
Qed.

(** The binary exponent [floor_of_quotient] picks is that of the
    quotient. *)
Lemma quotient_exponent a b :
  0 < b → b ≤ a →
  let k := Z.log2 a - Z.log2 b in
  let L := if b * 2 ^ k <=? a then k else k - 1 in
  0 ≤ L ∧ b * 2 ^ L ≤ a < b * 2 ^ (L + 1).
Proof.
  intros Hb Hab k L.
  assert (Ha : 0 < a) by lia.
  destruct (Z.log2_spec a Ha) as [Ha1 Ha2].
  destruct (Z.log2_spec b Hb) as [Hb1 Hb2].
  assert (Hk : 0 ≤ k) by (unfold k; pose proof (Z.log2_le_mono b a Hab); lia).
  assert (Hlb : 0 ≤ Z.log2 b) by apply Z.log2_nonneg.
  assert (Hpa : 2 ^ Z.log2 a = 2 ^ Z.log2 b * 2 ^ k).
  { rewrite <- Z.pow_add_r by lia. f_equal. unfold k. lia. }
  subst L. destruct (Z.leb_spec (b * 2 ^ k) a) as [Hle|Hgt].
  - split; [lia|]. split; [lia|].
    rewrite Z.pow_add_r by lia. rewrite Z.pow_succ_r in Ha2 by apply Z.log2_nonneg.
    assert (0 < 2 ^ k) by (apply Z.pow_pos_nonneg; lia). nia.
  - assert (Hk1 : 1 ≤ k).
    { destruct (Z.eq_dec k 0) as [Hz|]; [|lia]. rewrite Hz in Hgt. simpl in Hgt. lia. }
    split; [lia|]. replace (k - 1 + 1) with k by lia. split; [|lia].
    assert (Hpk : 2 ^ k = 2 * 2 ^ (k - 1)).
    { rewrite <- Z.pow_succ_r by lia. f_equal. lia. }
    rewrite Z.pow_succ_r in Hb2 by lia.
    assert (0 < 2 ^ (k - 1)) by (apply Z.pow_pos_nonneg; lia). nia.
Qed.

(** Rounding never takes the floor of a quotient below an integer of
    at most 53 bits that the quotient reaches. *)
Lemma floor_of_quotient_lower a b c :
  0 < b → 0 ≤ c ≤ 2 ^ 52 → c * b ≤ a → c ≤ floor_of_quotient a b.
Proof.
  intros Hb Hc Hcb. unfold floor_of_quotient.
  destruct (Z.ltb_spec a b) as [Hlt|Hge]; [nia|].
  destruct (quotient_exponent a b Hb Hge) as (HL & Hlow & _).
  set (L := if b * 2 ^ (Z.log2 a - Z.log2 b) <=? a
            then Z.log2 a - Z.log2 b else Z.log2 a - Z.log2 b - 1) in *.
  destruct (Z.leb_spec 0 (L - 52)) as [He|He].
  - assert (Hpe : 0 < 2 ^ (L - 52)) by (apply Z.pow_pos_nonneg; lia).
    assert (Hsplit : 2 ^ L = 2 ^ (L - 52) * 2 ^ 52).
    { rewrite <- Z.pow_add_r by lia. f_equal. lia. }
    assert (Hm : 2 ^ 52 ≤ a / (b * 2 ^ (L - 52))).
    { apply Z.div_le_lower_bound; nia. }
    pose proof (round_half_even_bounds a (b * 2 ^ (L - 52))). nia.
  - replace (- (L - 52)) with (52 - L) by lia.
    assert (Hps : 0 < 2 ^ (52 - L)) by (apply Z.pow_pos_nonneg; lia).
    assert (Hm : c * 2 ^ (52 - L) ≤ a * 2 ^ (52 - L) / b).
    { apply Z.div_le_lower_bound; nia. }
    pose proof (round_half_even_bounds (a * 2 ^ (52 - L)) b).
    apply Z.div_le_lower_bound; nia.
Qed.

(** Below [2^53] the rounding does not show: the floor of the rounded
    quotient is the integer quotient. *)
Lemma floor_of_quotient_exact a b :
  0 ≤ a < 2 ^ 53 → 2 ≤ b → floor_of_quotient a b = a / b.
Proof.
  intros Ha Hb. unfold floor_of_quotient.
  destruct (Z.ltb_spec a b) as [Hlt|Hge]; [by rewrite Z.div_small by lia|].
  destruct (quotient_exponent a b ltac:(lia) Hge) as (HL & Hlow & Hup).
  set (L := if b * 2 ^ (Z.log2 a - Z.log2 b) <=? a
            then Z.log2 a - Z.log2 b else Z.log2 a - Z.log2 b - 1) in *.
  assert (HL51 : L ≤ 51).
  { destruct (Z.le_gt_cases L 51) as [|Hbig]; [done|]. exfalso.
    assert (2 ^ 52 ≤ 2 ^ L) by (apply Z.pow_le_mono_r; lia).
    change (2 ^ 53) with (2 * 2 ^ 52) in Ha. nia. }
  destruct (Z.leb_spec 0 (L - 52)) as [He|_]; [lia|].
  replace (- (L - 52)) with (52 - L) by lia.
  set (s := 52 - L). set (P := 2 ^ s).
  assert (HP : 0 < P) by (apply Z.pow_pos_nonneg; lia).
  assert (HbP : b < 2 * P).
  { assert (Hpow : 2 ^ 53 = 2 * P * 2 ^ L).
    { unfold P, s. rewrite <- Z.pow_succ_r, <- Z.pow_add_r by lia. f_equal. lia. }
    assert (0 < 2 ^ L) by (apply Z.pow_pos_nonneg; lia). nia. }
  pose proof (Z.div_mod a b ltac:(lia)) as Hdiv.
  pose proof (Z.mod_pos_bound a b ltac:(lia)) as Hmod.
  pose proof (Z.div_mod (a * P) b ltac:(lia)) as HdivP.
  pose proof (Z.mod_pos_bound (a * P) b ltac:(lia)) as HmodP.
  set (q0 := a / b) in *. set (r := a mod b) in *.
  set (Q := a * P / b) in *. set (R := (a * P) mod b) in *.
  assert (HQlow : q0 * P ≤ Q) by nia.
  assert (HQup : Q < (q0 + 1) * P) by nia.
  assert (Hround : q0 * P ≤ round_half_even (a * P) b < (q0 + 1) * P).
  { unfold round_half_even. fold Q R.
    destruct (Z.ltb_spec (2 * R) b); [lia|].
    assert (Q + 1 < (q0 + 1) * P).
    { destruct (Z.eq_dec (Q + 1) ((q0 + 1) * P)) as [Heq|]; [|lia]. exfalso. nia. }
    destruct (b <? 2 * R); [lia|]. destruct (Z.even Q); lia. }
  symmetry. apply (Z.div_unique _ _ q0 (round_half_even (a * P) b - q0 * P)); lia.
Qed.

Lemma hours_below_a_day minutes :
  0 ≤ minutes → (minutes `div` 60 <? 24) = (minutes <? 1440).
Proof.
  intros Hpos. destruct (Z.ltb_spec minutes 1440) as [Hlt|Hge].
  - apply Z.ltb_lt. apply Z.div_lt_upper_bound; lia.
  - apply Z.ltb_ge. apply Z.div_le_lower_bound; lia.
Qed.

(** What the code answers for an interval of [10^22] minutes: the
    hours and the days are the rounded quotients, and the days are
    printed with the digits that tell the double apart. *)
Lemma convertMinutesToCron_beyond_exact_integers :
  convertMinutesToCron (10 ^ 22) = Ok "40 8 */6944444444444444000 * *" ∧
  scheduleOfMinutes (10 ^ 22)
  = Some (EveryDaysAt 6944444444444444444 10 40).
Proof. split; vm_compute; reflexivity. Qed.

(** C9. For every integer [minutes] that a number holds,
    [convertMinutesToCron] throws when [minutes < 1] and otherwise
    returns the cron text of a schedule as the interface description
    has it.  Below [2^53], where every integer is a number, it is the
    schedule of exact arithmetic: every X minutes below 60, every
    floor(minutes/60) hours at minute minutes mod 60 below 1440, and
    daily or every N days at an hour and minute offset from 1440 on.
    From [2^53] on it is an every-N-days schedule at an hour offset
    below 24 and at minute minutes mod 60, the days and the hour being
    what the rounded quotients give. *)
Theorem convertMinutesToCron_matches_schedule (minutes : Z) :
  (minutes < 2 ^ 53 →
   convertMinutesToCron minutes =
   match scheduleOfMinutes minutes with
   | None => Throw "Minutes must be at least 1"
   | Some s => Ok (cronOf s)
   end) ∧
  (2 ^ 53 ≤ minutes →
   ∃ days hour,
     1 < days ∧ 0 ≤ hour < 24 ∧
     convertMinutesToCron minutes
     = Ok (cronOf (EveryDaysAt days hour (minutes `mod` 60)))).
Proof.
  split.
  - intros Hsafe. unfold convertMinutesToCron, scheduleOfMinutes.
    destruct (Z.ltb_spec minutes 1) as [|Hmin]; [done|].
    destruct (Z.ltb_spec minutes 60) as [|Hhour]; [done|].
    rewrite (floor_of_quotient_exact minutes 60) by lia.
    assert (Hhours : 0 ≤ minutes `div` 60 < 2 ^ 53).
    { split; [apply Z.div_pos; lia|].
      apply Z.div_lt_upper_bound; lia. }
    rewrite (floor_of_quotient_exact (minutes `div` 60) 24) by lia.
    rewrite hours_below_a_day by lia.
    rewrite !Z.rem_mod_nonneg by lia.
    rewrite Z.div_div by lia. change (60 * 24) with 1440.
    destruct (minutes <? 1440); [done|].
    by destruct (minutes `div` 1440 =? 1).
  - intros Hbig. unfold convertMinutesToCron.
    assert (H253 : 2 ^ 53 = 9007199254740992) by reflexivity.
    destruct (Z.ltb_spec minutes 1) as [|_]; [lia|].
    destruct (Z.ltb_spec minutes 60) as [|_]; [lia|].
    assert (Hhours : 48 ≤ floor_of_quotient minutes 60).
    { apply floor_of_quotient_lower; [lia | split; [lia | by vm_compute] | lia]. }
    destruct (Z.ltb_spec (floor_of_quotient minutes 60) 24) as [|_]; [lia|].
    assert (Hdays : 2 ≤ floor_of_quotient (floor_of_quotient minutes 60) 24).
    { apply floor_of_quotient_lower; [lia | split; [lia | by vm_compute] | lia]. }
    destruct (Z.eqb_spec (floor_of_quotient (floor_of_quotient minutes 60) 24) 1)
      as [|_]; [lia|].
    exists (floor_of_quotient (floor_of_quotient minutes 60) 24),
           (Z.rem (floor_of_quotient minutes 60) 24).
    split; [lia|]. rewrite !Z.rem_mod_nonneg by lia.
    split; [apply Z.mod_pos_bound; lia | done].
Qed.

Lemma convertMinutesToCron_matches_schedule_witness :
  convertMinutesToCron 90 = Ok "30 */1 * * *" ∧
  ∃ days hour,
    1 < days ∧ 0 ≤ hour < 24 ∧
    convertMinutesToCron (10 ^ 22)
    = Ok (cronOf (EveryDaysAt days hour ((10 ^ 22) `mod` 60))).
Proof.
  split.
  - apply (convertMinutesToCron_matches_schedule 90). reflexivity.
  - apply (convertMinutesToCron_matches_schedule (10 ^ 22)). vm_compute. discriminate.
Defined.

(* ===================================================================== *)
(** ** Loading the index *)
(* ===================================================================== *)

(** C5. [getExistingTasks] returns normally on every disk and changes
    nothing but the journal, where the error it met, if any, is
    logged; when the index file is missing, unreadable, not JSON, or
    holds [null], the answer is the empty list. *)
Theorem getExistingTasks_never_fails (w : World) :
  ∃ tasks, getExistingTasks w = (log_lines (loadLines (disk w)) w, Ok tasks) ∧
    (index_file (disk w) = None ∨ read_error (disk w) = true ∨
     index_file (disk w) = Some Garbled ∨
     index_file (disk w) = Some (Encodes VNull) → tasks = VArr []).
Proof.
  exists (loadedTasks (disk w)). split; [apply getExistingTasks_run|].
  unfold loadedTasks. intros Hbad.
  destruct (index_file (disk w)) as [[|doc]|]; try done.
  destruct Hbad as [? | [-> | [? | [= ->]]]]; try done.
  by rewrite orb_true_r.
Qed.

Lemma getExistingTasks_never_fails_witness :
  getExistingTasks (sampleWorld (Some sampleCreds) garbledDisk [])
  = (log_lines [LogError "Failed to get existing tasks: Unexpected token in JSON"]
       (sampleWorld (Some sampleCreds) garbledDisk []),
     Ok (VArr [])).
Proof.
  destruct (getExistingTasks_never_fails
              (sampleWorld (Some sampleCreds) garbledDisk []))
    as (tasks & Hrun & Hempty).
  rewrite Hrun, Hempty; [reflexivity|].
  right; right; left; reflexivity.
Defined.

(* ===================================================================== *)
(** ** Failures of the pass as a whole *)
(* ===================================================================== *)

Lemma passPrelude_without_credentials w :
  valid_credentials w = false →
  passPrelude w
  = (log_lines [LogInfo "Starting ClickUp mirroring operation..."] w,
     Throw (credentialsError w)).
Proof.
  unfold valid_credentials, credentialsError, passPrelude, bind, logger_info,
    getClickUpCredentials, throw.
  rewrite log_line_one, tell_lines. cbn [credentials_clickup log_lines].
  destruct (credentials_clickup w) as [[key ws]|]; simpl; [|done].
  by destruct (present key), (present ws).
Qed.

Lemma mirror_without_credentials files w :
  valid_credentials w = false →
  mirrorFilesToClickUp files w
  = (log_lines (failedPassLines (credentialsError w)) w, Ok []).
Proof.
  intros Hcreds.
  rewrite (mirror_after_failed_prelude _ _ _ _ (passPrelude_without_credentials w Hcreds)).
  by rewrite log_lines_app.
Qed.

(** With valid credentials, a lookup that cannot be built ends the
    prelude right after the index was loaded. *)
Lemma passPrelude_broken_lookup w :
  valid_credentials w = true →
  ∀ e, createTaskMap (loadedTasks (disk w)) = Throw e →
       passPrelude w = (started w, Throw e).
Proof.
  unfold valid_credentials, passPrelude, bind at 1, logger_info.
  unfold bind at 1, getClickUpCredentials. cbn [credentials_clickup log_line].
  destruct (credentials_clickup w) as [[key ws]|]; [|done]. simpl.
  destruct (present key); [|done]. destruct (present ws); [|done]. simpl.
  intros _ e He. unfold bind at 1. rewrite getExistingTasks_run.
  cbn [disk log_line]. unfold bind, lift. rewrite He.
  unfold started. by rewrite log_line_one, tell_lines, log_lines_app.
Qed.

Lemma mirror_returns files w :
  ∃ w' results, mirrorFilesToClickUp files w = (w', Ok results).
Proof.
  unfold mirrorFilesToClickUp, try_catch, bind, logger_error, logger_error_stack, ret.
  destruct (mirrorPass files w) as [w' [results|e]]; eauto.
Qed.

(** C7, as the code has it. When the vault has no ClickUp credentials,
    or the key or the workspace id is missing or empty, the pass stops
    before any request: it logs its start and the error, and returns
    the empty sequence; nothing else changes, and no error reaches the
    caller. *)
Theorem missing_credentials_give_empty_pass (files : list File) (w : World) :
  valid_credentials w = false →
  mirrorFilesToClickUp files w
  = (log_lines (failedPassLines (credentialsError w)) w, Ok []) ∧
  requests (mirrorFilesToClickUp files w).1 = requests w.
Proof.
  intros Hcreds. by rewrite (mirror_without_credentials files w Hcreds).
Qed.

Lemma missing_credentials_give_empty_pass_witness :
  mirrorFilesToClickUp [docA] (sampleWorld None emptyDisk [])
  = (log_lines
       [LogInfo "Starting ClickUp mirroring operation...";
        LogError "ClickUp mirroring failed: Cannot read properties of null (reading 'apiKey')";
        LogErrorStack "Cannot read properties of null (reading 'apiKey')"]
       (sampleWorld None emptyDisk []),
     Ok []).
Proof.
  apply (missing_credentials_give_empty_pass [docA] (sampleWorld None emptyDisk [])).
  reflexivity.
Defined.

(** C7 as stated fails: with no credentials loaded the caller gets a
    normal return, not a configuration error. *)
Lemma missing_credentials_not_surfaced :
  let w := sampleWorld None emptyDisk (resolution ++ [taskCreated "t-100"]) in
  valid_credentials w = false ∧
  (mirrorFilesToClickUp [docA] w).2 = Ok [] ∧
  ∀ w' e, mirrorFilesToClickUp [docA] w ≠ (w', Throw e).
Proof.
  intros w. split; [reflexivity|].
  split; [by rewrite mirror_without_credentials|].
  intros w' e. by rewrite mirror_without_credentials.
Qed.

(** What remains of a pass that threw: the journal and the requests of
    its prelude; the index file and the cached count are untouched. *)
Lemma failed_pass_leaves files w w' e :
  mirrorPass files w = (w', Throw e) →
  let after := (mirrorFilesToClickUp files w).1 in
  (mirrorFilesToClickUp files w).2 = Ok [] ∧
  disk after = disk w ∧
  taskCountCache after = taskCountCache w ∧
  lastSyncTime after = lastSyncTime w.
Proof.
  intros Hpass%mirrorPass_throws_in_prelude.
  rewrite (mirror_after_failed_prelude _ _ _ _ Hpass).
  destruct (passPrelude w) as [w2 [ok|e2]] eqn:Hpre; [done|].
  injection Hpass as -> ->.
  assert (logs_only passPrelude) as Hlogs.
  { unfold passPrelude.
    apply logs_only_bind; [auto with logs|]. intros _.
    apply logs_only_bind.
    { apply logs_only_still. intros w0. unfold getClickUpCredentials.
      by destruct (credentials_clickup w0). }
    intros creds. apply logs_only_if; [auto with logs|].
    apply logs_only_bind.
    { intros w0. exists [], (loadLines (disk w0)).
      by rewrite getExistingTasks_run, tell_lines. }
    intros tasks. apply logs_only_bind; [auto with logs|].
    intros m. apply logs_only_bind; [apply getOrCreateMainList_logs_only|].
    auto with logs. }
  destruct (Hlogs w) as (reqs & calls & Hw'). rewrite Hpre in Hw'. simpl in Hw'.
  by subst w'.
Qed.

(** C10, as the code has it. [mirrorFilesToClickUp] returns normally
    for every input and world. Whenever the pass itself throws it
    returns the empty sequence: so without valid credentials, when the
    destination list cannot be resolved, and when the index lookup
    cannot be built. That is also the value a pass over no files
    returns. The two can be told apart by what they leave behind: a
    pass that threw leaves the index file and the cached count as they
    were, a pass over no files that reached its end sets the cached
    count to 0 and, when the index can be written, rewrites it as
    empty. *)
Theorem mirror_never_throws (files : list File) (w : World) :
  (∃ w' results, mirrorFilesToClickUp files w = (w', Ok results)) ∧
  (∀ w' e, mirrorPass files w = (w', Throw e) →
           let after := (mirrorFilesToClickUp files w).1 in
           (mirrorFilesToClickUp files w).2 = Ok [] ∧
           disk after = disk w ∧
           taskCountCache after = taskCountCache w ∧
           lastSyncTime after = lastSyncTime w) ∧
  (valid_credentials w = false → (mirrorFilesToClickUp files w).2 = Ok []) ∧
  (∀ creds w' e,
     credentials_clickup w = Some creds →
     getOrCreateMainList creds (started w) = (w', Throw e) →
     (mirrorFilesToClickUp files w).2 = Ok []) ∧
  (∀ e, createTaskMap (loadedTasks (disk w)) = Throw e →
        (mirrorFilesToClickUp files w).2 = Ok []) ∧
  (mirrorFilesToClickUp [] w).2 = Ok [] ∧
  (∀ w' results,
     mirrorPass [] w = (w', Ok results) →
     let after := (mirrorFilesToClickUp [] w).1 in
     taskCountCache after = Some 0%nat ∧
     lastSyncTime after = Some (now w) ∧
     (can_write (disk w) = true →
      index_file (disk after) = Some (Encodes (indexDoc (now w) [])))).
Proof.
  split; [apply mirror_returns|].
  split; [apply failed_pass_leaves|].
  split; [by intros Hcreds; rewrite mirror_without_credentials|].
  assert (∀ fs w2 e, passPrelude w = (w2, Throw e) →
                     (mirrorFilesToClickUp fs w).2 = Ok []) as Hfailed.
  { intros fs w2 e Hpre. by rewrite (mirror_after_failed_prelude _ _ _ _ Hpre). }
  pose proof (passPrelude_broken_lookup w) as Hmap.
  split; [|split; [|split]].
  - intros creds w' e Hcreds Hlist.
    destruct (valid_credentials w) eqn:Hvalid;
      [|by rewrite mirror_without_credentials].
    destruct (createTaskMap (loadedTasks (disk w))) as [m|e'] eqn:Hm;
      [|by eapply Hfailed, Hmap].
    apply (Hfailed files w' e).
    unfold valid_credentials in Hvalid. rewrite Hcreds in Hvalid.
    apply andb_prop in Hvalid as [Hkey Hws].
    unfold passPrelude, bind at 1, logger_info.
    unfold bind at 1, getClickUpCredentials. cbn [credentials_clickup log_line].
    rewrite Hcreds.
    destruct creds as [key ws]. simpl in *. rewrite Hkey, Hws. simpl.
    unfold bind at 1. rewrite getExistingTasks_run. cbn [disk log_line].
    unfold bind, lift. rewrite Hm.
    rewrite log_line_one, tell_lines, log_lines_app. cbn [app].
    fold (started w). by rewrite Hlist.
  - intros e He.
    destruct (valid_credentials w) eqn:Hvalid;
      [|by rewrite mirror_without_credentials].
    by eapply Hfailed, Hmap.
  - destruct (passPrelude w) as [w2 [[[creds m] mainList]|e]] eqn:Hpre.
    + destruct (mirror_after_prelude [] _ _ _ _ _ Hpre) as (w' & saved & -> & _). done.
    + by rewrite (mirror_after_failed_prelude _ _ _ _ Hpre).
  - intros w' results Hpass after.
    destruct (passPrelude w) as [w2 [[[creds m] mainList]|e]] eqn:Hpre.
    + destruct (mirror_after_prelude [] _ _ _ _ _ Hpre)
        as (w3 & saved & Hrun & _ & Hwritten & _ & Hcount & Htime & _).
      unfold after. rewrite Hrun. simpl in *.
      split; [done|]. split; [done|].
      intros Hcan. destruct (Hwritten Hcan) as [-> _]. done.
    + rewrite mirrorPass_split, (bind_throw _ _ _ _ _ Hpre) in Hpass. done.
Qed.

Lemma mirror_never_throws_witness :
  (mirrorFilesToClickUp [docA]
     (sampleWorld (Some sampleCreds) emptyDisk [RFail "Network Error"])).2 = Ok [] ∧
  (mirrorFilesToClickUp [docA] (sampleWorld None emptyDisk [])).2 = Ok [] ∧
  taskCountCache
    (mirrorFilesToClickUp [] (sampleWorld (Some sampleCreds) emptyDisk resolution)).1
  = Some 0%nat.
Proof.
  split; [|split].
  - destruct (mirror_never_throws [docA]
                (sampleWorld (Some sampleCreds) emptyDisk [RFail "Network Error"]))
      as (_ & _ & _ & Hlist & _).
    eapply (Hlist sampleCreds); [reflexivity | vm_compute; reflexivity].
  - destruct (mirror_never_throws [docA] (sampleWorld None emptyDisk []))
      as (_ & _ & Hcreds & _).
    apply Hcreds. reflexivity.
  - destruct (mirror_never_throws []
                (sampleWorld (Some sampleCreds) emptyDisk resolution))
      as (_ & _ & _ & _ & _ & _ & Hempty).
    eapply Hempty. vm_compute. reflexivity.
Defined.

(** C10 as stated fails: over an index that counts one task, a pass
    that fails and a pass over no files both return the empty
    sequence, but [getTaskCount] tells them apart: after the failed
    pass it still answers 1, after the pass over no files it
    answers 0, and the index has been rewritten as empty. *)
Lemma failed_pass_differs_from_empty_pass :
  let failed := mirrorFilesToClickUp [docA]
                  (sampleWorld (Some sampleCreds) indexedDisk
                     [RFail "Network Error"]) in
  let empty := mirrorFilesToClickUp []
                 (sampleWorld (Some sampleCreds) indexedDisk resolution) in
  failed.2 = Ok [] ∧ empty.2 = Ok [] ∧
  (getTaskCount 21600000 (disk failed.1) (syncCacheOf sampleEpoch failed.1)).2
  = VNum 1 ∧
  (getTaskCount 21600000 (disk empty.1) (syncCacheOf sampleEpoch empty.1)).2
  = VNum 0 ∧
  index_file (disk failed.1) = index_file indexedDisk ∧
  index_file (disk empty.1)
  = Some (Encodes (indexDoc "2024-03-01T06:00:00.000Z" [])).
Proof. vm_compute. repeat split. Qed.

(* ===================================================================== *)
(** ** Create or update *)
(* ===================================================================== *)

Lemma dict_get_own m k e : own m !! k = Some e → dict_get k m = Held e.
Proof. unfold dict_get. by intros ->. Qed.

Lemma dict_get_miss m k :
  own m !! k = None → inherits m k = false → dict_get k m = Held VUndef.
Proof.
  unfold dict_get, inherits, inherited. intros ->.
  destruct (prototype m) as [fields|].
  - intros [-> [-> ->]%orb_false_elim]%orb_false_elim. done.
  - by intros ->.
Qed.

Lemma dict_get_inherited m k :
  own m !! k = None → prototype m = None → inherited k = true →
  dict_get k m = Builtin.
Proof. unfold dict_get. by intros -> -> ->. Qed.

Lemma dict_set_own key task m k v :
  own (dict_set key task m) !! k = Some v →
  own m !! k = Some v ∨ (k = key ∧ v = VObj task).
Proof.
  unfold dict_set.
  destruct (_ && _ && _); cbn [own]; [by left|].
  rewrite lookup_insert. case_decide; [|by left].
  intros [= <-]. by right.
Qed.

(** What the loop stores are objects of the index. *)
Lemma createTaskMap_loop_objects tasks : ∀ m m',
  createTaskMap_loop tasks m = Ok m' →
  ∀ k v, own m' !! k = Some v →
         own m !! k = Some v ∨ (v ∈ tasks ∧ ∃ fields, v = VObj fields).
Proof.
  induction tasks as [|task rest IH]; simpl; intros m m' Hrun k v Hlook.
  - injection Hrun as <-. by left.
  - destruct (prop "fileId" task) as [fileId|e]; [|done].
    assert (∀ m1, createTaskMap_loop rest m1 = Ok m' → own m1 = own m →
                  own m !! k = Some v ∨ (v ∈ task :: rest ∧ ∃ fields, v = VObj fields))
      as Hskip.
    { intros m1 Hrest Hown. destruct (IH _ _ Hrest k v Hlook) as [Hprev|[Hin Hobj]].
      - left. by rewrite <- Hown.
      - right. split; [by right | done]. }
    destruct task as [| | | | | |fields]; try by eapply Hskip.
    destruct (truthy fileId); [|by eapply Hskip].
    destruct (IH _ _ Hrun k v Hlook) as [Hprev|[Hin Hobj]].
    + apply dict_set_own in Hprev as [?|[_ ->]]; [by left|].
      right. split; [by left | eauto].
    + right. split; [by right | done].
Qed.

Lemma createTaskMap_objects tasks m k v :
  createTaskMap tasks = Ok m → own m !! k = Some v → ∃ fields, v = VObj fields.
Proof.
  destruct tasks; simpl; try done.
  - intros [= <-]. unfold emptyDict. simpl. by rewrite lookup_empty.
  - intros Hrun Hlook.
    destruct (createTaskMap_loop_objects _ _ _ Hrun _ _ Hlook) as [Hempty|[_ ?]];
      [unfold emptyDict in Hempty; simpl in Hempty;
       by rewrite lookup_empty in Hempty | done].
Qed.

(** What the pass sends for a file, by what the lookup holds. *)
Lemma taskRequest_cases tasks m mainList creds file :
  createTaskMap tasks = Ok m →
  (∀ existingTask,
     own m !! file_id file = Some existingTask →
     taskRequest m mainList creds file
     = PutTask (get "id" existingTask) (taskNameOf file) file creds) ∧
  (own m !! file_id file = None → inherits m (file_id file) = false →
   taskRequest m mainList creds file
   = PostTask (get "id" mainList) (taskNameOf file) file creds) ∧
  (own m !! file_id file = None → prototype m = None →
   inherited (file_id file) = true →
   taskRequest m mainList creds file = PutTask VUndef (taskNameOf file) file creds).
Proof.
  intros Hmap. unfold taskRequest, existingId. split; [|split].
  - intros existingTask Hown. rewrite (dict_get_own _ _ _ Hown).
    by destruct (createTaskMap_objects _ _ _ _ Hmap Hown) as [fields ->].
  - intros Hown Hnot. by rewrite (dict_get_miss _ _ Hown Hnot).
  - intros Hown Hproto Hinh. by rewrite (dict_get_inherited _ _ Hown Hproto Hinh).
Qed.

(** C2, as the code has it. In a pass that reaches its loop, the lookup
    is the one built from the loaded index, the list is the resolved
    destination list, and the requests the loop sends are one per
    file, in the order of the files, each decided by the file alone:
    an update of the looked-up entry's task when the lookup holds an
    entry under the file id; a creation under the destination list
    when it holds none and the file id is not a name the lookup object
    inherits.  When it holds none and the file id is such a name
    ([constructor], [toString], ..., [__proto__]), what is read is the
    inherited member, and an update is sent to the task
    [undefined]. *)
Theorem create_or_update_by_lookup (files : list File) (w w2 : World)
    (creds : Creds) (m : Dict) (mainList : value) :
  passPrelude w = (w2, Ok (creds, m, mainList)) →
  createTaskMap (loadedTasks (disk w)) = Ok m ∧
  getOrCreateMainList creds (started w) = (w2, Ok mainList) ∧
  ∃ sent,
    requests (mirrorFilesToClickUp files w).1 = requests w2 ++ sent ∧
    Forall2 (λ file req,
               (∀ existingTask,
                  own m !! file_id file = Some existingTask →
                  req = PutTask (get "id" existingTask) (taskNameOf file) file creds) ∧
               (own m !! file_id file = None → inherits m (file_id file) = false →
                req = PostTask (get "id" mainList) (taskNameOf file) file creds) ∧
               (own m !! file_id file = None → prototype m = None →
                inherited (file_id file) = true →
                req = PutTask VUndef (taskNameOf file) file creds)) files sent.
Proof.
  intros Hpre.
  destruct (passPrelude_ok _ _ _ _ _ Hpre) as (_ & _ & Hmap & Hlist & _).
  do 2 (split; [done|]).
  destruct (mirror_after_prelude files _ _ _ _ _ Hpre) as (w' & saved & -> & Hreqs & _).
  exists (map (taskRequest m mainList creds) files). split; [done|].
  clear -Hmap. induction files as [|file rest IH]; simpl; constructor; [|done].
  by eapply taskRequest_cases.
Qed.

Lemma create_or_update_by_lookup_witness :
  requests (mirrorFilesToClickUp [docA; docB; docConstructor]
              (sampleWorld (Some sampleCreds) indexedDisk resolution)).1
  = requests (afterResolution
                (sampleWorld (Some sampleCreds) indexedDisk resolution)) ++
    [PutTask VUndef "Doc A [pdf]" docA sampleCreds;
     PostTask (VStr "l1") "Doc B [pdf]" docB sampleCreds;
     PutTask VUndef "Doc C [pdf]" docConstructor sampleCreds].
Proof.
  destruct (create_or_update_by_lookup [docA; docB; docConstructor]
              (sampleWorld (Some sampleCreds) indexedDisk resolution)
              (afterResolution (sampleWorld (Some sampleCreds) indexedDisk resolution))
              sampleCreds indexedMap fileTasksList)
    as (_ & _ & sent & Hsent & Heach).
  - vm_compute. reflexivity.
  - rewrite Hsent. f_equal.
    apply Forall2_cons_inv_l in Heach as (reqA & sent1 & (HA & _ & _) & Heach & ->).
    apply Forall2_cons_inv_l in Heach as (reqB & sent2 & (_ & HB & _) & Heach & ->).
    apply Forall2_cons_inv_l in Heach as (reqC & sent3 & (_ & _ & HC) & Heach & ->).
    apply Forall2_nil_inv_l in Heach as ->.
    rewrite (HA indexedEntry eq_refl), (HB eq_refl eq_refl),
      (HC eq_refl eq_refl eq_refl).
    reflexivity.
Defined.

(** C2 at a failing run. One file whose id is [constructor], no index:
    the lookup holds nothing, yet what is read under the file id is the
    inherited method. The pass takes the update path, sends its
    request to the task [undefined], and reports the file as updated
    with no task id; it creates nothing. *)
Lemma inherited_name_is_updated_not_created :
  let w := sampleWorld (Some sampleCreds) emptyDisk
             (resolution ++ [taskCreated "t-100"]) in
  createTaskMap (loadedTasks (disk w)) = Ok emptyDict ∧
  own emptyDict !! file_id docConstructor = None ∧
  requests (mirrorFilesToClickUp [docConstructor] w).1
  = [GetSpaces sampleCreds; GetFolders (VStr "s1") sampleCreds;
     GetLists (VStr "d1") sampleCreds;
     PutTask VUndef "Doc C [pdf]" docConstructor sampleCreds] ∧
  (mirrorFilesToClickUp [docConstructor] w).2
  = Ok [VObj [("action", VStr "updated"); ("fileId", VStr "constructor");
              ("taskId", VUndef);
              ("task", VObj [("id", VStr "t-100"); ("fileId", VStr "constructor")])]].
Proof. vm_compute. repeat split. Qed.

(* ===================================================================== *)
(** ** One failing item *)
(* ===================================================================== *)

(** C1, as the code has it. In a pass that reaches its loop over N
    files, if exactly the task-store call for the [k]-th file fails, the
    pass returns N-1 records: one for every other file, in the order of
    the files, each with action created or updated, and none for the
    [k]-th file. When the index file can be written, the index then
    holds those N-1 entries. *)
Theorem one_failure_drops_one_record (files : list File) (k : nat)
    (w w2 : World) (creds : Creds) (m : Dict) (mainList : value) :
  passPrelude w = (w2, Ok (creds, m, mainList)) →
  (k < length files)%nat →
  (∀ i, (i < length files)%nat →
        call_fails (service w (length (requests w2) + i)%nat) = true ↔ i = k) →
  ∃ w' results,
    mirrorFilesToClickUp files w = (w', Ok results) ∧
    length results = (length files - 1)%nat ∧
    map (get "fileId") results = map (λ file, VStr (file_id file)) (delete k files) ∧
    Forall (λ r, get "action" r = VStr "created" ∨ get "action" r = VStr "updated")
           results ∧
    (can_write (disk w) = true →
     ∃ tasks,
       index_file (disk w') = Some (Encodes (indexDoc (now w) tasks)) ∧
       length tasks = (length files - 1)%nat ∧
       map (get "fileId") tasks = map (get "fileId") results).
Proof.
  intros Hpre Hk Hone.
  destruct (mirror_after_prelude files _ _ _ _ _ Hpre)
    as (w' & saved & Hrun & _ & Hdisk & _).
  set (results := passResults m files (length (requests w2)) (service w)) in *.
  assert (map (get "fileId") results
          = map (λ file, VStr (file_id file)) (delete k files)) as Hids
    by (by apply passResults_one_failure).
  assert (length results = (length files - 1)%nat) as Hlen.
  { rewrite <- (length_map (get "fileId") results), Hids, length_map.
    apply length_delete. by apply lookup_lt_is_Some. }
  exists w', results. repeat split; try done.
  - eapply Forall_impl; [apply passResults_records|].
    intros r (file & task & ->). rewrite resultRecord_action.
    destruct (existingId m file); auto.
  - intros Hcan. exists (jsonItems results). rewrite (proj1 (Hdisk Hcan)).
    repeat split.
    + unfold jsonItems. by rewrite length_map.
    + apply passResults_persisted_fileIds.
Qed.

Lemma one_failure_drops_one_record_witness :
  ∃ w' results,
    mirrorFilesToClickUp [docA; docB]
      (sampleWorld (Some sampleCreds) emptyDisk
         (resolution ++ [taskCreated "t-100"; RFail "Request failed with status code 500"]))
    = (w', Ok results) ∧
    length results = 1%nat ∧
    map (get "fileId") results = [VStr "f1"].
Proof.
  destruct (one_failure_drops_one_record [docA; docB] 1
              (sampleWorld (Some sampleCreds) emptyDisk
                 (resolution ++ [taskCreated "t-100";
                                 RFail "Request failed with status code 500"]))
              (afterResolution
                 (sampleWorld (Some sampleCreds) emptyDisk
                    (resolution ++ [taskCreated "t-100";
                                    RFail "Request failed with status code 500"])))
              sampleCreds emptyDict fileTasksList)
    as (w' & results & Hrun & Hlen & Hids & _).
  - vm_compute. reflexivity.
  - simpl. lia.
  - intros [|[|i]] Hi; simpl in Hi; try lia; vm_compute; split; intros; congruence.
  - exists w', results. repeat split; assumption.
Defined.

(** C1 as stated fails: two files, the call for the second is rejected;
    one record comes back, not two, and none says failed. *)
Lemma failed_item_leaves_no_record :
  let files := [docA; docB] in
  let w := sampleWorld (Some sampleCreds) emptyDisk
             (resolution ++ [taskCreated "t-100";
                             RFail "Request failed with status code 500"]) in
  ∃ w' results,
    mirrorFilesToClickUp files w = (w', Ok results) ∧
    length results ≠ length files ∧
    Forall (λ r, get "action" r ≠ VStr "failed") results.
Proof.
  eexists _, _. split; [vm_compute; reflexivity|].
  split; [simpl; lia|].
  repeat constructor; simpl; congruence.
Qed.

(* ===================================================================== *)
(** ** The saved index *)
(* ===================================================================== *)

Lemma saveTaskIndex_path_means_written ts w w' p :
  saveTaskIndex (VArr ts) w = (w', Ok (Some p)) →
  can_write (disk w) = true.
Proof.
  intros Hsave. destruct (can_write (disk w)) eqn:Hcan; [done|].
  destruct (saveTaskIndex_refused ts w Hcan) as (d & e & Hrun & _). congruence.
Qed.

(** C4, as the code has it. After every save that returns the path, the
    persisted document has [totalTasks] equal to the length of [tasks],
    for every list of records handed to [saveTaskIndex]. After a pass
    that saves, the file ids in [tasks] are pairwise distinct whenever
    the file ids of the files given to the pass are. *)
Theorem saved_index_counts_and_keeps_distinct_ids :
  (∀ (ts : list value) (w w' : World) (p : Path),
     saveTaskIndex (VArr ts) w = (w', Ok (Some p)) →
     ∃ doc tasks,
       index_file (disk w') = Some (Encodes doc) ∧
       get "tasks" doc = VArr tasks ∧ length tasks = length ts ∧
       get "totalTasks" doc = VNum (Z.of_nat (length tasks))) ∧
  (∀ (files : list File) (w w2 : World) (creds : Creds)
     (m : Dict) (mainList : value),
     passPrelude w = (w2, Ok (creds, m, mainList)) →
     can_write (disk w) = true →
     NoDup (map file_id files) →
     ∃ doc tasks,
       index_file (disk (mirrorFilesToClickUp files w).1) = Some (Encodes doc) ∧
       get "tasks" doc = VArr tasks ∧
       get "totalTasks" doc = VNum (Z.of_nat (length tasks)) ∧
       NoDup (map (get "fileId") tasks)).
Proof.
  split.
  - intros ts w w' p Hsave.
    pose proof (saveTaskIndex_path_means_written _ _ _ _ Hsave) as Hcan.
    rewrite (saveTaskIndex_written ts w Hcan) in Hsave.
    injection Hsave as <- _.
    exists (indexDoc (now w) (jsonItems ts)), (jsonItems ts).
    repeat split. unfold jsonItems. by rewrite length_map.
  - intros files w w2 creds m mainList Hpre Hcan Hfiles.
    destruct (mirror_after_prelude files _ _ _ _ _ Hpre)
      as (w' & saved & -> & _ & Hdisk & _).
    simpl. rewrite (proj1 (Hdisk Hcan)).
    eexists (indexDoc (now w) _), _. repeat split.
    rewrite passResults_persisted_fileIds.
    eapply sublist_NoDup; [|apply passResults_fileIds_sublist].
    clear -Hfiles. induction files as [|file rest IH]; simpl in *; [constructor|].
    apply NoDup_cons in Hfiles as [Hnotin Hrest].
    apply NoDup_cons. split; [|by apply IH].
    intros Hin. apply Hnotin.
    apply list_elem_of_In, in_map_iff in Hin as (file' & [= Heq] & Hin').
    apply list_elem_of_In, in_map_iff. eauto.
Qed.

Lemma saved_index_counts_and_keeps_distinct_ids_witness :
  ∃ doc tasks,
    index_file (disk (mirrorFilesToClickUp [docA; docB]
                        (sampleWorld (Some sampleCreds) emptyDisk
                           (resolution ++ [taskCreated "t-100"; taskCreated "t-101"]))).1)
    = Some (Encodes doc) ∧
    get "tasks" doc = VArr tasks ∧
    get "totalTasks" doc = VNum (Z.of_nat (length tasks)) ∧
    NoDup (map (get "fileId") tasks).
Proof.
  destruct saved_index_counts_and_keeps_distinct_ids as [_ Hpass].
  apply (Hpass [docA; docB]
           (sampleWorld (Some sampleCreds) emptyDisk
              (resolution ++ [taskCreated "t-100"; taskCreated "t-101"]))
           (afterResolution
              (sampleWorld (Some sampleCreds) emptyDisk
                 (resolution ++ [taskCreated "t-100"; taskCreated "t-101"])))
           sampleCreds emptyDict fileTasksList).
  - vm_compute. reflexivity.
  - reflexivity.
  - apply (bool_decide_unpack _). vm_compute. exact I.
Defined.

(** C4 as stated fails: the same file listed twice gets two records,
    and the saved index holds its file id twice. *)
Lemma saved_index_repeats_a_repeated_file :
  let w := sampleWorld (Some sampleCreds) emptyDisk
             (resolution ++ [taskCreated "t-100"; taskCreated "t-101"]) in
  ∃ doc tasks,
    index_file (disk (mirrorFilesToClickUp [docA; docA] w).1) = Some (Encodes doc) ∧
    get "tasks" doc = VArr tasks ∧
    map (get "fileId") tasks = [VStr "f1"; VStr "f1"] ∧
    ¬ NoDup (map (get "fileId") tasks).
Proof.
  eexists _, _. split; [vm_compute; reflexivity|].
  split; [vm_compute; reflexivity|].
  split; [vm_compute; reflexivity|].
  intros Hnodup. apply NoDup_cons in Hnodup as [Hnotin _].
  apply Hnotin. left.
Qed.

(* ===================================================================== *)
(** ** A refused write *)
(* ===================================================================== *)

(** C6, as the code has it. In a pass that reaches its loop, whatever
    the outcomes of the task-store calls, the pass returns normally
    with the records of the calls that did not fail. When the index
    cannot be written the return value is that same sequence, so the
    failure does not show in it, and the index file is left as it
    was. *)
Theorem refused_write_is_not_reported (files : list File) (w w2 : World)
    (creds : Creds) (m : Dict) (mainList : value) :
  passPrelude w = (w2, Ok (creds, m, mainList)) →
  ∃ w',
    mirrorFilesToClickUp files w
    = (w', Ok (passResults m files (length (requests w2)) (service w))) ∧
    (can_write (disk w) = false → index_file (disk w') = index_file (disk w)).
Proof.
  intros Hpre.
  destruct (mirror_after_prelude files _ _ _ _ _ Hpre)
    as (w' & saved & Hrun & _ & _ & Hkept & _).
  exists w'. split; [done|]. intros Hcan. by destruct (Hkept Hcan).
Qed.

Lemma refused_write_is_not_reported_witness :
  ∃ w',
    mirrorFilesToClickUp [docA]
      (sampleWorld (Some sampleCreds) readOnlyDisk (resolution ++ [taskCreated "t-100"]))
    = (w', Ok [VObj [("action", VStr "created"); ("fileId", VStr "f1");
                     ("taskId", VStr "t-100");
                     ("task", VObj [("id", VStr "t-100"); ("fileId", VStr "f1")])]]) ∧
    index_file (disk w') = None.
Proof.
  destruct (refused_write_is_not_reported [docA]
              (sampleWorld (Some sampleCreds) readOnlyDisk
                 (resolution ++ [taskCreated "t-100"]))
              (afterResolution
                 (sampleWorld (Some sampleCreds) readOnlyDisk
                    (resolution ++ [taskCreated "t-100"])))
              sampleCreds emptyDict fileTasksList)
    as (w' & Hrun & Hkept).
  - vm_compute. reflexivity.
  - exists w'. split; [exact Hrun|]. apply Hkept. reflexivity.
Defined.

(** C6 as stated fails: on a disk that refuses the write the caller
    gets exactly what it gets on a disk that takes it, and nothing is
    thrown, although no index was written. *)
Lemma refused_write_looks_like_success :
  let answers := resolution ++ [taskCreated "t-100"] in
  let refused := mirrorFilesToClickUp [docA]
                   (sampleWorld (Some sampleCreds) readOnlyDisk answers) in
  let saved := mirrorFilesToClickUp [docA]
                 (sampleWorld (Some sampleCreds) emptyDisk answers) in
  refused.2 = saved.2 ∧
  (∃ results, refused.2 = Ok results ∧ length results = 1%nat) ∧
  index_file (disk refused.1) = None ∧
  is_Some (index_file (disk saved.1)).
Proof.
  repeat split.
  - vm_compute. eexists. split; reflexivity.
  - vm_compute. eexists. reflexivity.
Qed.

(* ===================================================================== *)
(** ** Load, then save *)
(* ===================================================================== *)

Lemma jsonItems_fixes_json ts : forallb is_json ts = true → jsonItems ts = ts.
Proof.
  unfold jsonItems. induction ts as [|t ts IH]; simpl; [done|].
  intros [Ht Hts]%andb_prop. rewrite IH by done. f_equal.
  destruct t; try done; by apply jsonify_fixes_json.
Qed.

Lemma same_content_refl doc : same_content doc doc.
Proof. by split. Qed.

(** C8, as the code has it. Saving what was loaded from a well-formed
    index that can be read leaves an index with the same content,
    [generatedAt] apart; and with no index file, loading gives the
    empty sequence of tasks, the [tasks] of an index whose
    [totalTasks] is 0. *)
Theorem load_then_save_keeps_content :
  (∀ (w : World) (doc : value),
     index_file (disk w) = Some (Encodes doc) →
     read_error (disk w) = false →
     well_formed_index doc →
     ∃ w' r doc',
       (tasks <- getExistingTasks ;; saveTaskIndex tasks) w = (w', Ok r) ∧
       index_file (disk w') = Some (Encodes doc') ∧
       same_content doc doc') ∧
  (∀ (w : World),
     index_file (disk w) = None →
     getExistingTasks w = (w, Ok (VArr [])) ∧
     ∀ g, get "tasks" (indexDoc g []) = VArr [] ∧
          get "totalTasks" (indexDoc g []) = VNum 0).
Proof.
  split.
  - intros w doc Hfile Hread (Hjson & ts & Htasks & Htotal).
    assert (forallb is_json ts = true) as Hts.
    { destruct (get_json "tasks" doc Hjson) as [Hu|Hj]; rewrite Htasks in *; done. }
    assert (nullish doc = false) as Hdoc by (by destruct doc).
    assert (loadedTasks (disk w) = VArr ts) as Hload.
    { unfold loadedTasks. by rewrite Hfile, Hread, Hdoc, Htasks. }
    assert (loadFailure (disk w) = None) as Hquiet.
    { unfold loadFailure, prop. by rewrite Hfile, Hread, Hdoc. }
    unfold bind. rewrite (getExistingTasks_quiet _ Hquiet), Hload.
    destruct (can_write (disk w)) eqn:Hcan.
    + rewrite (saveTaskIndex_written ts w Hcan), jsonItems_fixes_json by done.
      eexists _, _, _. split; [done|]. split; [done|].
      by split; simpl; rewrite ?Htotal, ?Htasks.
    + destruct (saveTaskIndex_refused ts w Hcan) as (d & e & -> & Hd).
      eexists _, _, doc. split; [done|]. simpl. rewrite Hd.
      split; [done | apply same_content_refl].
  - intros w Hfile. split; [|done].
    rewrite getExistingTasks_quiet by (unfold loadFailure; by rewrite Hfile).
    unfold loadedTasks. by rewrite Hfile.
Qed.

Lemma load_then_save_keeps_content_witness :
  (∃ w' r doc',
     (tasks <- getExistingTasks ;; saveTaskIndex tasks)
       (sampleWorld (Some sampleCreds) indexedDisk []) = (w', Ok r) ∧
     index_file (disk w') = Some (Encodes doc') ∧
     same_content (indexDoc "2024-03-01T00:00:00.000Z" [indexedEntry]) doc') ∧
  getExistingTasks (sampleWorld (Some sampleCreds) emptyDisk [])
  = (sampleWorld (Some sampleCreds) emptyDisk [], Ok (VArr [])).
Proof.
  destruct load_then_save_keeps_content as [Hsave Hload].
  split.
  - apply (Hsave (sampleWorld (Some sampleCreds) indexedDisk [])
             (indexDoc "2024-03-01T00:00:00.000Z" [indexedEntry])).
    + reflexivity.
    + reflexivity.
    + split; [reflexivity|]. exists [indexedEntry]. split; reflexivity.
  - apply (Hload (sampleWorld (Some sampleCreds) emptyDisk [])). reflexivity.
Defined.

(** C8 as stated fails: a well-formed index with one task in a file
    that cannot be read at the moment, but can be written. Loading
    answers the empty sequence, and saving that replaces the index by
    an empty one: the task and the count of 1 are gone. *)
Lemma unreadable_index_is_emptied :
  let w := sampleWorld (Some sampleCreds) unreadableDisk [] in
  let doc := indexDoc "2024-03-01T00:00:00.000Z" [indexedEntry] in
  index_file (disk w) = Some (Encodes doc) ∧
  well_formed_index doc ∧
  ∃ w' r doc',
    (tasks <- getExistingTasks ;; saveTaskIndex tasks) w = (w', Ok r) ∧
    index_file (disk w') = Some (Encodes doc') ∧
    get "tasks" doc' = VArr [] ∧ get "totalTasks" doc' = VNum 0 ∧
    ¬ same_content doc doc'.
Proof.
  intros w doc. split; [reflexivity|].
  split; [split; [reflexivity | exists [indexedEntry]; split; reflexivity]|].
  eexists _, _, _. split; [vm_compute; reflexivity|].
  split; [reflexivity|]. split; [reflexivity|]. split; [reflexivity|].
  intros [Htotal _]. vm_compute in Htotal. discriminate Htotal.
Qed.

(* ===================================================================== *)
(** ** A second pass over the same files *)
(* ===================================================================== *)

Lemma dict_set_prototype key task m fields :
  prototype (dict_set key task m) = Some fields →
  prototype m = Some fields ∨ fields = task.
Proof.
  unfold dict_set. destruct (_ && _ && _); cbn [prototype]; [|by left].
  intros [= <-]. by right.
Qed.

(** The prototype the loop leaves, if it is not the one it met, is an
    object of the index. *)
Lemma createTaskMap_loop_prototype tasks : ∀ m m' fields,
  createTaskMap_loop tasks m = Ok m' → prototype m' = Some fields →
  prototype m = Some fields ∨ VObj fields ∈ tasks.
Proof.
  induction tasks as [|task rest IH]; simpl; intros m m' fields Hrun Hproto.
  - injection Hrun as <-. by left.
  - destruct (prop "fileId" task) as [fileId|e]; [|done].
    assert (∀ m1, createTaskMap_loop rest m1 = Ok m' → prototype m1 = prototype m →
                  prototype m = Some fields ∨ VObj fields ∈ task :: rest) as Hskip.
    { intros m1 Hrest Hsame. destruct (IH _ _ _ Hrest Hproto) as [Hprev|Hin].
      - left. by rewrite <- Hsame.
      - right. by right. }
    destruct task as [| | | | | |entry]; try by eapply Hskip.
    destruct (truthy fileId); [|by eapply Hskip].
    destruct (IH _ _ _ Hrun Hproto) as [Hprev|Hin]; [|right; by right].
    apply dict_set_prototype in Hprev as [?| ->]; [by left|].
    right. by left.
Qed.

Lemma dict_set_filed key task m : filed (dict_set key task m) key.
Proof.
  unfold filed, dict_set.
  destruct (String.eqb key "__proto__") eqn:Hkey; simpl.
  - apply String.eqb_eq in Hkey as ->.
    destruct (own m !! "__proto__") eqn:Hown; simpl.
    + left. cbn [own]. by rewrite lookup_insert_eq.
    + destruct (if prototype m is Some fields then has_field "__proto__" fields
                else false); simpl.
      * left. by rewrite lookup_insert_eq.
      * right. split; [done | by eexists].
  - left. by rewrite lookup_insert_eq.
Qed.

Lemma dict_set_keeps_filed key task m k : filed m k → filed (dict_set key task m) k.
Proof.
  unfold filed, dict_set. intros [Hown|[-> Hproto]].
  - left. destruct (_ && _ && _); cbn [own]; [done|].
    rewrite lookup_insert. by case_decide.
  - destruct (_ && _ && _) eqn:Hset; cbn [own prototype].
    + right. split; [done | by eexists].
    + destruct (decide (key = "__proto__")) as [->|Hne].
      * left. by rewrite lookup_insert_eq.
      * right. split; [done | exact Hproto].
Qed.

Lemma createTaskMap_loop_keeps tasks : ∀ m m' k,
  createTaskMap_loop tasks m = Ok m' → filed m k → filed m' k.
Proof.
  induction tasks as [|task rest IH]; simpl; intros m m' k Hrun Hk.
  - by injection Hrun as <-.
  - destruct (prop "fileId" task) as [fileId|e]; [|done].
    destruct task as [| | | | | |entry]; try by eapply IH.
    destruct (truthy fileId); [|by eapply IH].
    apply (IH _ _ _ Hrun). by apply dict_set_keeps_filed.
Qed.

(** An entry with a non-empty file id is filed under that id. *)
Lemma createTaskMap_loop_has tasks : ∀ m m' task i,
  createTaskMap_loop tasks m = Ok m' →
  task ∈ tasks → get "fileId" task = VStr i → i ≠ "" →
  filed m' i.
Proof.
  induction tasks as [|t rest IH]; simpl; intros m m' task i Hrun Hin Hid Hne.
  - by apply elem_of_nil in Hin.
  - destruct (prop "fileId" t) as [fileId|e] eqn:Hprop; [|done].
    apply elem_of_cons in Hin as [<-|Hin].
    + unfold prop in Hprop. destruct (nullish task) eqn:Hnull.
      { by destruct task. }
      injection Hprop as <-. rewrite Hid in Hrun.
      destruct task as [| | | | | |entry]; simpl in Hid; try done.
      simpl in Hrun. destruct (String.eqb_spec i ""); [done|]. simpl in Hrun.
      apply (createTaskMap_loop_keeps _ _ _ _ Hrun). apply dict_set_filed.
    + destruct t as [| | | | | |entry]; try by eapply IH.
Qed.

(** Written to the index, a record is an object without an [id] and
    without a property [__proto__]. *)
Lemma resultRecord_persisted_shape m file task :
  ∃ fields,
    (if resultRecord m file task is VUndef then VNull
     else jsonify (resultRecord m file task)) = VObj fields ∧
    has_field "__proto__" fields = false ∧ lookup_field "id" fields = VUndef.
Proof.
  unfold resultRecord.
  destruct (existingId m file) as [taskId|];
    [destruct taskId | destruct (get "id" task)];
    destruct task; simpl; eexists; split; try reflexivity; done.
Qed.

(** The index a pass writes keeps the task id of a record under
    [taskId] and [task.id]; [createTaskMap] hands the record itself to
    [mirrorFilesToClickUp], which reads its [id].  So every update that
    follows an index written by a pass is addressed to [undefined]. *)
Lemma update_after_own_index_targets_undefined m0 files n svc m :
  createTaskMap (VArr (jsonItems (passResults m0 files n svc))) = Ok m →
  ∀ mainList creds file,
    filed m (file_id file) →
    taskRequest m mainList creds file = PutTask VUndef (taskNameOf file) file creds.
Proof.
  simpl. intros Hmap mainList creds file Hfiled.
  assert (∀ entry, entry ∈ jsonItems (passResults m0 files n svc) →
                   ∃ fields, entry = VObj fields ∧
                             has_field "__proto__" fields = false ∧
                             lookup_field "id" fields = VUndef) as Hshape.
  { intros entry Hin. unfold jsonItems in Hin.
    apply list_elem_of_In, in_map_iff in Hin as (r & <- & Hr).
    pose proof (passResults_records m0 files n svc) as Hrecords.
    rewrite Forall_forall in Hrecords.
    destruct (Hrecords r) as (file' & task & ->); [by apply list_elem_of_In|].
    apply resultRecord_persisted_shape. }
  unfold taskRequest, existingId, dict_get.
  destruct (own m !! file_id file) as [entry|] eqn:Hentry.
  - destruct (createTaskMap_loop_objects _ _ _ Hmap _ _ Hentry) as [Hempty|[Hin _]];
      [by cbn [emptyDict own] in Hempty; rewrite lookup_empty in Hempty|].
    destruct (Hshape _ Hin) as (fields & -> & _ & Hid). simpl. by rewrite Hid.
  - destruct Hfiled as [[? ?]|[Hkey [fields Hproto]]]; [congruence|].
    rewrite Hproto.
    destruct (createTaskMap_loop_prototype _ _ _ _ Hmap Hproto) as [?|Hin]; [done|].
    destruct (Hshape _ Hin) as (fields' & [= <-] & Hnone & Hid).
    rewrite Hkey, Hnone. simpl. by rewrite Hid.
Qed.

(** After a first pass in which every call went through and the index
    was saved, a second pass over the same files sends nothing but
    updates, every one of them addressed to [undefined]. *)
Lemma second_pass_addresses_undefined files w w2 creds m mainList
    w3 creds' m' mainList' :
  passPrelude w = (w2, Ok (creds, m, mainList)) →
  can_write (disk w) = true → read_error (disk w) = false →
  (∀ i, (i < length files)%nat →
        call_fails (service w (length (requests w2) + i)%nat) = false) →
  Forall (λ file, file_id file ≠ "") files →
  passPrelude (mirrorFilesToClickUp files w).1 = (w3, Ok (creds', m', mainList')) →
  requests (mirrorFilesToClickUp files (mirrorFilesToClickUp files w).1).1
  = requests w3 ++ map (λ file, PutTask VUndef (taskNameOf file) file creds') files.
Proof.
  intros Hpre Hcan Hread Hok Hids Hpre'.
  destruct (mirror_after_prelude files _ _ _ _ _ Hpre)
    as (w1 & saved & Hrun & _ & Hdisk & _).
  rewrite Hrun in *. simpl in Hpre' |- *.
  set (results := passResults m files (length (requests w2)) (service w)) in *.
  destruct (mirror_after_prelude files _ _ _ _ _ Hpre')
    as (w4 & saved' & -> & Hsent & _).
  simpl. rewrite Hsent. f_equal.
  destruct (passPrelude_ok _ _ _ _ _ Hpre') as (_ & _ & Hmap & _).
  assert (loadedTasks (disk w1) = VArr (jsonItems results)) as Hload.
  { rewrite (proj1 (Hdisk Hcan)). unfold loadedTasks, written. simpl. by rewrite Hread. }
  rewrite Hload in Hmap.
  assert (map (get "fileId") (jsonItems results)
          = map (λ file, VStr (file_id file)) files) as Hsaved.
  { unfold results. rewrite passResults_persisted_fileIds.
    by apply passResults_all_ok. }
  apply map_ext_in. intros file Hfile.
  apply (update_after_own_index_targets_undefined _ _ _ _ _ Hmap).
  assert (In (VStr (file_id file)) (map (get "fileId") (jsonItems results)))
    as Hentry
    by (rewrite Hsaved; by apply (in_map (λ file0, VStr (file_id file0)))).
  apply in_map_iff in Hentry as (entry & Hentry & Hin).
  eapply createTaskMap_loop_has; [exact Hmap | by apply list_elem_of_In | done |].
  rewrite Forall_forall in Hids. by apply Hids, list_elem_of_In.
Qed.

(** C3 at a failing run. One file; the first pass creates task t-100 and
    saves the index. The second pass, over the same file, finds the
    file id in the index and takes the update path, but reads the task
    id from the [id] of the saved record, which has none: the request
    goes to task [undefined]. A task store that knows only t-100
    rejects it, so the second pass returns no record for the file and
    saves an empty index, and the third pass creates a second task for
    the same file. *)
Theorem second_pass_updates_no_task :
  let answers :=
    resolution ++ [taskCreated "t-100"] ++
    resolution ++ [RFail "Request failed with status code 404"] ++
    resolution ++ [taskCreated "t-101"] in
  let first := mirrorFilesToClickUp [docA]
                 (sampleWorld (Some sampleCreds) emptyDisk answers) in
  let second := mirrorFilesToClickUp [docA] first.1 in
  let third := mirrorFilesToClickUp [docA] second.1 in
  first.2 = Ok [indexedEntry] ∧
  index_file (disk first.1)
  = Some (Encodes (indexDoc "2024-03-01T06:00:00.000Z" [indexedEntry])) ∧
  requests second.1 !! 7%nat
  = Some (PutTask VUndef "Doc A [pdf]" docA sampleCreds) ∧
  second.2 = Ok [] ∧
  index_file (disk second.1)
  = Some (Encodes (indexDoc "2024-03-01T06:00:00.000Z" [])) ∧
  requests third.1 !! 11%nat
  = Some (PostTask (VStr "l1") "Doc A [pdf]" docA sampleCreds) ∧
  third.2 = Ok [VObj [("action", VStr "created"); ("fileId", VStr "f1");
                      ("taskId", VStr "t-101");
                      ("task", VObj [("id", VStr "t-101"); ("fileId", VStr "f1")])]].
Proof. vm_compute. repeat split. Qed.

(* ===================================================================== *)
(** ** Resolving the destination list *)
(* ===================================================================== *)

Lemma axios_run req w :
  axios req w =
  (tell [req] [] w,
   match service w (length (requests w)) with
   | RData data => Ok data
   | RFail message => Throw message
   end).
Proof.
  unfold axios. rewrite log_request_one.
  by destruct (service w (length (requests w))).
Qed.





(* ===================================================================== *)
(** ** A pass that fails before its loop *)
(* ===================================================================== *)

Section ResolvesOnly.
Context {A B : Type}.

Lemma resolves_only_still (m : M A) : (∀ w, (m w).1 = w) → resolves_only m.
Proof.
  intros Hm w. exists [], []. by rewrite Hm, tell_nil.
Qed.

Lemma resolves_only_bind (m : M A) (k : A → M B) :
  resolves_only m → (∀ a, resolves_only (k a)) → resolves_only (bind m k).
Proof.
  intros Hm Hk w. unfold bind. destruct (Hm w) as (reqs & calls & Hw & Hreqs).
  destruct (m w) as [w1 [a|e]]; simpl in *; subst w1; [|eauto].
  destruct (Hk a (tell reqs calls w)) as (reqs' & calls' & -> & Hreqs').
  exists (reqs ++ reqs'), (calls ++ calls').
  split; [by rewrite tell_tell | by apply Forall_app].
Qed.

Lemma resolves_only_try_catch (m : M A) (h : string → M A) :
  resolves_only m → (∀ e, resolves_only (h e)) → resolves_only (try_catch m h).
Proof.
  intros Hm Hh w. unfold try_catch. destruct (Hm w) as (reqs & calls & Hw & Hreqs).
  destruct (m w) as [w1 [a|e]]; simpl in *; subst w1; [eauto|].
  destruct (Hh e (tell reqs calls w)) as (reqs' & calls' & -> & Hreqs').
  exists (reqs ++ reqs'), (calls ++ calls').
  split; [by rewrite tell_tell | by apply Forall_app].
Qed.

Lemma resolves_only_if (b : bool) (m1 m2 : M A) :
  resolves_only m1 → resolves_only m2 → resolves_only (if b then m1 else m2).
Proof. by destruct b. Qed.
End ResolvesOnly.

Lemma resolves_only_axios req :
  is_task_request req = false → resolves_only (axios req).
Proof.
  intros Hreq w. exists [req], []. rewrite axios_run. split; [done|].
  by constructor.
Qed.

Lemma resolves_only_logger_info message : resolves_only (logger_info message).
Proof. intros w. exists [], [LogInfo message]. split; [apply log_line_one | done]. Qed.

Lemma resolves_only_logger_error message : resolves_only (logger_error message).
Proof. intros w. exists [], [LogError message]. split; [apply log_line_one | done]. Qed.

Create HintDb resolves discriminated.
#[local] Hint Resolve resolves_only_logger_info resolves_only_logger_error : resolves.
#[local] Hint Extern 1 (resolves_only (ret _)) =>
  apply resolves_only_still; reflexivity : resolves.
#[local] Hint Extern 1 (resolves_only (throw _)) =>
  apply resolves_only_still; reflexivity : resolves.
#[local] Hint Extern 1 (resolves_only (lift _)) =>
  apply resolves_only_still; reflexivity : resolves.
#[local] Hint Extern 1 (resolves_only (axios _)) =>
  apply resolves_only_axios; reflexivity : resolves.
#[local] Hint Extern 2 (resolves_only (bind _ _)) =>
  apply resolves_only_bind; [|intros ?] : resolves.
#[local] Hint Extern 2 (resolves_only (try_catch _ _)) =>
  apply resolves_only_try_catch; [|intros ?] : resolves.
#[local] Hint Extern 2 (resolves_only (if _ then _ else _)) =>
  apply resolves_only_if : resolves.
#[local] Hint Extern 3 (resolves_only (logCreated _ _)) =>
  unfold logCreated : resolves.

Lemma getOrCreateMainList_resolves_only creds :
  resolves_only (getOrCreateMainList creds).
Proof. unfold getOrCreateMainList. auto 60 with resolves. Qed.

(** The prelude logs its start, then only sends container requests and
    logs. *)
Lemma passPrelude_resolves_only w :
  ∃ reqs calls,
    (passPrelude w).1
    = tell reqs (LogInfo "Starting ClickUp mirroring operation..." :: calls) w ∧
    Forall (λ req, is_task_request req = false) reqs.
Proof.
  assert (resolves_only
            (clickupCreds <- getClickUpCredentials ;;
             if negb (present (apiKey clickupCreds)) ||
                negb (present (workspaceId clickupCreds))
             then throw "Missing ClickUp credentials"
             else
               existingTasks <- getExistingTasks ;;
               existingTaskMap <- lift (createTaskMap existingTasks) ;;
               mainList <- getOrCreateMainList clickupCreds ;;
               ret (clickupCreds, existingTaskMap, mainList))) as Hrest.
  { apply resolves_only_bind.
    { apply resolves_only_still. intros w0. unfold getClickUpCredentials.
      by destruct (credentials_clickup w0). }
    intros creds. apply resolves_only_if; [auto with resolves|].
    apply resolves_only_bind.
    { intros w0. exists [], (loadLines (disk w0)).
      by rewrite getExistingTasks_run, tell_lines. }
    intros tasks. apply resolves_only_bind; [auto with resolves|].
    intros m. apply resolves_only_bind; [apply getOrCreateMainList_resolves_only|].
    auto with resolves. }
  destruct (Hrest (log_line (LogInfo "Starting ClickUp mirroring operation...") w))
    as (reqs & calls & Hw & Hreqs).
  exists reqs, calls. split; [|done].
  unfold passPrelude, bind at 1, logger_info. cbv beta iota.
  rewrite Hw. by rewrite log_line_one, tell_tell.
Qed.

(** What makes the prelude throw. *)
Lemma passPrelude_throws w :
  valid_credentials w = false ∨
  (∃ e, createTaskMap (loadedTasks (disk w)) = Throw e) ∨
  (∃ creds w' e, credentials_clickup w = Some creds ∧
                 getOrCreateMainList creds (started w) = (w', Throw e)) →
  ∃ w2 e, passPrelude w = (w2, Throw e).
Proof.
  intros Hcause.
  destruct (valid_credentials w) eqn:Hvalid;
    [|rewrite (passPrelude_without_credentials w Hvalid); eauto].
  destruct Hcause as [?|Hcause]; [done|].
  destruct (createTaskMap (loadedTasks (disk w))) as [m|e] eqn:Hmap;
    [|rewrite (passPrelude_broken_lookup w Hvalid e Hmap); eauto].
  destruct Hcause as [[e ?]|(creds & w' & e & Hcreds & Hlist)]; [done|].
  unfold valid_credentials in Hvalid.
  unfold passPrelude, bind at 1, logger_info.
  unfold bind at 1, getClickUpCredentials. cbn [credentials_clickup log_line].
  rewrite Hcreds in *. destruct creds as [key ws]. simpl in *.
  apply andb_prop in Hvalid as [-> ->]. simpl.
  unfold bind at 1. rewrite getExistingTasks_run. cbn [disk log_line].
  unfold bind at 1, lift. rewrite Hmap.
  rewrite log_line_one, tell_lines, log_lines_app. cbn [app]. fold (started w).
  unfold bind. rewrite Hlist. eauto.
Qed.

(** X2. A pass that fails before its loop, for want of credentials,
    over an index it cannot walk, or because the destination list
    cannot be resolved, returns the empty sequence having sent no task
    request and having left the index file and the count cache as they
    were. What it leaves is its journal: the line of its start first,
    and last the error, logged with its message and with its stack. *)
Theorem failed_prelude_touches_nothing (files : list File) (w : World) :
  valid_credentials w = false ∨
  (∃ e, createTaskMap (loadedTasks (disk w)) = Throw e) ∨
  (∃ creds w' e, credentials_clickup w = Some creds ∧
                 getOrCreateMainList creds (started w) = (w', Throw e)) →
  ∃ w' reqs calls e,
    mirrorFilesToClickUp files w = (w', Ok []) ∧
    disk w' = disk w ∧
    taskCountCache w' = taskCountCache w ∧ lastSyncTime w' = lastSyncTime w ∧
    requests w' = requests w ++ reqs ∧
    Forall (λ req, is_task_request req = false) reqs ∧
    journal w'
    = journal w ++
      LogInfo "Starting ClickUp mirroring operation..." :: calls ++
      [LogError ("ClickUp mirroring failed: " +:+ e); LogErrorStack e].
Proof.
  intros Hcause. destruct (passPrelude_throws w Hcause) as (w2 & e & Hpre).
  destruct (passPrelude_resolves_only w) as (reqs & calls & Hw2 & Hreqs).
  rewrite Hpre in Hw2. simpl in Hw2. subst w2.
  eexists _, reqs, calls, e.
  split; [by eapply mirror_after_failed_prelude|]. simpl.
  repeat split; try done. by rewrite <- !app_assoc.
Qed.

Lemma failed_prelude_touches_nothing_witness :
  ∃ w' reqs calls e,
    mirrorFilesToClickUp [docA; docB]
      (sampleWorld (Some sampleCreds) indexedDisk
         [RData (VObj [("spaces", VArr [container "s1" "IMMORTAL STACK"])]);
          RFail "Request failed with status code 429"])
    = (w', Ok []) ∧
    disk w' = indexedDisk ∧
    taskCountCache w' = None ∧ lastSyncTime w' = None ∧
    requests w' = [] ++ reqs ∧
    Forall (λ req, is_task_request req = false) reqs ∧
    journal w'
    = [] ++
      LogInfo "Starting ClickUp mirroring operation..." :: calls ++
      [LogError ("ClickUp mirroring failed: " +:+ e); LogErrorStack e].
Proof.
  apply (failed_prelude_touches_nothing [docA; docB]
           (sampleWorld (Some sampleCreds) indexedDisk
              [RData (VObj [("spaces", VArr [container "s1" "IMMORTAL STACK"])]);
               RFail "Request failed with status code 429"])).
  right. right. eexists sampleCreds, _, _. split; [reflexivity|].
  vm_compute. reflexivity.
Defined.

Lemma createTaskMap_loop_null ts : ∀ m,
  VNull ∈ ts → ∃ e, createTaskMap_loop ts m = Throw e.
Proof.
  induction ts as [|t rest IH]; intros m Hin; [by apply elem_of_nil in Hin|].
  simpl. apply elem_of_cons in Hin as [<-|Hin]; [simpl; eauto|].
  destruct (prop "fileId" t) as [fileId|e]; [|eauto].
  destruct t as [| | | | | |entry]; by apply IH.
Qed.

(** A pass over an index whose [tasks] cannot be walked. *)
Lemma broken_index_pass files w doc :
  valid_credentials w = true →
  index_file (disk w) = Some (Encodes doc) →
  read_error (disk w) = false →
  broken_tasks (get "tasks" doc) →
  ∃ e, createTaskMap (get "tasks" doc) = Throw e ∧
       mirrorFilesToClickUp files w = (log_lines (failedPassLines e) w, Ok []).
Proof.
  intros Hvalid Hfile Hread Hbroken.
  assert (nullish doc = false) as Hdoc by (by destruct doc).
  assert (loadedTasks (disk w) = get "tasks" doc) as Hload.
  { unfold loadedTasks. rewrite Hfile, Hread, Hdoc. simpl.
    assert (truthy (get "tasks" doc) = true) as ->; [|done].
    destruct (get "tasks" doc); simpl in *; try done.
    by apply negb_true_iff, Z.eqb_neq. }
  assert (loadLines (disk w) = []) as Hquiet.
  { unfold loadLines, loadFailure, prop. by rewrite Hfile, Hread, Hdoc. }
  assert (∃ e, createTaskMap (get "tasks" doc) = Throw e) as [e Hmap].
  { destruct (get "tasks" doc); simpl in *; try done; eauto.
    by apply createTaskMap_loop_null. }
  exists e. split; [done|].
  rewrite <- Hload in Hmap.
  rewrite (mirror_after_failed_prelude _ _ _ _
             (passPrelude_broken_lookup w Hvalid e Hmap)).
  unfold started. by rewrite Hquiet, log_lines_app.
Qed.

(** X3. While the index file holds a [tasks] array with a [null] entry,
    or a truthy [tasks] that is not iterable, every pass returns the
    empty sequence and changes nothing but the journal, where it logs
    its start and the error of the lookup: no request is sent and the
    index is never rewritten, so the next pass meets the same file and
    ends the same way. *)
Theorem broken_index_blocks_every_pass (files : list File) (w : World)
    (doc : value) :
  valid_credentials w = true →
  index_file (disk w) = Some (Encodes doc) →
  read_error (disk w) = false →
  broken_tasks (get "tasks" doc) →
  ∃ e, createTaskMap (get "tasks" doc) = Throw e ∧
       mirrorFilesToClickUp files w = (log_lines (failedPassLines e) w, Ok []) ∧
       ∀ files',
         mirrorFilesToClickUp files' (log_lines (failedPassLines e) w)
         = (log_lines (failedPassLines e) (log_lines (failedPassLines e) w), Ok []).
Proof.
  intros Hvalid Hfile Hread Hbroken.
  destruct (broken_index_pass files w doc Hvalid Hfile Hread Hbroken)
    as (e & Hmap & Hrun).
  exists e. split; [done|]. split; [done|]. intros files'.
  destruct (broken_index_pass files' (log_lines (failedPassLines e) w) doc
              Hvalid Hfile Hread Hbroken) as (e' & Hmap' & Hrun').
  rewrite Hmap in Hmap'. by injection Hmap' as <-.
Qed.

Lemma broken_index_blocks_every_pass_witness :
  mirrorFilesToClickUp [docA; docB]
    (sampleWorld (Some sampleCreds) poisonedDisk (resolution ++ [taskCreated "t-100"]))
  = (log_lines
       (failedPassLines "Cannot read properties of null (reading 'fileId')")
       (sampleWorld (Some sampleCreds) poisonedDisk
          (resolution ++ [taskCreated "t-100"])),
     Ok []).
Proof.
  destruct (broken_index_blocks_every_pass [docA; docB]
              (sampleWorld (Some sampleCreds) poisonedDisk
                 (resolution ++ [taskCreated "t-100"]))
              (VObj [("generatedAt", VStr "2024-03-01T00:00:00.000Z");
                     ("totalTasks", VNum 2);
                     ("tasks", VArr [VObj [("fileId", VStr "f1")]; VNull])]))
    as (e & Hmap & Hrun & _).
  - reflexivity.
  - reflexivity.
  - reflexivity.
  - simpl. right. left.
  - vm_compute in Hmap. injection Hmap as <-. exact Hrun.
Defined.

(* ===================================================================== *)
(** ** Save, then load *)
(* ===================================================================== *)

(** X4. What a successful save wrote is what the next load returns: the
    tasks as JSON keeps them, and the very same tasks when they are
    JSON already (the disk being readable). *)
Theorem saved_tasks_load_back (ts : list value) (w w' : World) (p : Path) :
  saveTaskIndex (VArr ts) w = (w', Ok (Some p)) →
  read_error (disk w) = false →
  getExistingTasks w' = (w', Ok (VArr (jsonItems ts))) ∧
  (forallb is_json ts = true → getExistingTasks w' = (w', Ok (VArr ts))).
Proof.
  intros Hsave Hread.
  pose proof (saveTaskIndex_path_means_written _ _ _ _ Hsave) as Hcan.
  rewrite (saveTaskIndex_written ts w Hcan) in Hsave. injection Hsave as <- _.
  set (w1 := log_line _ _).
  assert (getExistingTasks w1 = (w1, Ok (VArr (jsonItems ts)))) as Hload.
  { rewrite getExistingTasks_quiet.
    - unfold loadedTasks. simpl. by rewrite Hread.
    - unfold loadFailure. simpl. by rewrite Hread. }
  split; [done|]. intros Hjson. by rewrite Hload, jsonItems_fixes_json.
Qed.

Lemma saved_tasks_load_back_witness :
  getExistingTasks
    (saveTaskIndex (VArr [indexedEntry]) (sampleWorld None emptyDisk [])).1
  = ((saveTaskIndex (VArr [indexedEntry]) (sampleWorld None emptyDisk [])).1,
     Ok (VArr [indexedEntry])).
Proof.
  eapply (saved_tasks_load_back [indexedEntry] (sampleWorld None emptyDisk []) _
            TASK_INDEX_PATH).
  - vm_compute. reflexivity.
  - reflexivity.
  - reflexivity.
Defined.

(* ===================================================================== *)
(** ** The lookup by file id *)
(* ===================================================================== *)

(** An entry that has a key is an object, and the loop files it. *)
Lemma createTaskMap_loop_files task rest m k :
  entry_key task = Some k →
  ∃ fields, task = VObj fields ∧
            createTaskMap_loop (task :: rest) m
            = createTaskMap_loop rest (dict_set k fields m).
Proof.
  unfold entry_key. intros Hkey.
  destruct task as [| | | | | |fields]; simpl in Hkey; try done.
  exists fields. split; [done|]. simpl.
  destruct (truthy (lookup_field "fileId" fields)); [|done].
  by injection Hkey as ->.
Qed.

(** An entry without a key that does not stop the loop is passed
    over. *)
Lemma createTaskMap_loop_passes task rest m m' :
  createTaskMap_loop (task :: rest) m = Ok m' → entry_key task = None →
  createTaskMap_loop rest m = Ok m'.
Proof.
  unfold entry_key. simpl. unfold prop.
  destruct (nullish task) eqn:Hnull; [done|].
  destruct task as [| | | | | |fields]; simpl; try done.
  by destruct (truthy (lookup_field "fileId" fields)).
Qed.

Lemma createTaskMap_loop_sound ts : ∀ m0 m k e,
  createTaskMap_loop ts m0 = Ok m → own m !! k = Some e →
  own m0 !! k = Some e ∨ (e ∈ ts ∧ entry_key e = Some k).
Proof.
  induction ts as [|t rest IH]; intros m0 m k e Hrun Hlook.
  - injection Hrun as <-. by left.
  - destruct (entry_key t) as [kt|] eqn:Hkt.
    + destruct (createTaskMap_loop_files t rest m0 kt Hkt) as (fields & -> & Hstep).
      rewrite Hstep in Hrun.
      destruct (IH _ _ _ _ Hrun Hlook) as [Hprev|[Hin Hkey]];
        [|right; split; [by right | done]].
      apply dict_set_own in Hprev as [?|[-> ->]]; [by left|].
      right. split; [by left | done].
    + apply createTaskMap_loop_passes in Hrun; [|done].
      destruct (IH _ _ _ _ Hrun Hlook) as [?|[Hin Hkey]]; [by left|].
      right. split; [by right | done].
Qed.

Lemma dict_set_other key task m k :
  key ≠ k → own (dict_set key task m) !! k = own m !! k.
Proof.
  intros Hne. unfold dict_set. destruct (_ && _ && _); cbn [own]; [done|].
  by rewrite lookup_insert_ne.
Qed.

Lemma dict_set_named key task m :
  key ≠ "__proto__" →
  dict_set key task m
  = {| own := <[key := VObj task]> (own m); prototype := prototype m |}.
Proof. intros Hne%String.eqb_neq. unfold dict_set. by rewrite Hne. Qed.

Lemma createTaskMap_loop_skips ts : ∀ m0 m k,
  createTaskMap_loop ts m0 = Ok m →
  Forall (λ t, entry_key t ≠ Some k) ts →
  own m !! k = own m0 !! k.
Proof.
  induction ts as [|t rest IH]; intros m0 m k Hrun Hskip.
  - by injection Hrun as <-.
  - apply Forall_cons in Hskip as [Ht Hrest].
    destruct (entry_key t) as [kt|] eqn:Hkt.
    + destruct (createTaskMap_loop_files t rest m0 kt Hkt) as (fields & -> & Hstep).
      rewrite Hstep in Hrun. rewrite (IH _ _ _ Hrun Hrest).
      apply dict_set_other. congruence.
    + apply createTaskMap_loop_passes in Hrun; [|done]. by apply IH.
Qed.

(** Without an entry filed under [__proto__] the prototype stays. *)
Lemma createTaskMap_loop_same_prototype ts : ∀ m0 m,
  createTaskMap_loop ts m0 = Ok m →
  Forall (λ t, entry_key t ≠ Some "__proto__") ts →
  prototype m = prototype m0.
Proof.
  induction ts as [|t rest IH]; intros m0 m Hrun Hskip.
  - by injection Hrun as <-.
  - apply Forall_cons in Hskip as [Ht Hrest].
    destruct (entry_key t) as [kt|] eqn:Hkt.
    + destruct (createTaskMap_loop_files t rest m0 kt Hkt) as (fields & -> & Hstep).
      rewrite Hstep in Hrun. rewrite (IH _ _ Hrun Hrest).
      rewrite dict_set_named by congruence. done.
    + apply createTaskMap_loop_passes in Hrun; [|done]. by apply IH.
Qed.

Lemma createTaskMap_loop_app pre : ∀ post m0 m,
  createTaskMap_loop (pre ++ post) m0 = Ok m →
  ∃ m1, createTaskMap_loop pre m0 = Ok m1 ∧ createTaskMap_loop post m1 = Ok m.
Proof.
  induction pre as [|t rest IH]; intros post m0 m Hrun; simpl in *; [eauto|].
  destruct (prop "fileId" t) as [fileId|e]; [|done].
  destruct t as [| | | | | |fields]; by apply IH.
Qed.

(** X5. The lookup [createTaskMap] builds reads as a plain object does.
    Every property of its own is an entry of the index filed under the
    text of its file id, and reading under that id gives the entry.
    When several entries carry the same file id, other than
    [__proto__], the last one is the one found.  When no entry is
    filed under [__proto__], the prototype is [Object.prototype], and
    reading under a name that has no entry gives [undefined], except
    for the names every object inherits ([constructor], [toString],
    ..., [__proto__]): those give the inherited member. *)
Theorem createTaskMap_finds_last_entry (ts : list value) (m : Dict) :
  createTaskMap (VArr ts) = Ok m →
  (∀ k e, own m !! k = Some e →
          e ∈ ts ∧ entry_key e = Some k ∧ dict_get k m = Held e) ∧
  (∀ pre e post k,
     ts = pre ++ e :: post → entry_key e = Some k → k ≠ "__proto__" →
     Forall (λ t, entry_key t ≠ Some k) post →
     dict_get k m = Held e) ∧
  (Forall (λ t, entry_key t ≠ Some "__proto__") ts →
   prototype m = None ∧
   ∀ k, own m !! k = None →
        dict_get k m = if inherited k then Builtin else Held VUndef).
Proof.
  simpl. intros Hrun. split; [|split].
  - intros k e Hlook.
    destruct (createTaskMap_loop_sound _ _ _ _ _ Hrun Hlook) as [Hempty|[? ?]].
    { cbn [emptyDict own] in Hempty. by rewrite lookup_empty in Hempty. }
    split; [done|]. split; [done|]. by apply dict_get_own.
  - intros pre e post k -> Hkey Hname Hpost.
    destruct (createTaskMap_loop_app _ _ _ _ Hrun) as (m1 & _ & Hrest).
    destruct (createTaskMap_loop_files e post m1 k Hkey) as (fields & -> & Hstep).
    rewrite Hstep in Hrest. apply dict_get_own.
    rewrite (createTaskMap_loop_skips _ _ _ _ Hrest Hpost).
    rewrite dict_set_named by done. apply lookup_insert_eq.
  - intros Hnone.
    pose proof (createTaskMap_loop_same_prototype _ _ _ Hrun Hnone) as Hproto.
    cbn [emptyDict prototype] in Hproto. split; [done|].
    intros k Hown. unfold dict_get. by rewrite Hown, Hproto.
Qed.

Lemma createTaskMap_finds_last_entry_witness :
  let entries :=
    [VObj [("fileId", VStr "f1"); ("id", VStr "t-1")];
     VObj [("fileId", VStr "f1"); ("id", VStr "t-2")];
     VObj [("fileId", VStr "f2")]] in
  ∃ m, createTaskMap (VArr entries) = Ok m ∧
       dict_get "f1" m = Held (VObj [("fileId", VStr "f1"); ("id", VStr "t-2")]) ∧
       dict_get "f3" m = Held VUndef ∧
       dict_get "constructor" m = Builtin.
Proof.
  intros entries.
  set (m := {| own := <["f1" := VObj [("fileId", VStr "f1"); ("id", VStr "t-2")]]>
                        (<["f2" := VObj [("fileId", VStr "f2")]]> ∅);
               prototype := None |}).
  assert (createTaskMap (VArr entries) = Ok m) as Hmap by (vm_compute; reflexivity).
  destruct (createTaskMap_finds_last_entry entries m Hmap) as (_ & Hlast & Hmiss).
  exists m. split; [exact Hmap|]. split; [|split].
  - apply (Hlast [VObj [("fileId", VStr "f1"); ("id", VStr "t-1")]]
             (VObj [("fileId", VStr "f1"); ("id", VStr "t-2")])
             [VObj [("fileId", VStr "f2")]] "f1").
    + reflexivity.
    + reflexivity.
    + discriminate.
    + repeat constructor. vm_compute. congruence.
  - destruct Hmiss as [_ Hmiss].
    + repeat constructor; vm_compute; congruence.
    + apply (Hmiss "f3"). reflexivity.
  - destruct Hmiss as [_ Hmiss].
    + repeat constructor; vm_compute; congruence.
    + apply (Hmiss "constructor"). reflexivity.
Defined.

(* ===================================================================== *)
(** ** The task count after a pass *)
(* ===================================================================== *)

(** A pass that reaches its end records the number of its records and
    the time, whether or not the index could be written. *)
Lemma mirror_after_prelude_cache files w w2 creds m mainList :
  passPrelude w = (w2, Ok (creds, m, mainList)) →
  let w' := (mirrorFilesToClickUp files w).1 in
  taskCountCache w'
  = Some (length (passResults m files (length (requests w2)) (service w))) ∧
  lastSyncTime w' = Some (now w).
Proof.
  intros Hpre.
  destruct (mirror_after_prelude files _ _ _ _ _ Hpre)
    as (w1 & saved & -> & _ & _ & _ & Hcount & Htime & _).
  done.
Qed.

(** X6. After a pass that reached its end, [getTaskCount] answers the
    number of records of that pass: for an hour whatever the disk
    holds, and at any time when the pass could write the index and the
    index can be read. *)
Theorem count_after_pass_is_its_records (files : list File) (w w2 : World)
    (creds : Creds) (m : Dict) (mainList : value)
    (epoch : string → Z) (nowMs : Z) :
  passPrelude w = (w2, Ok (creds, m, mainList)) →
  let w' := (mirrorFilesToClickUp files w).1 in
  let count := VNum (Z.of_nat (length
                 (passResults m files (length (requests w2)) (service w)))) in
  (nowMs - epoch (now w) < 3600000 →
   ∀ d, (getTaskCount nowMs d (syncCacheOf epoch w')).2 = count) ∧
  (can_write (disk w) = true → read_error (disk w) = false →
   (getTaskCount nowMs (disk w') (syncCacheOf epoch w')).2 = count).
Proof.
  intros Hpre w' count.
  destruct (mirror_after_prelude_cache files _ _ _ _ _ Hpre) as [Hcount Htime].
  fold w' in Hcount, Htime.
  assert (∀ d, nowMs - epoch (now w) < 3600000 →
               (getTaskCount nowMs d (syncCacheOf epoch w')).2 = count) as Hfresh.
  { intros d Hnow. unfold getTaskCount, syncCacheOf. rewrite Hcount, Htime. simpl.
    by rewrite (proj2 (Z.ltb_lt _ _) Hnow). }
  split; [by intros ? ?; apply Hfresh|].
  intros Hcan Hread.
  destruct (Z.lt_ge_cases (nowMs - epoch (now w)) 3600000) as [Hnow|Hlate];
    [by apply Hfresh|].
  destruct (mirror_after_prelude files _ _ _ _ _ Hpre)
    as (w1 & saved & Hrun & _ & Hdisk & _).
  unfold w' in *. rewrite Hrun in *. simpl in *.
  unfold getTaskCount, syncCacheOf. rewrite Hcount, Htime. simpl.
  rewrite (proj2 (Z.ltb_ge _ _) Hlate), (proj1 (Hdisk Hcan)). simpl.
  unfold readIndexText, written. simpl. rewrite Hread. simpl.
  unfold count, jsonItems. by rewrite length_map.
Qed.

Lemma count_after_pass_is_its_records_witness :
  (getTaskCount 21600000 emptyDisk
     (syncCacheOf sampleEpoch
        (mirrorFilesToClickUp [docA; docB]
           (sampleWorld (Some sampleCreds) readOnlyDisk
              (resolution ++ [taskCreated "t-100"; taskCreated "t-101"]))).1)).2
  = VNum 2.
Proof.
  destruct (count_after_pass_is_its_records [docA; docB]
              (sampleWorld (Some sampleCreds) readOnlyDisk
                 (resolution ++ [taskCreated "t-100"; taskCreated "t-101"]))
              (afterResolution
                 (sampleWorld (Some sampleCreds) readOnlyDisk
                    (resolution ++ [taskCreated "t-100"; taskCreated "t-101"])))
              sampleCreds emptyDict fileTasksList sampleEpoch 21600000)
    as [Hfresh _].
  - vm_compute. reflexivity.
  - apply Hfresh. vm_compute. reflexivity.
Defined.

(** X7. When the index could not be written and there was no index
    file, the count of a pass is forgotten after an hour:
    [getTaskCount] then answers 0, however many records the pass
    returned, and leaves the cache as it is. *)
Theorem unsaved_count_expires (files : list File) (w w2 : World)
    (creds : Creds) (m : Dict) (mainList : value)
    (epoch : string → Z) (nowMs : Z) :
  passPrelude w = (w2, Ok (creds, m, mainList)) →
  can_write (disk w) = false →
  index_file (disk w) = None →
  3600000 ≤ nowMs - epoch (now w) →
  let w' := (mirrorFilesToClickUp files w).1 in
  getTaskCount nowMs (disk w') (syncCacheOf epoch w')
  = (syncCacheOf epoch w', VNum 0).
Proof.
  intros Hpre Hcan Hfile Hlate w'.
  destruct (mirror_after_prelude_cache files _ _ _ _ _ Hpre) as [Hcount Htime].
  fold w' in Hcount, Htime.
  destruct (mirror_after_prelude files _ _ _ _ _ Hpre)
    as (w1 & saved & Hrun & _ & _ & Hkept & _).
  assert (index_file (disk w') = None) as Hnone.
  { unfold w'. rewrite Hrun. simpl. by rewrite (proj1 (Hkept Hcan)). }
  unfold getTaskCount. rewrite Hnone.
  unfold syncCacheOf at 1 2. rewrite Hcount, Htime. simpl.
  by rewrite (proj2 (Z.ltb_ge _ _) Hlate).
Qed.

Lemma unsaved_count_expires_witness :
  (getTaskCount 25200000
     (disk (mirrorFilesToClickUp [docA]
              (sampleWorld (Some sampleCreds) readOnlyDisk
                 (resolution ++ [taskCreated "t-100"]))).1)
     (syncCacheOf sampleEpoch
        (mirrorFilesToClickUp [docA]
           (sampleWorld (Some sampleCreds) readOnlyDisk
              (resolution ++ [taskCreated "t-100"]))).1)).2
  = VNum 0.
Proof.
  rewrite (unsaved_count_expires [docA]
             (sampleWorld (Some sampleCreds) readOnlyDisk
                (resolution ++ [taskCreated "t-100"]))
             (afterResolution
                (sampleWorld (Some sampleCreds) readOnlyDisk
                   (resolution ++ [taskCreated "t-100"])))
             sampleCreds emptyDict fileTasksList sampleEpoch 25200000).
  - reflexivity.
  - vm_compute. reflexivity.
  - reflexivity.
  - reflexivity.
  - vm_compute. congruence.
Defined.

(* ===================================================================== *)
(** ** The vault *)
(* ===================================================================== *)

Lemma none_missing_iff (ok : string → bool) (names : list string) :
  List.filter (λ name, negb (ok name)) names = [] ↔
  Forall (λ name, ok name = true) names.
Proof.
  induction names as [|v vs IH]; simpl.
  - split; [constructor | done].
  - destruct (ok v) eqn:Hv; simpl.
    + rewrite IH. split; [by constructor | by intros [_ ?]%Forall_cons].
    + split; [done | intros [? _]%Forall_cons; congruence].
Qed.

Lemma loadEnvironment_loaded_iff ex env c :
  (loadEnvironment ex env c).2 = Loaded ↔
  ex = true ∧ Forall (λ varName, present (env !! varName) = true) requiredVars.
Proof.
  unfold loadEnvironment.
  destruct ex; cbn [negb]; [|split; [done | by intros [? _]]].
  rewrite <- (none_missing_iff (λ varName, present (env !! varName))).
  destruct (List.filter _ requiredVars) as [|v vs]; simpl.
  - split; [by intros _ | done].
  - split; [done | by intros [_ ?]].
Qed.

(** X8. [loadEnvironment] reports [loaded] exactly when the [.env] file
    exists and the five required variables are all set and non-empty;
    whenever it does not, the credentials are left as they were. *)
Theorem loadEnvironment_loads_iff_required_set (envFileExists : bool)
    (env : gmap string string) (credentials : Credentials) :
  ((loadEnvironment envFileExists env credentials).2 = Loaded ↔
   envFileExists = true ∧
   Forall (λ varName, present (env !! varName) = true) requiredVars) ∧
  ((loadEnvironment envFileExists env credentials).2 ≠ Loaded →
   (loadEnvironment envFileExists env credentials).1 = credentials).
Proof.
  split; [apply loadEnvironment_loaded_iff|].
  unfold loadEnvironment. destruct envFileExists; simpl; [|done].
  by destruct (0 <? length _)%nat.
Qed.

Lemma loadEnvironment_loads_iff_required_set_witness :
  (loadEnvironment true (delete "CLICKUP_API_KEY" sampleEnv) noCredentials).1
  = noCredentials.
Proof.
  destruct (loadEnvironment_loads_iff_required_set true
              (delete "CLICKUP_API_KEY" sampleEnv) noCredentials) as [_ Hkept].
  apply Hkept. vm_compute. congruence.
Defined.

(** X9. After a load that reported [loaded], the ClickUp credentials are
    the two environment variables, [getClickUpCredentials] returns
    them, and the credentials check of a pass goes through; before
    any load, [getClickUpCredentials] throws, and a pass logs its
    start and that TypeError, with its stack, and returns the empty
    sequence, nothing else being touched. *)
Theorem loaded_vault_passes_credentials_check (env : gmap string string)
    (credentials credentials' : Credentials) (w : World) :
  loadEnvironment true env credentials = (credentials', Loaded) →
  getClickUpCredentials (with_vault credentials' w)
  = (with_vault credentials' w,
     Ok {| apiKey := env !! "CLICKUP_API_KEY";
           workspaceId := env !! "CLICKUP_WORKSPACE_ID" |}) ∧
  valid_credentials (with_vault credentials' w) = true ∧
  getClickUpCredentials (with_vault noCredentials w)
  = (with_vault noCredentials w,
     Throw "Cannot read properties of null (reading 'apiKey')") ∧
  (∀ files,
     mirrorFilesToClickUp files (with_vault noCredentials w)
     = (log_lines
          (failedPassLines "Cannot read properties of null (reading 'apiKey')")
          (with_vault noCredentials w),
        Ok [])).
Proof.
  intros Hload.
  assert ((loadEnvironment true env credentials).2 = Loaded) as Hloaded
    by (by rewrite Hload).
  apply loadEnvironment_loaded_iff in Hloaded as [_ Hall].
  unfold requiredVars in Hall.
  repeat (apply Forall_cons in Hall as [? Hall]).
  unfold loadEnvironment in Hload. simpl in Hload.
  destruct (0 <? length _)%nat; [done|]. injection Hload as <-.
  unfold getClickUpCredentials, valid_credentials. simpl.
  split; [reflexivity|]. split; [by apply andb_true_intro|].
  split; [reflexivity|].
  intros files. by rewrite mirror_without_credentials.
Qed.

Lemma loaded_vault_passes_credentials_check_witness :
  valid_credentials
    (with_vault (loadEnvironment true sampleEnv noCredentials).1
       (sampleWorld None emptyDisk [])) = true ∧
  journal (mirrorFilesToClickUp [docA]
             (with_vault noCredentials (sampleWorld None emptyDisk []))).1
  = failedPassLines "Cannot read properties of null (reading 'apiKey')".
Proof.
  destruct (loaded_vault_passes_credentials_check sampleEnv noCredentials
              (loadEnvironment true sampleEnv noCredentials).1
              (sampleWorld None emptyDisk []))
    as (_ & Hvalid & _ & Hpass).
  - vm_compute. reflexivity.
  - split; [exact Hvalid|]. by rewrite Hpass.
Defined.

(** X10. No load takes a credential away: whatever was stored stays
    stored (possibly renewed), and the Discord pair changes only when
    both the bot token and the webhook URL are set. *)
Theorem loadEnvironment_never_clears (envFileExists : bool)
    (env : gmap string string) (credentials : Credentials) :
  let credentials' := (loadEnvironment envFileExists env credentials).1 in
  (is_Some (cred_drive credentials) → is_Some (cred_drive credentials')) ∧
  (is_Some (cred_clickup credentials) → is_Some (cred_clickup credentials')) ∧
  (is_Some (cred_stripe credentials) → is_Some (cred_stripe credentials')) ∧
  (is_Some (cred_render credentials) → is_Some (cred_render credentials')) ∧
  (is_Some (cred_discord credentials) → is_Some (cred_discord credentials')) ∧
  (cred_discord credentials' ≠ cred_discord credentials →
   present (env !! "DISCORD_BOT_TOKEN") = true ∧
   present (env !! "DISCORD_WEBHOOK_URL") = true).
Proof.
  unfold loadEnvironment. destruct envFileExists; simpl; [|done].
  destruct (0 <? length _)%nat; simpl; [done|].
  repeat split; try done.
  - by destruct (present (env !! "STRIPE_SECRET_KEY")).
  - by destruct (present (env !! "RENDER_API_KEY")).
  - by destruct (present (env !! "DISCORD_BOT_TOKEN") &&
                 present (env !! "DISCORD_WEBHOOK_URL")).
  - by destruct (present (env !! "DISCORD_BOT_TOKEN")),
                (present (env !! "DISCORD_WEBHOOK_URL")).
  - by destruct (present (env !! "DISCORD_BOT_TOKEN")),
                (present (env !! "DISCORD_WEBHOOK_URL")).
Qed.

Lemma loadEnvironment_never_clears_witness :
  is_Some (cred_stripe (loadEnvironment true sampleEnv stripeOnly).1).
Proof.
  destruct (loadEnvironment_never_clears true sampleEnv stripeOnly)
    as (_ & _ & Hstripe & _).
  apply Hstripe. eexists. reflexivity.
Defined.

(* ===================================================================== *)
(** ** The scheduler's registry *)
(* ===================================================================== *)

(** What [scheduleTask] does with an expression the library accepts. *)
Lemma scheduleTask_valid lib nowMs name expr s :
  cron_validate lib expr = true →
  scheduleTask lib nowMs name expr s =
  ({| scheduledTasks := <[name := length (cronJobs s)]> (scheduledTasks s);
      nextRunTimes := match cron_nextDate lib expr nowMs with
                      | Ok nextDate =>
                          match cron_toDate lib nextDate with
                          | Ok date => <[name := date]> (nextRunTimes s)
                          | Throw _ => nextRunTimes s
                          end
                      | Throw _ => nextRunTimes s
                      end;
      cronJobs := cronJobs s ++
                  [{| job_expression := expr; job_callback := RunTask name expr;
                      job_running := true |};
                   {| job_expression := expr; job_callback := Noop;
                      job_running := match cron_nextDate lib expr nowMs with
                                     | Ok _ => false
                                     | Throw _ => true
                                     end |}] |},
   true).
Proof.
  intros Hvalid. unfold scheduleTask, updateNextRunTime, cron_schedule, cron_stop.
  rewrite Hvalid. simpl.
  destruct (cron_nextDate lib expr nowMs) as [nextDate|e]; simpl.
  - destruct (cron_toDate lib nextDate) as [date|e]; simpl.
    + f_equal. f_equal.
      rewrite <- (Nat.add_0_r (length (cronJobs s ++ _))), alter_app_r. simpl.
      by rewrite <- app_assoc.
    + f_equal. f_equal.
      rewrite <- (Nat.add_0_r (length (cronJobs s ++ _))), alter_app_r. simpl.
      by rewrite <- app_assoc.
  - by rewrite <- app_assoc.
Qed.



(** X12. After [scheduleTask] accepted a task, the task is registered
    and a throw-away job was started to ask for its next date.  When
    the library gives the date, the throw-away job is stopped and the
    task's next run time is that date.  When [nextDate()] throws, the
    throw-away job is left running; when [toDate()] throws, the job was
    stopped before; in both cases what [getNextRunTime] answers for the
    name stays what it was. *)
Theorem next_run_time_after_scheduleTask (lib : CronLib) (nowMs : Z)
    (name expr : string) (s : Scheduler) :
  cron_validate lib expr = true →
  name ≠ "__proto__" →
  let s' := (scheduleTask lib nowMs name expr s).1 in
  let probe := S (length (cronJobs s)) in
  is_Some (scheduledTasks s' !! name) ∧
  (job_callback <$> cronJobs s' !! probe) = Some Noop ∧
  match cron_nextDate lib expr nowMs with
  | Throw _ =>
      runs s' probe ∧
      getNextRunTime lib name s' = getNextRunTime lib name s
  | Ok nextDate =>
      ¬ runs s' probe ∧
      match cron_toDate lib nextDate with
      | Ok date => getNextRunTime lib name s' = Ok (date_toISOString lib date)
      | Throw _ => getNextRunTime lib name s' = getNextRunTime lib name s
      end
  end.
Proof.
  intros Hvalid _. rewrite (scheduleTask_valid _ _ _ _ _ Hvalid). simpl.
  assert (∀ j1 j2 : CronJob, (cronJobs s ++ [j1; j2]) !! S (length (cronJobs s)) = Some j2)
    as Hprobe.
  { intros j1 j2. rewrite lookup_app_r by lia.
    by replace (S (length (cronJobs s)) - length (cronJobs s))%nat with 1%nat by lia. }
  split; [by rewrite lookup_insert_eq|]. rewrite Hprobe. split; [done|].
  unfold getNextRunTime, runs. simpl.
  destruct (cron_nextDate lib expr nowMs) as [nextDate|e]; simpl.
  - split.
    + intros (j & Hj & Hrun). rewrite Hprobe in Hj. by injection Hj as <-.
    + destruct (cron_toDate lib nextDate) as [date|e]; [|done].
      by rewrite lookup_insert_eq.
  - rewrite Hprobe. split; [eauto | done].
Qed.

Lemma next_run_time_after_scheduleTask_witness :
  (runs (scheduleTask sampleLib 0 "ping" "*/5 * * * *" idleScheduler).1 1 ∧
   getNextRunTime sampleLib "ping"
     (scheduleTask sampleLib 0 "ping" "*/5 * * * *" idleScheduler).1
   = Ok "Not scheduled") ∧
  (¬ runs (scheduleTask sampleLib 0 "nightly" "0 0 * * *" idleScheduler).1 1 ∧
   getNextRunTime sampleLib "nightly"
     (scheduleTask sampleLib 0 "nightly" "0 0 * * *" idleScheduler).1
   = Ok "Not scheduled") ∧
  getNextRunTime sampleLib "scan"
    (scheduleTask sampleLib 0 "scan" "0 */6 * * *" idleScheduler).1
  = Ok "T+21600000".
Proof.
  split; [|split].
  - pose proof (next_run_time_after_scheduleTask sampleLib 0 "ping" "*/5 * * * *"
                  idleScheduler eq_refl ltac:(discriminate)) as Hthrown.
    simpl in Hthrown. destruct Hthrown as (_ & _ & Hruns & Htime).
    split; [exact Hruns | exact Htime].
  - pose proof (next_run_time_after_scheduleTask sampleLib 0 "nightly" "0 0 * * *"
                  idleScheduler eq_refl ltac:(discriminate)) as Hthrown.
    simpl in Hthrown. destruct Hthrown as (_ & _ & Hstopped & Htime).
    split; [exact Hstopped | exact Htime].
  - pose proof (next_run_time_after_scheduleTask sampleLib 0 "scan" "0 */6 * * *"
                  idleScheduler eq_refl ltac:(discriminate)) as Hdated.
    simpl in Hdated. destruct Hdated as (_ & _ & _ & Htime). exact Htime.
Defined.

Lemma stopTask_registered name job s :
  scheduledTasks s !! name = Some job →
  stopTask name s =
  ({| scheduledTasks := delete name (scheduledTasks s);
      nextRunTimes := delete name (nextRunTimes s);
      cronJobs := cronJobs (cron_stop job s) |}, true).
Proof. unfold stopTask. by intros ->. Qed.

Lemma stopTask_unregistered name s :
  scheduledTasks s !! name = None → stopTask name s = (s, false).
Proof. unfold stopTask. intros ->. by destruct (inherited name). Qed.

Lemma cron_stop_stops job s s' :
  cronJobs s' = cronJobs (cron_stop job s) → ¬ runs s' job.
Proof.
  intros Hjobs (j & Hj & Hrun). rewrite Hjobs in Hj.
  unfold cron_stop in Hj. simpl in Hj.
  rewrite list_lookup_alter in Hj. case_decide; [|done].
  destruct (cronJobs s !! job); simpl in Hj; [|done].
  by injection Hj as <-.
Qed.


(** X13. [stopTask] on a task that [scheduleTask] accepted answers
    [true], stops the task's job and forgets the name: it is no longer
    registered, and a second [stopTask] answers [false] and changes
    nothing.  Asked for the name's next run time, [getNextRunTime]
    answers 'Not scheduled', unless the name is one every object
    inherits ([constructor], [toString], ...): then it throws a
    TypeError.  For a name that is not registered [stopTask] answers
    [false] and changes nothing. *)
Theorem stopTask_forgets_scheduled_task (lib : CronLib) (nowMs : Z)
    (name expr : string) (s : Scheduler) :
  (cron_validate lib expr = true →
   name ≠ "__proto__" →
   let taskJob := length (cronJobs s) in
   let stopped := stopTask name (scheduleTask lib nowMs name expr s).1 in
   stopped.2 = true ∧
   ¬ runs stopped.1 taskJob ∧
   scheduledTasks stopped.1 !! name = None ∧
   getNextRunTime lib name stopped.1
   = (if inherited_function name
      then Throw "nextRunTimes[taskName].toISOString is not a function"
      else Ok "Not scheduled") ∧
   stopTask name stopped.1 = (stopped.1, false)) ∧
  (scheduledTasks s !! name = None → stopTask name s = (s, false)).
Proof.
  split; [|apply stopTask_unregistered].
  intros Hvalid Hname taskJob stopped.
  set (s1 := (scheduleTask lib nowMs name expr s).1) in *.
  assert (scheduledTasks s1 !! name = Some taskJob) as Hreg.
  { unfold s1. rewrite (scheduleTask_valid _ _ _ _ _ Hvalid). simpl.
    apply lookup_insert_eq. }
  unfold stopped. rewrite (stopTask_registered _ _ _ Hreg). cbn [fst snd].
  split; [done|]. split; [by eapply cron_stop_stops|].
  split; [apply lookup_delete_eq|]. split.
  - unfold getNextRunTime, inherited. cbn [nextRunTimes].
    rewrite lookup_delete_eq.
    apply String.eqb_neq in Hname. rewrite Hname. by rewrite orb_false_r.
  - apply stopTask_unregistered. apply lookup_delete_eq.
Qed.

Lemma stopTask_forgets_scheduled_task_witness :
  ((stopTask "scan" (scheduleTask sampleLib 0 "scan" "0 */6 * * *" idleScheduler).1).2
   = true ∧
   getNextRunTime sampleLib "scan"
     (stopTask "scan" (scheduleTask sampleLib 0 "scan" "0 */6 * * *" idleScheduler).1).1
   = Ok "Not scheduled") ∧
  getNextRunTime sampleLib "constructor"
    (stopTask "constructor"
       (scheduleTask sampleLib 0 "constructor" "0 */6 * * *" idleScheduler).1).1
  = Throw "nextRunTimes[taskName].toISOString is not a function" ∧
  stopTask "scan" idleScheduler = (idleScheduler, false).
Proof.
  split; [|split].
  - destruct (stopTask_forgets_scheduled_task sampleLib 0 "scan" "0 */6 * * *"
                idleScheduler) as [Hstop _].
    destruct (Hstop eq_refl ltac:(discriminate)) as (Htrue & _ & _ & Htime & _).
    split; [exact Htrue | exact Htime].
  - destruct (stopTask_forgets_scheduled_task sampleLib 0 "constructor" "0 */6 * * *"
                idleScheduler) as [Hstop _].
    destruct (Hstop eq_refl ltac:(discriminate)) as (_ & _ & _ & Htime & _).
    exact Htime.
  - destruct (stopTask_forgets_scheduled_task sampleLib 0 "scan" "0 */6 * * *"
                idleScheduler) as [_ Hnone].
    apply Hnone. reflexivity.
Defined.



Lemma foldl_min_least (times : list Z) : ∀ time,
  let least := foldl Z.min time times in
  least ∈ time :: times ∧ Forall (λ t, least ≤ t) (time :: times).
Proof.
  induction times as [|t ts IH]; intros time; simpl.
  - split; [by left | by repeat constructor].
  - destruct (IH (Z.min time t)) as [Hin Hall]. simpl in *.
    apply Forall_cons in Hall as [Hmin Hts].
    split.
    + apply elem_of_cons in Hin as [->|Hin]; [|by right; right].
      destruct (Z.min_spec time t) as [[_ ->]|[_ ->]]; [by left | by right; left].
    + repeat constructor; [lia | lia | done].
Qed.

(** X15. [getNextScheduledRun] answers 'No tasks scheduled' when no next
    run time is recorded, and otherwise the date of a recorded next
    run time that no other recorded time precedes. *)
Theorem getNextScheduledRun_is_earliest (lib : CronLib) (s : Scheduler) :
  (nextRunTimes s = ∅ → getNextScheduledRun lib s = "No tasks scheduled") ∧
  (nextRunTimes s ≠ ∅ →
   ∃ name time,
     nextRunTimes s !! name = Some time ∧
     getNextScheduledRun lib s = date_toISOString lib time ∧
     ∀ other time', nextRunTimes s !! other = Some time' → time ≤ time').
Proof.
  unfold getNextScheduledRun. split.
  - intros ->. by rewrite map_to_list_empty.
  - intros Hne.
    destruct ((map_to_list (nextRunTimes s)).*2) as [|time times] eqn:Htimes.
    { apply fmap_nil_inv in Htimes. by apply map_to_list_empty_iff in Htimes. }
    destruct (foldl_min_least times time) as [Hin Hall].
    rewrite <- Htimes in Hin, Hall.
    apply list_elem_of_fmap in Hin as ([name least] & Hleast & Hin).
    simpl in Hleast. apply elem_of_map_to_list in Hin.
    exists name, least. split; [done|]. split; [by rewrite Hleast|].
    intros other time' Hother. rewrite Forall_forall in Hall.
    rewrite Hleast in Hall. apply Hall.
    apply list_elem_of_fmap. exists (other, time'). split; [done|].
    by apply elem_of_map_to_list.
Qed.

Lemma getNextScheduledRun_is_earliest_witness :
  getNextScheduledRun sampleLib idleScheduler = "No tasks scheduled" ∧
  ∃ name time,
    nextRunTimes (scheduleTask sampleLib 0 "scan" "0 */6 * * *" idleScheduler).1
      !! name = Some time ∧
    getNextScheduledRun sampleLib
      (scheduleTask sampleLib 0 "scan" "0 */6 * * *" idleScheduler).1
    = date_toISOString sampleLib time.
Proof.
  split.
  - destruct (getNextScheduledRun_is_earliest sampleLib idleScheduler) as [Hnone _].
    apply Hnone. reflexivity.
  - destruct (getNextScheduledRun_is_earliest sampleLib
                (scheduleTask sampleLib 0 "scan" "0 */6 * * *" idleScheduler).1)
      as [_ Hsome].
    destruct Hsome as (name & time & Hlook & Hrun & _).
    + intros Hempty.
      assert (nextRunTimes
                (scheduleTask sampleLib 0 "scan" "0 */6 * * *" idleScheduler).1
                !! "scan" = None) as Hnone
        by (rewrite Hempty; apply lookup_empty).
      vm_compute in Hnone. discriminate Hnone.
    + exists name, time. split; assumption.
Defined.

(** What [getNextRunTime] does, by cases. *)
Lemma getNextRunTime_cases lib taskName s :
  getNextRunTime lib taskName s
  = match nextRunTimes s !! taskName with
    | None =>
        if inherited taskName
        then Throw "nextRunTimes[taskName].toISOString is not a function"
        else Ok (nextRunText lib taskName s)
    | Some _ => Ok (nextRunText lib taskName s)
    end.
Proof.
  unfold getNextRunTime, nextRunText.
  by destruct (nextRunTimes s !! taskName).
Qed.

(** The loop of [listScheduledTasks] either throws the TypeError of
    [getNextRunTime] or has stored an answer under every name it
    visited. *)
Lemma listScheduledTasks_loop_result lib s taskNames : ∀ tasks,
  match listScheduledTasks_loop lib s taskNames tasks with
  | Throw e =>
      e = "nextRunTimes[taskName].toISOString is not a function" ∧
      ∃ taskName, taskName ∈ taskNames ∧
                  nextRunTimes s !! taskName = None ∧ inherited taskName = true
  | Ok tasks' =>
      (∀ taskName, taskName ∈ taskNames →
                   nextRunTimes s !! taskName = None → inherited taskName = false) ∧
      ∀ taskName,
        tasks' !! taskName
        = if bool_decide (taskName ∈ taskNames)
          then Some (nextRunText lib taskName s)
          else tasks !! taskName
  end.
Proof.
  induction taskNames as [|name rest IH]; intros tasks;
    cbn [listScheduledTasks_loop].
  - split; [intros taskName Hin; by apply elem_of_nil in Hin|].
    intros taskName. rewrite bool_decide_eq_false_2; [done|]. apply not_elem_of_nil.
  - rewrite getNextRunTime_cases.
    destruct (nextRunTimes s !! name) as [time|] eqn:Htime;
      [|destruct (inherited name) eqn:Hinh].
    2:{ split; [done|]. exists name. split; [by left | done]. }
    all: specialize (IH (<[name := nextRunText lib name s]> tasks));
      destruct (listScheduledTasks_loop lib s rest
                  (<[name := nextRunText lib name s]> tasks)) as [tasks'|e].
    all: try (destruct IH as (He & taskName & Hin & Hbad);
              split; [done|]; exists taskName; split; [by right | done]).
    all: destruct IH as [Hgood Hlook]; split.
    all: try (intros taskName [->|Hin]%elem_of_cons Hnone;
              [congruence | by apply Hgood]).
    all: intros taskName; rewrite Hlook;
      destruct (decide (taskName ∈ rest)) as [Hin|Hout];
      [ rewrite !bool_decide_eq_true_2; [done | by right | done]
      | rewrite (bool_decide_eq_false_2 _ Hout);
        destruct (decide (taskName = name)) as [->|Hne];
        [ rewrite lookup_insert_eq; rewrite bool_decide_eq_true_2; [done | by left]
        | rewrite lookup_insert_ne by done;
          rewrite bool_decide_eq_false_2; [done|];
          intros [?|?]%elem_of_cons; done ] ].
Qed.

Lemma registered_names s taskName :
  taskName ∈ (map_to_list (scheduledTasks s)).*1
  ↔ is_Some (scheduledTasks s !! taskName).
Proof.
  rewrite list_elem_of_fmap. split.
  - intros ([name job] & -> & Hin). apply elem_of_map_to_list in Hin. by exists job.
  - intros [job Hjob]. exists (taskName, job). split; [done|].
    by apply elem_of_map_to_list.
Qed.

(** What [listScheduledTasks] returns, when it returns. *)
Lemma listScheduledTasks_returns lib s tasks :
  listScheduledTasks lib s = Ok tasks →
  ∀ taskName,
    tasks !! taskName
    = (λ _, nextRunText lib taskName s) <$> scheduledTasks s !! taskName.
Proof.
  unfold listScheduledTasks. intros Hlist taskName.
  pose proof (listScheduledTasks_loop_result lib s
                (map_to_list (scheduledTasks s)).*1 ∅) as Hloop.
  rewrite Hlist in Hloop. destruct Hloop as [_ Hlook]. rewrite Hlook.
  destruct (scheduledTasks s !! taskName) as [job|] eqn:Hjob.
  - rewrite bool_decide_eq_true_2; [done|]. apply registered_names. by rewrite Hjob.
  - rewrite bool_decide_eq_false_2; [by rewrite lookup_empty|].
    rewrite registered_names, Hjob. by intros [? ?].
Qed.

(** X16. [listScheduledTasks] visits the registered names and stores,
    for each, what [getNextRunTime] answers.  When every registered
    name has a recorded time or is not a name every object inherits,
    it returns an object that has exactly the registered names, each
    with its recorded time or 'Not scheduled'.  When a registered name
    without a recorded time is an inherited one ([constructor],
    [toString], ...), the TypeError of [getNextRunTime] leaves the
    function.  A listing made after [scheduleTask] accepted a task has
    the task; a listing made after [stopTask] does not have its
    name. *)
Theorem listScheduledTasks_lists_registered (lib : CronLib) (nowMs : Z)
    (name expr : string) (s : Scheduler) :
  (listable s →
   ∃ tasks,
     listScheduledTasks lib s = Ok tasks ∧
     ∀ taskName,
       tasks !! taskName
       = (λ _, nextRunText lib taskName s) <$> scheduledTasks s !! taskName) ∧
  (∀ taskName,
     is_Some (scheduledTasks s !! taskName) →
     nextRunTimes s !! taskName = None →
     inherited taskName = true →
     listScheduledTasks lib s
     = Throw "nextRunTimes[taskName].toISOString is not a function") ∧
  (cron_validate lib expr = true →
   name ≠ "__proto__" →
   let s' := (scheduleTask lib nowMs name expr s).1 in
   ∀ tasks, listScheduledTasks lib s' = Ok tasks →
            tasks !! name = Some (nextRunText lib name s')) ∧
  (∀ tasks, listScheduledTasks lib (stopTask name s).1 = Ok tasks →
            tasks !! name = None).
Proof.
  split; [|split; [|split]].
  - intros Hlistable.
    pose proof (listScheduledTasks_loop_result lib s
                  (map_to_list (scheduledTasks s)).*1 ∅) as Hloop.
    destruct (listScheduledTasks lib s) as [tasks|e] eqn:Hlist;
      unfold listScheduledTasks in Hlist; rewrite Hlist in Hloop.
    + exists tasks. split; [done|].
      apply listScheduledTasks_returns. by unfold listScheduledTasks.
    + destruct Hloop as (_ & taskName & Hin & Hnone & Hinh).
      apply registered_names in Hin.
      rewrite (Hlistable taskName Hin Hnone) in Hinh. discriminate.
  - intros taskName Hreg Hnone Hinh.
    pose proof (listScheduledTasks_loop_result lib s
                  (map_to_list (scheduledTasks s)).*1 ∅) as Hloop.
    unfold listScheduledTasks.
    destruct (listScheduledTasks_loop lib s (map_to_list (scheduledTasks s)).*1 ∅)
      as [tasks|e].
    + destruct Hloop as [Hgood _]. apply registered_names in Hreg.
      rewrite (Hgood taskName Hreg Hnone) in Hinh. discriminate.
    + destruct Hloop as [-> _]. done.
  - intros Hvalid _ s' tasks Hlist.
    rewrite (listScheduledTasks_returns _ _ _ Hlist). unfold s'.
    rewrite (scheduleTask_valid _ _ _ _ _ Hvalid). cbn [fst scheduledTasks].
    by rewrite lookup_insert_eq.
  - intros tasks Hlist. rewrite (listScheduledTasks_returns _ _ _ Hlist).
    unfold stopTask.
    destruct (scheduledTasks s !! name) as [job|] eqn:Hreg; cbn [fst scheduledTasks].
    + by rewrite lookup_delete_eq.
    + destruct (inherited name); cbn [fst]; by rewrite Hreg.
Qed.

Lemma listScheduledTasks_lists_registered_witness :
  (∃ tasks,
     listScheduledTasks sampleLib
       (scheduleTask sampleLib 0 "ping" "*/5 * * * *" idleScheduler).1 = Ok tasks ∧
     tasks !! "ping" = Some "Not scheduled") ∧
  listScheduledTasks sampleLib
    (scheduleTask sampleLib 0 "toString" "*/5 * * * *" idleScheduler).1
  = Throw "nextRunTimes[taskName].toISOString is not a function".
Proof.
  split.
  - destruct (listScheduledTasks_lists_registered sampleLib 0 "ping" "*/5 * * * *"
                (scheduleTask sampleLib 0 "ping" "*/5 * * * *" idleScheduler).1)
      as (Hlisted & _).
    destruct Hlisted as (tasks & Hlist & Hlook).
    + intros taskName Hreg _.
      destruct (decide (taskName = "ping")) as [->|Hother]; [reflexivity|].
      exfalso. destruct Hreg as [job Hjob].
      change (scheduledTasks
                (scheduleTask sampleLib 0 "ping" "*/5 * * * *" idleScheduler).1)
        with (<["ping" := 0%nat]> (∅ : gmap string nat)) in Hjob.
      rewrite lookup_insert_ne in Hjob by done.
      by rewrite lookup_empty in Hjob.
    + exists tasks. split; [exact Hlist|]. rewrite Hlook. reflexivity.
  - destruct (listScheduledTasks_lists_registered sampleLib 0 "toString" "*/5 * * * *"
                (scheduleTask sampleLib 0 "toString" "*/5 * * * *" idleScheduler).1)
      as (_ & Hthrows & _).
    apply (Hthrows "toString"); [by exists 0%nat | reflexivity | reflexivity].
Defined.

(* ===================================================================== *)
(** ** The memory core *)
(* ===================================================================== *)

Lemma lookup_set_field k k' x fields :
  lookup_field k (set_field k' x fields)
  = if String.eqb k k' then x else lookup_field k fields.
Proof.
  induction fields as [|[k0 y] rest IH]; simpl; [done|].
  destruct (String.eqb k' k0) eqn:E0; simpl.
  - apply String.eqb_eq in E0 as <-. by destruct (String.eqb k k').
  - rewrite IH. destruct (String.eqb k k0) eqn:E1; [|done].
    destruct (String.eqb k k') eqn:E2; [|done].
    apply String.eqb_eq in E1 as <-. apply String.eqb_eq in E2 as <-.
    by rewrite String.eqb_refl in E0.
Qed.

Lemma is_json_set_field k x fields :
  is_json x = true → is_json (VObj fields) = true →
  is_json (VObj (set_field k x fields)) = true.
Proof.
  intros Hx. induction fields as [|[k0 y] rest IH]; simpl.
  - intros _. by rewrite Hx.
  - intros [Hy Hrest]%andb_prop. destruct (String.eqb k k0); simpl.
    + by rewrite Hx.
    + rewrite Hy. by apply IH.
Qed.

Lemma awakened_json count : is_json (awakened count) = true.
Proof. unfold awakened. destruct (truthy count); [by destruct count | done]. Qed.

(** A sum that is at most [2^53] in size is not rounded. *)
Lemma round53_exact z : - 2 ^ 53 ≤ z ≤ 2 ^ 53 → round53 z = z.
Proof.
  intros Hz. unfold round53.
  destruct (Z.ltb_spec (Z.abs z) (2 ^ 53)) as [|Hbig]; [done|].
  assert (Habs : Z.abs z = 2 ^ 53) by lia. rewrite Habs.
  change (Z.log2 (2 ^ 53) - 52) with 1.
  change (round_half_even (2 ^ 53) (2 ^ 1) * 2 ^ 1) with (2 ^ 53).
  rewrite <- Habs. rewrite Z.mul_comm. apply Z.abs_sgn.
Qed.

(** On numbers up to [2^53] an awakening adds one, except that
    [2^53 + 1] is no double and rounds back to [2^53]. *)
Lemma awakened_num n :
  - 2 ^ 53 ≤ n ≤ 2 ^ 53 → awakened (VNum n) = VNum (Z.min (n + 1) (2 ^ 53)).
Proof.
  intros Hn. unfold awakened. simpl.
  destruct (Z.eqb_spec n 0) as [->|Hnz]; simpl; [done|].
  f_equal. unfold number_add.
  destruct (Z.eq_dec n (2 ^ 53)) as [->|Hne]; [by vm_compute|].
  rewrite round53_exact by lia. lia.
Qed.

(** An awakening over a memory that is there. *)
Lemma initializeMemory_awakens w fields :
  holds_memory w fields →
  initializeMemory w
  = (set_memory_file
       (Encodes (VObj (set_field "lastAwakening" (VStr (clock w (clockReads w)))
                         (set_field "awakeningCount"
                            (awakened (lookup_field "awakeningCount" fields)) fields))))
       (nowISO w).1, Ok ()).
Proof.
  intros (Hfile & Hjson & Hread & Hwrite).
  unfold initializeMemory, mtry, mbind, fs_access. rewrite Hfile.
  unfold fs_readFile. rewrite Hfile, Hread.
  unfold mlift. simpl. unfold fs_writeFile. simpl. rewrite Hwrite.
  unfold JSON_stringify. rewrite jsonify_fixes_json; [done|].
  apply is_json_set_field; [done|].
  apply is_json_set_field; [apply awakened_json | done].
Qed.

Lemma initializeMemory_keeps_memory w fields :
  holds_memory w fields →
  ∃ fields',
    (initializeMemory w).2 = Ok () ∧
    holds_memory (initializeMemory w).1 fields' ∧
    lookup_field "awakeningCount" fields'
    = awakened (lookup_field "awakeningCount" fields) ∧
    lookup_field "lastAwakening" fields' = VStr (clock w (clockReads w)) ∧
    (∀ k, k ≠ "awakeningCount" → k ≠ "lastAwakening" →
          lookup_field k fields' = lookup_field k fields) ∧
    idsDrawn (initializeMemory w).1 = idsDrawn w ∧
    memoryState (initializeMemory w).1 = memoryState w.
Proof.
  intros Hw. rewrite (initializeMemory_awakens w fields Hw).
  destruct Hw as (Hfile & Hjson & Hread & Hwrite).
  eexists. split; [done|]. split; [|split; [|split; [|split]]].
  - repeat split; simpl; try done.
    apply is_json_set_field; [done|].
    apply is_json_set_field; [apply awakened_json | done].
  - by rewrite !lookup_set_field.
  - by rewrite lookup_set_field.
  - intros k Hk1 Hk2. rewrite !lookup_set_field.
    apply String.eqb_neq in Hk1, Hk2. by rewrite Hk1, Hk2.
  - done.
Qed.


Lemma sample_holds_memory :
  holds_memory (sampleMemoryWorld (Some (Encodes (VObj sampleMemoryFields))) false)
    sampleMemoryFields.
Proof. by repeat split. Qed.


(** X18. Awakenings add up as far as numbers count: after [n] starts
    over a memory whose [awakeningCount] is a number [c] of size at
    most [2^53], the file holds a memory whose count is [c + n] while
    that is at most [2^53], and [2^53] from then on, where adding one
    no longer changes a number; its other properties, [lastAwakening]
    apart, are those it had (the system id among them), and no start
    throws. *)
Theorem awakenings_add_up (n : nat) (w : MemoryWorld) fields (c : Z) :
  holds_memory w fields →
  lookup_field "awakeningCount" fields = VNum c →
  - 2 ^ 53 ≤ c ≤ 2 ^ 53 →
  ∃ fields',
    (awakenings n w).2 = Ok () ∧
    holds_memory (awakenings n w).1 fields' ∧
    lookup_field "awakeningCount" fields'
    = VNum (Z.min (c + Z.of_nat n) (2 ^ 53)) ∧
    (∀ k, k ≠ "awakeningCount" → k ≠ "lastAwakening" →
          lookup_field k fields' = lookup_field k fields) ∧
    idsDrawn (awakenings n w).1 = idsDrawn w.
Proof.
  revert w fields c. induction n as [|n IH]; intros w fields c Hw Hc Hsize.
  - exists fields. simpl. rewrite Z.add_0_r, Z.min_l by lia.
    split; [done|]. split; [exact Hw|]. split; [exact Hc|]. by split.
  - destruct (initializeMemory_keeps_memory w fields Hw)
      as (fields1 & Hok & Hw1 & Hc1 & _ & Hrest1 & Hids1 & _).
    rewrite Hc, awakened_num in Hc1 by done.
    destruct (IH _ _ _ Hw1 Hc1 ltac:(lia))
      as (fields' & Hok' & Hw' & Hc' & Hrest' & Hids').
    assert (Hrun : awakenings (S n) w = awakenings n (initializeMemory w).1).
    { simpl. unfold mbind. destruct (initializeMemory w) as [w1 r].
      simpl in Hok. by subst r. }
    rewrite Hrun. exists fields'. split; [done|]. split; [done|].
    split; [|split].
    + rewrite Hc'. f_equal. lia.
    + intros k Hk1 Hk2. rewrite Hrest' by done. by apply Hrest1.
    + by rewrite Hids'.
Qed.

Lemma awakenings_add_up_witness :
  ∃ fields',
    holds_memory
      (awakenings 3
         (sampleMemoryWorld (Some (Encodes (VObj sampleMemoryFields))) false)).1 fields' ∧
    lookup_field "awakeningCount" fields' = VNum 7.
Proof.
  destruct (awakenings_add_up 3
              (sampleMemoryWorld (Some (Encodes (VObj sampleMemoryFields))) false)
              sampleMemoryFields 4)
    as (fields' & _ & Hholds & Hcount & _).
  - split; [reflexivity|]. split; [reflexivity|]. split; reflexivity.
  - reflexivity.
  - vm_compute. split; discriminate.
  - exists fields'. split; [exact Hholds | exact Hcount].
Defined.

(** X19. A memory file that is missing, unreadable, not JSON text or
    the text of [null] is replaced, when the file can be written, by a
    fresh memory: a newly drawn system id, an awakening count of 1 and
    no fragments.  Whatever the file held is lost, and
    [global.memoryState] is not touched. *)
Theorem unusable_memory_is_replaced (w : MemoryWorld) :
  no_memory w → memory_write_error w = false →
  (initializeMemory w).2 = Ok () ∧
  memory_file (initializeMemory w).1
  = Some (Encodes
            (VObj [("systemId", VStr (systemIds w (idsDrawn w)));
                   ("createdAt", VStr (clock w (clockReads w)));
                   ("lastAwakening", VStr (clock w (S (clockReads w))));
                   ("awakeningCount", VNum 1); ("memoryFragments", VArr []);
                   ("consciousness", awakeningConsciousness)])) ∧
  idsDrawn (initializeMemory w).1 = S (idsDrawn w) ∧
  memoryState (initializeMemory w).1 = memoryState w.
Proof.
  intros Hno Hwrite.
  unfold initializeMemory, mtry, mbind, fs_access, fs_readFile, mlift.
  destruct (memory_file w) as [text|] eqn:Hfile; rewrite ?Hfile.
  - destruct (memory_read_error w) eqn:Hread; rewrite ?Hread.
    + simpl. unfold fs_writeFile. simpl. by rewrite Hwrite.
    + destruct Hno as [?|[?|[Hg|Hn]]]; [congruence | congruence | |].
      * rewrite Hfile in Hg. injection Hg as ->. simpl. unfold fs_writeFile. simpl. by rewrite Hwrite.
      * rewrite Hfile in Hn. injection Hn as ->. simpl. unfold fs_writeFile. simpl. by rewrite Hwrite.
  - simpl. unfold fs_writeFile. simpl. by rewrite Hwrite.
Qed.

Lemma unusable_memory_is_replaced_witness :
  no_memory (sampleMemoryWorld (Some Garbled) false) ∧
  idsDrawn (initializeMemory (sampleMemoryWorld (Some Garbled) false)).1 = 1%nat.
Proof.
  split.
  - right. right. left. reflexivity.
  - apply (unusable_memory_is_replaced (sampleMemoryWorld (Some Garbled) false)).
    + right. right. left. reflexivity.
    + reflexivity.
Defined.

Lemma mbind_ok {A B} (m : MM A) (k : A → MM B) w w' a :
  m w = (w', Ok a) → mbind m k w = k a w'.
Proof. unfold mbind. by intros ->. Qed.

Lemma mbind_mlift_ok {A B} (a : A) (k : A → MM B) w :
  mbind (mlift (Ok a)) k w = k a w.
Proof. done. Qed.

Lemma mbind_mlift_throw {A B} e (k : A → MM B) w :
  mbind (mlift (Throw e)) k w = (w, Throw e).
Proof. done. Qed.

Lemma mtry_ok {A} (body : MM A) h w w' a :
  body w = (w', Ok a) → mtry body h w = (w', Ok a).
Proof. unfold mtry. by intros ->. Qed.

Lemma mtry_throw {A} (body : MM A) h w w' e :
  body w = (w', Throw e) → mtry body h w = h e w'.
Proof. unfold mtry. by intros ->. Qed.

Lemma same_memory_refl w : same_memory w w.
Proof. by repeat split. Qed.

Lemma same_memory_trans w1 w2 w3 :
  same_memory w1 w2 → same_memory w2 w3 → same_memory w1 w3.
Proof.
  unfold same_memory. intros (?&?&?&?&?&?&?&?) (?&?&?&?&?&?&?&?).
  repeat split; congruence.
Qed.

Lemma reads_only_mlift {A} (r : Res A) : reads_only (mlift r).
Proof. intros w. apply same_memory_refl. Qed.

Lemma reads_only_nowISO : reads_only nowISO.
Proof. intros w. by repeat split. Qed.

Lemma reads_only_generateThought : reads_only generateThought.
Proof. intros w. by repeat split. Qed.

Lemma reads_only_fs_access : reads_only fs_access.
Proof. intros w. unfold fs_access. destruct (memory_file w); apply same_memory_refl. Qed.

Lemma reads_only_fs_readFile : reads_only fs_readFile.
Proof.
  intros w. unfold fs_readFile.
  destruct (memory_file w); [destruct (memory_read_error w)|]; apply same_memory_refl.
Qed.

Lemma reads_only_mbind {A B} (m : MM A) (k : A → MM B) :
  reads_only m → (∀ a, reads_only (k a)) → reads_only (mbind m k).
Proof.
  intros Hm Hk w. unfold mbind. specialize (Hm w).
  destruct (m w) as [w1 [a|e]]; simpl in *; [|done].
  eapply same_memory_trans; [exact Hm | apply Hk].
Qed.

Lemma needs_write_fs_writeFile text : needs_write (fs_writeFile text).
Proof.
  intros w Hw. unfold fs_writeFile. rewrite Hw. simpl.
  split; [apply same_memory_refl | eauto].
Qed.

Lemma needs_write_mbind {A B} (m : MM A) (k : A → MM B) :
  reads_only m → (∀ a, needs_write (k a)) → needs_write (mbind m k).
Proof.
  intros Hm Hk w Hw. unfold mbind. specialize (Hm w).
  destruct (m w) as [w1 [a|e]]; simpl in *; [|eauto].
  destruct (Hk a w1) as [Hsame Hthrows].
  - destruct Hm as (_ & _ & -> & _). exact Hw.
  - split; [|done]. eapply same_memory_trans; [exact Hm | exact Hsame].
Qed.

Create HintDb memory discriminated.
#[local] Hint Resolve reads_only_mlift reads_only_nowISO reads_only_generateThought
  reads_only_fs_access reads_only_fs_readFile needs_write_fs_writeFile : memory.
#[local] Hint Extern 2 (reads_only (mbind _ _)) =>
  apply reads_only_mbind; [|intros] : memory.
#[local] Hint Extern 2 (needs_write (mbind _ _)) =>
  apply needs_write_mbind; [|intros] : memory.

(** Where an unwritable memory file leaves [initializeMemory]. *)
Lemma initializeMemory_falls_back w :
  memory_write_error w = true →
  ∃ reads createdAt lastAwakening,
    (initializeMemory w).2 = Ok () ∧
    memory_file (initializeMemory w).1 = memory_file w ∧
    memory_write_error (initializeMemory w).1 = true ∧
    clock (initializeMemory w).1 = clock w ∧
    clockReads (initializeMemory w).1 = reads ∧
    idsDrawn (initializeMemory w).1 = S (S (idsDrawn w)) ∧
    memoryState (initializeMemory w).1
    = Some (VObj [("systemId", VStr (systemIds w (S (idsDrawn w))));
                  ("createdAt", VStr createdAt);
                  ("lastAwakening", VStr lastAwakening);
                  ("awakeningCount", VNum 1);
                  ("consciousness", awakeningConsciousness)]).
Proof.
  intros Hwrite. unfold initializeMemory.
  match goal with |- context [mtry (mtry ?T _) _] => set (body := T) end.
  assert (Hbody : needs_write body) by (subst body; auto 20 with memory).
  destruct (Hbody w Hwrite) as [Hsame [e He]].
  destruct (body w) as [w0 r] eqn:Hrun. simpl in Hsame, He. subst r.
  destruct Hsame as (Hfile & _ & Hwrite0 & _ & Hclock & Hids & Hdrawn & _).
  rewrite Hwrite in Hwrite0.
  unfold mtry. rewrite Hrun.
  unfold mbind, generateSystemId, nowISO, fs_writeFile. simpl.
  rewrite Hwrite0. simpl. rewrite Hids, Hdrawn. eauto 10.
Qed.

(** X20. When the memory file cannot be written, [initializeMemory]
    still returns: the file is left as it was, and
    [global.memoryState] holds a fallback memory with an awakening
    count of 1.  Two system ids are drawn on the way, the fallback
    carries the second, and a memory that the file holds is not taken
    over into it. *)
Theorem unwritable_memory_falls_back (w : MemoryWorld) :
  memory_write_error w = true →
  ∃ createdAt lastAwakening,
    (initializeMemory w).2 = Ok () ∧
    memory_file (initializeMemory w).1 = memory_file w ∧
    idsDrawn (initializeMemory w).1 = S (S (idsDrawn w)) ∧
    memoryState (initializeMemory w).1
    = Some (VObj [("systemId", VStr (systemIds w (S (idsDrawn w))));
                  ("createdAt", VStr createdAt);
                  ("lastAwakening", VStr lastAwakening);
                  ("awakeningCount", VNum 1);
                  ("consciousness", awakeningConsciousness)]).
Proof.
  intros Hwrite.
  destruct (initializeMemory_falls_back w Hwrite)
    as (reads & createdAt & lastAwakening & Hok & Hfile & _ & _ & _ & Hids & Hstate).
  exists createdAt, lastAwakening. by rewrite Hok, Hfile, Hids, Hstate.
Qed.

Lemma unwritable_memory_falls_back_witness :
  ∃ createdAt lastAwakening,
    memoryState
      (initializeMemory
         (sampleMemoryWorld (Some (Encodes (VObj sampleMemoryFields))) true)).1
    = Some (VObj [("systemId", VStr "id-1");
                  ("createdAt", VStr createdAt);
                  ("lastAwakening", VStr lastAwakening);
                  ("awakeningCount", VNum 1);
                  ("consciousness", awakeningConsciousness)]).
Proof.
  destruct (unwritable_memory_falls_back
              (sampleMemoryWorld (Some (Encodes (VObj sampleMemoryFields))) true))
    as (createdAt & lastAwakening & _ & _ & _ & Hstate).
  - reflexivity.
  - exists createdAt, lastAwakening. exact Hstate.
Defined.

Lemma assign_in_object k1 k2 x fields inner :
  lookup_field k1 fields = VObj inner →
  assign_in k1 k2 x (VObj fields)
  = Ok (VObj (set_field k1 (VObj (set_field k2 x inner)) fields)).
Proof. intros Hinner. unfold assign_in, prop. simpl. by rewrite Hinner. Qed.

Lemma assign_in_nullish k1 k2 x fields :
  nullish (lookup_field k1 fields) = true →
  ∃ e, assign_in k1 k2 x (VObj fields) = Throw e.
Proof.
  intros Hnull. unfold assign_in, prop. simpl.
  destruct (lookup_field k1 fields); simpl in *; try done; eauto.
Qed.

(** X21. A heartbeat over a memory file that holds a JSON object with
    a [consciousness] object, and can be read and written, writes the
    object back with [lastPing] set to the time of the clock and, in
    [consciousness], [state] set to 'active' and [lastThought] to one
    of the ten thoughts.  Every other property of the memory and of its
    consciousness is kept: a heartbeat changes neither the system id
    nor the awakening count. *)
Theorem heartbeat_keeps_identity (w : MemoryWorld) fields cfields :
  holds_memory w fields →
  lookup_field "consciousness" fields = VObj cfields →
  (thoughtDraws w (thoughtsDrawn w) < 10)%nat →
  ∃ fields' cfields' thought,
    (heartbeat w).2 = Ok () ∧
    holds_memory (heartbeat w).1 fields' ∧
    lookup_field "lastPing" fields' = VStr (clock w (clockReads w)) ∧
    lookup_field "consciousness" fields' = VObj cfields' ∧
    lookup_field "state" cfields' = VStr "active" ∧
    lookup_field "lastThought" cfields' = VStr thought ∧ thought ∈ thoughts ∧
    (∀ k, k ≠ "state" → k ≠ "lastThought" →
          lookup_field k cfields' = lookup_field k cfields) ∧
    (∀ k, k ≠ "lastPing" → k ≠ "consciousness" →
          lookup_field k fields' = lookup_field k fields).
Proof.
  intros (Hfile & Hjson & Hread & Hwrite) Hc Hdraw.
  destruct (lookup_lt_is_Some_2 thoughts _ Hdraw) as [thought Hthought].
  assert (Hcjson : is_json (VObj cfields) = true).
  { destruct (lookup_field_json "consciousness" fields Hjson) as [Hu|Hj];
      rewrite Hc in *; done. }
  set (ts := clock w (clockReads w)).
  set (fields1 := set_field "lastPing" (VStr ts) fields).
  set (c1 := set_field "state" (VStr "active") cfields).
  set (fields2 := set_field "consciousness" (VObj c1) fields1).
  set (c2 := set_field "lastThought" (VStr thought) c1).
  set (fields3 := set_field "consciousness" (VObj c2) fields2).
  assert (Hjson3 : is_json (VObj fields3) = true).
  { repeat (apply is_json_set_field; try done). }
  assert (Hrun : heartbeat w
                 = (set_memory_file (Encodes (VObj fields3))
                      (generateThought (nowISO w).1).1, Ok ())).
  { unfold heartbeat.
    rewrite (mbind_ok nowISO _ w (nowISO w).1 ts) by done.
    apply mtry_ok, mtry_ok.
    rewrite (mbind_ok fs_readFile _ _ (nowISO w).1 (Encodes (VObj fields)))
      by (unfold fs_readFile; simpl; by rewrite Hfile, Hread).
    simpl JSON_parse. rewrite mbind_mlift_ok.
    simpl assign. rewrite mbind_mlift_ok. fold fields1.
    rewrite (assign_in_object _ _ _ _ cfields)
      by (subst fields1; by rewrite lookup_set_field).
    rewrite mbind_mlift_ok. fold c1. fold fields2.
    rewrite (mbind_ok generateThought _ _ (generateThought (nowISO w).1).1 (VStr thought))
      by (unfold generateThought; simpl; by rewrite Hthought).
    rewrite (assign_in_object _ _ _ _ c1)
      by (subst fields2; by rewrite lookup_set_field).
    rewrite mbind_mlift_ok. fold c2. fold fields3.
    unfold fs_writeFile. simpl. rewrite Hwrite.
    unfold JSON_stringify. by rewrite jsonify_fixes_json. }
  rewrite Hrun. exists fields3, c2, thought.
  split; [done|]. split; [by repeat split|].
  subst fields3 fields2 fields1 c2 c1.
  split; [by rewrite !lookup_set_field|].
  split; [by rewrite lookup_set_field|].
  split; [by rewrite !lookup_set_field|].
  split; [by rewrite lookup_set_field|].
  split; [by eapply list_elem_of_lookup_2|].
  split.
  - intros k Hk1 Hk2. rewrite !lookup_set_field.
    apply String.eqb_neq in Hk1, Hk2. by rewrite Hk1, Hk2.
  - intros k Hk1 Hk2. rewrite !lookup_set_field.
    apply String.eqb_neq in Hk1, Hk2. by rewrite Hk1, Hk2.
Qed.

Lemma heartbeat_keeps_identity_witness :
  ∃ fields',
    holds_memory
      (heartbeat (sampleMemoryWorld (Some (Encodes (VObj sampleMemoryFields))) false)).1
      fields' ∧
    lookup_field "awakeningCount" fields' = VNum 4 ∧
    lookup_field "lastPing" fields' = VStr "2024-03-01T06:00:00.000Z".
Proof.
  destruct (heartbeat_keeps_identity
              (sampleMemoryWorld (Some (Encodes (VObj sampleMemoryFields))) false)
              sampleMemoryFields
              [("level", VNum 1); ("state", VStr "awakening");
               ("lastThought", VStr "I am becoming aware")])
    as (fields' & cfields' & thought & _ & Hholds & Hping & _ & _ & _ & _ & _ & Hrest).
  - split; [reflexivity|]. split; [reflexivity|]. split; reflexivity.
  - reflexivity.
  - simpl. lia.
  - exists fields'. split; [exact Hholds|]. split; [|exact Hping].
    rewrite Hrest by discriminate. reflexivity.
Defined.

(** X22. A memory without a [consciousness] object gets no ping: when
    the file holds a JSON object in which [consciousness] is missing or
    [null], and there is no fallback memory, a heartbeat returns with
    the file and [global.memoryState] as they were; [lastPing] is never
    written. *)
Theorem heartbeat_needs_consciousness (w : MemoryWorld) fields :
  holds_memory w fields →
  nullish (lookup_field "consciousness" fields) = true →
  memoryState w = None →
  (heartbeat w).2 = Ok () ∧
  memory_file (heartbeat w).1 = memory_file w ∧
  memoryState (heartbeat w).1 = None.
Proof.
  intros (Hfile & Hjson & Hread & Hwrite) Hnull Hstate.
  destruct (assign_in_nullish "consciousness" "state" (VStr "active")
              (set_field "lastPing" (VStr (clock w (clockReads w))) fields))
    as [e He].
  { by rewrite lookup_set_field. }
  unfold heartbeat.
  rewrite (mbind_ok nowISO _ w (nowISO w).1 (clock w (clockReads w))) by done.
  match goal with |- context [mtry (mtry ?T _) _] => set (body := T) end.
  assert (Hbody : body (nowISO w).1 = ((nowISO w).1, Throw e)).
  { subst body.
    rewrite (mbind_ok fs_readFile _ _ (nowISO w).1 (Encodes (VObj fields)))
      by (unfold fs_readFile; simpl; by rewrite Hfile, Hread).
    simpl JSON_parse. rewrite mbind_mlift_ok.
    simpl assign. rewrite mbind_mlift_ok.
    by rewrite He, mbind_mlift_throw. }
  unfold mtry. rewrite Hbody. simpl. by rewrite Hstate.
Qed.

Lemma heartbeat_needs_consciousness_witness :
  memory_file
    (heartbeat (sampleMemoryWorld (Some (Encodes (VObj [("systemId", VStr "cafe")]))) false)).1
  = Some (Encodes (VObj [("systemId", VStr "cafe")])).
Proof.
  apply (heartbeat_needs_consciousness
           (sampleMemoryWorld (Some (Encodes (VObj [("systemId", VStr "cafe")]))) false)
           [("systemId", VStr "cafe")]).
  - split; [reflexivity|]. split; [reflexivity|]. split; reflexivity.
  - reflexivity.
  - reflexivity.
Defined.

(** X23. With a memory file that cannot be written, the first
    heartbeat after [initializeMemory] pings the fallback memory: the
    file is still as it was, and [global.memoryState] has kept its
    system id and its awakening count of 1, with [lastPing] set to the
    time of the heartbeat and the state of its consciousness set to
    'active'. *)
Theorem heartbeat_pings_the_fallback (w : MemoryWorld) :
  memory_write_error w = true →
  ∃ fields cfields,
    memory_file (heartbeat (initializeMemory w).1).1 = memory_file w ∧
    memoryState (heartbeat (initializeMemory w).1).1 = Some (VObj fields) ∧
    lookup_field "systemId" fields = VStr (systemIds w (S (idsDrawn w))) ∧
    lookup_field "awakeningCount" fields = VNum 1 ∧
    lookup_field "lastPing" fields
    = VStr (clock w (clockReads (initializeMemory w).1)) ∧
    lookup_field "consciousness" fields = VObj cfields ∧
    lookup_field "state" cfields = VStr "active".
Proof.
  intros Hwrite.
  destruct (initializeMemory_falls_back w Hwrite)
    as (reads & createdAt & lastAwakening & _ & Hfile & Hwrite1 & Hclock & Hreads
        & _ & Hstate).
  destruct (initializeMemory w) as [w1 r1]. simpl in *.
  unfold heartbeat.
  rewrite (mbind_ok nowISO _ w1 (nowISO w1).1 (clock w1 (clockReads w1))) by done.
  match goal with |- context [mtry (mtry ?T _) _] => set (body := T) end.
  assert (Hbody : needs_write body) by (subst body; auto 20 with memory).
  destruct (Hbody (nowISO w1).1 Hwrite1) as [Hsame [e He]].
  destruct (body (nowISO w1).1) as [w2 r2] eqn:Hrun. simpl in Hsame, He. subst r2.
  destruct Hsame as (Hfile2 & _ & _ & Hstate2 & _).
  simpl in Hfile2, Hstate2. rewrite Hstate in Hstate2.
  unfold mtry. rewrite Hrun. rewrite Hstate2. simpl.
  unfold mbind, mlift, generateThought. simpl.
  rewrite Hfile2, Hfile, Hclock, Hreads.
  eexists _, _. repeat split.
Qed.

Lemma heartbeat_pings_the_fallback_witness :
  ∃ fields,
    memoryState
      (heartbeat (initializeMemory (sampleMemoryWorld None true)).1).1
    = Some (VObj fields) ∧
    lookup_field "systemId" fields = VStr "id-1".
Proof.
  destruct (heartbeat_pings_the_fallback (sampleMemoryWorld None true))
    as (fields & cfields & _ & Hstate & Hid & _).
  - reflexivity.
  - exists fields. split; [exact Hstate | exact Hid].
Defined.

(* ===================================================================== *)
(** ** The log directory *)
(* ===================================================================== *)

Lemma elem_of_filter_bool {A} (f : A → bool) (l : list A) x :
  x ∈ List.filter f l ↔ x ∈ l ∧ f x = true.
Proof. by rewrite !list_elem_of_In, filter_In. Qed.

Lemma NoDup_filter_bool {A} (f : A → bool) (l : list A) :
  NoDup l → NoDup (List.filter f l).
Proof. rewrite !NoDup_ListNoDup. apply List.NoDup_filter. Qed.

Lemma insert_newest_first_perm f sorted :
  insert_newest_first f sorted ≡ₚ f :: sorted.
Proof.
  induction sorted as [|g rest IH]; simpl; [done|].
  destruct (log_mtime g <=? log_mtime f)%Z; [done|].
  rewrite IH. apply Permutation_swap.
Qed.

Lemma sort_newest_first_perm files : sort_newest_first files ≡ₚ files.
Proof.
  induction files as [|f rest IH]; simpl; [done|].
  rewrite insert_newest_first_perm. by f_equiv.
Qed.

Lemma sort_newest_first_sorted files :
  StronglySorted (λ a b, (log_mtime b <= log_mtime a)%Z) (sort_newest_first files).
Proof.
  induction files as [|f rest IH]; simpl; [constructor|].
  induction IH as [|g sorted Hsorted IH Hall]; simpl.
  - repeat constructor.
  - destruct (Z.leb_spec (log_mtime g) (log_mtime f)).
    + constructor; [by constructor|]. constructor; [done|].
      eapply Forall_impl; [exact Hall|]. simpl. intros. lia.
    + constructor; [done|]. rewrite insert_newest_first_perm.
      constructor; [lia | done].
Qed.

Lemma log_existsSync_names name d :
  log_existsSync name d = true ↔ name ∈ log_names d.
Proof.
  unfold log_existsSync, log_names. rewrite existsb_exists, list_elem_of_In, in_map_iff.
  unfold named. split; intros (g & H1 & H2); exists g.
  - by apply String.eqb_eq in H2.
  - split; [done|]. by apply String.eqb_eq.
Qed.

Lemma named_false name g : log_name g ≠ name → named name g = false.
Proof. intros. by apply String.eqb_neq. Qed.

(** Unlinking touches no file of another name, and adds none. *)
Lemma unlinkEach_spares files : ∀ d g,
  g ∈ log_files d → log_name g ∉ map log_name files →
  g ∈ log_files (unlinkEach files d).
Proof.
  induction files as [|f rest IH]; intros d g Hg Hnot; simpl; [done|].
  apply not_elem_of_cons in Hnot as [Hne Hnot].
  unfold log_unlinkSync. destruct (log_readonly d); [done|].
  destruct (log_existsSync (log_name f) d); [|done].
  apply IH; [|done]. simpl. apply elem_of_filter_bool.
  split; [done|]. by rewrite named_false.
Qed.

Lemma unlinkEach_within files : ∀ d g,
  g ∈ log_files (unlinkEach files d) → g ∈ log_files d.
Proof.
  induction files as [|f rest IH]; intros d g; simpl; [done|].
  unfold log_unlinkSync. destruct (log_readonly d); [done|].
  destruct (log_existsSync (log_name f) d); [|done].
  intros Hg%IH. simpl in Hg. by apply elem_of_filter_bool in Hg as [? _].
Qed.

Lemma unlinkEach_NoDup files : ∀ d,
  NoDup (log_files d) → NoDup (log_files (unlinkEach files d)).
Proof.
  induction files as [|f rest IH]; intros d Hd; simpl; [done|].
  unfold log_unlinkSync. destruct (log_readonly d); [done|].
  destruct (log_existsSync (log_name f) d); [|done].
  apply IH. simpl. by apply NoDup_filter_bool.
Qed.

(** On a directory that can be written, every file named is gone. *)
Lemma unlinkEach_removes files : ∀ d g,
  log_readonly d = false →
  NoDup (map log_name files) →
  (∀ f, f ∈ files → log_name f ∈ log_names d) →
  g ∈ log_files (unlinkEach files d) → log_name g ∉ map log_name files.
Proof.
  induction files as [|f rest IH]; intros d g Hw Hnd Hin; simpl.
  - intros _. apply not_elem_of_nil.
  - apply NoDup_cons in Hnd as [Hf Hrest].
    unfold log_unlinkSync. rewrite Hw.
    assert (Hex : log_existsSync (log_name f) d = true).
    { apply log_existsSync_names, Hin. by left. }
    rewrite Hex. intros Hg.
    assert (Hg' := unlinkEach_within _ _ _ Hg). simpl in Hg'.
    apply elem_of_filter_bool in Hg' as [_ Hne].
    apply not_elem_of_cons. split.
    + unfold named in Hne. apply negb_true_iff, String.eqb_neq in Hne. done.
    + eapply IH; [| |  |exact Hg]; simpl; [done|done|].
      intros f' Hf'. unfold log_names. simpl.
      assert (Hin' : log_name f' ∈ log_names d) by (apply Hin; by right).
      unfold log_names in Hin'.
      apply list_elem_of_fmap in Hin' as (g' & Hname & Hg').
      apply list_elem_of_fmap. exists g'. split; [done|].
      apply elem_of_filter_bool. split; [done|].
      rewrite named_false; [done|]. intros Heq. apply Hf.
      rewrite <- Heq, <- Hname. by apply list_elem_of_fmap_2.
Qed.

(** [is_archive] looks at the name only. *)
Lemma is_archive_by_name baseName ext f g :
  log_name f = log_name g → is_archive baseName ext f = is_archive baseName ext g.
Proof. unfold is_archive. by intros ->. Qed.

Lemma NoDup_names_filter (p : LogFile → bool) files :
  NoDup (map log_name files) → NoDup (map log_name (List.filter p files)).
Proof.
  induction files as [|f rest IH]; simpl; [done|].
  intros [Hf Hrest]%NoDup_cons. destruct (p f); simpl; [|by apply IH].
  apply NoDup_cons. split; [|by apply IH].
  intros (g & Hname & Hg)%list_elem_of_fmap. apply Hf.
  apply elem_of_filter_bool in Hg as [Hg _].
  rewrite Hname. by apply list_elem_of_fmap_2.
Qed.

(** What [cleanupOldLogs] keeps when there are too many archives. *)
Lemma cleanupOldLogs_kept baseName ext maxLogs d :
  log_readonly d = false → NoDup (log_names d) →
  (maxLogs < length (archives baseName ext d))%nat →
  ∀ g, g ∈ archives baseName ext (cleanupOldLogs baseName ext maxLogs d)
       ↔ g ∈ take maxLogs (sort_newest_first (archives baseName ext d)).
Proof.
  intros Hw Hnd Hmany g. unfold cleanupOldLogs. fold (archives baseName ext d).
  set (sorted := sort_newest_first (archives baseName ext d)).
  assert (Hperm : sorted ≡ₚ archives baseName ext d) by apply sort_newest_first_perm.
  rewrite (Permutation_length Hperm).
  apply Nat.ltb_lt in Hmany as ->.
  assert (Hnames : NoDup (map log_name (take maxLogs sorted)
                          ++ map log_name (drop maxLogs sorted))).
  { rewrite <- map_app, take_drop, Hperm. by apply NoDup_names_filter. }
  apply NoDup_app in Hnames as (_ & Hdisjoint & Hdropped).
  unfold archives at 1. rewrite elem_of_filter_bool. split.
  - intros [Hg Harch].
    assert (Hgone := unlinkEach_removes (drop maxLogs sorted) d g Hw Hdropped).
    assert (Hsorted : g ∈ take maxLogs sorted ++ drop maxLogs sorted).
    { rewrite take_drop, Hperm. apply elem_of_filter_bool.
      split; [by eapply unlinkEach_within | done]. }
    apply elem_of_app in Hsorted as [?|Hdrop]; [done|].
    exfalso. eapply Hgone; [|exact Hg|by apply list_elem_of_fmap_2].
    intros f Hf. apply list_elem_of_fmap_2.
    assert (f ∈ archives baseName ext d) as [? _]%elem_of_filter_bool; [|done].
    rewrite <- Hperm, <- (take_drop maxLogs sorted). apply elem_of_app. by right.
  - intros Hkept.
    assert (Harch : g ∈ archives baseName ext d).
    { rewrite <- Hperm, <- (take_drop maxLogs sorted). apply elem_of_app. by left. }
    apply elem_of_filter_bool in Harch as [Hg Harch]. split; [|done].
    apply unlinkEach_spares; [done|].
    apply Hdisjoint. by apply list_elem_of_fmap_2.
Qed.

Lemma cleanupOldLogs_spares baseName ext maxLogs d g :
  g ∈ log_files d → is_archive baseName ext g = false →
  g ∈ log_files (cleanupOldLogs baseName ext maxLogs d).
Proof.
  intros Hg Hother. unfold cleanupOldLogs.
  destruct (_ <? _)%nat; [|done]. apply unlinkEach_spares; [done|].
  intros (f & Hname & Hf)%list_elem_of_fmap.
  assert (Hsub : drop maxLogs (sort_newest_first
                                 (List.filter (is_archive baseName ext) (log_files d)))
                 `sublist_of` sort_newest_first
                                (List.filter (is_archive baseName ext) (log_files d)))
    by apply sublist_drop.
  eapply elem_of_sublist in Hf; [|exact Hsub].
  rewrite sort_newest_first_perm in Hf.
  apply elem_of_filter_bool in Hf as [_ Hf].
  rewrite (is_archive_by_name _ _ g f Hname) in Hother. congruence.
Qed.

Lemma cleanupOldLogs_within baseName ext maxLogs d g :
  g ∈ log_files (cleanupOldLogs baseName ext maxLogs d) → g ∈ log_files d.
Proof.
  unfold cleanupOldLogs. destruct (_ <? _)%nat; [|done]. apply unlinkEach_within.
Qed.

Lemma cleanupOldLogs_few baseName ext maxLogs d :
  (length (archives baseName ext d) ≤ maxLogs)%nat →
  cleanupOldLogs baseName ext maxLogs d = d.
Proof.
  intros Hfew. unfold cleanupOldLogs. fold (archives baseName ext d).
  rewrite (Permutation_length (sort_newest_first_perm _)).
  by apply Nat.nlt_ge, Nat.ltb_nlt in Hfew as ->.
Qed.

Lemma cleanupOldLogs_length baseName ext maxLogs d :
  log_readonly d = false → NoDup (log_names d) →
  length (archives baseName ext (cleanupOldLogs baseName ext maxLogs d))
  = (maxLogs `min` length (archives baseName ext d))%nat.
Proof.
  intros Hw Hnd.
  destruct (decide (maxLogs < length (archives baseName ext d))%nat) as [Hmany|Hfew].
  - assert (Hkept := cleanupOldLogs_kept baseName ext maxLogs d Hw Hnd Hmany).
    set (sorted := sort_newest_first (archives baseName ext d)) in *.
    assert (Hperm : sorted ≡ₚ archives baseName ext d) by apply sort_newest_first_perm.
    rewrite (Permutation_length (l' := take maxLogs sorted)).
    + rewrite length_take, (Permutation_length Hperm). done.
    + apply NoDup_Permutation; [| |exact Hkept].
      * apply NoDup_filter_bool. unfold cleanupOldLogs.
        destruct (_ <? _)%nat.
        -- apply unlinkEach_NoDup. by eapply NoDup_fmap_1.
        -- by eapply NoDup_fmap_1.
      * eapply sublist_NoDup; [|apply sublist_take].
        rewrite Hperm. apply NoDup_filter_bool. by eapply NoDup_fmap_1.
  - rewrite cleanupOldLogs_few by lia. lia.
Qed.

(** X24. [cleanupOldLogs] deletes nothing but archives: a file of the
    log directory that its filter does not take for an archive of the
    log, the log itself among them, is still there afterwards,
    whatever the directory allows; and it adds no file. *)
Theorem cleanupOldLogs_spares_other_files baseName ext maxLogs (d : LogDir) :
  (∀ g, g ∈ log_files d → is_archive baseName ext g = false →
        g ∈ log_files (cleanupOldLogs baseName ext maxLogs d)) ∧
  (∀ g, g ∈ log_files d → log_name g = baseName +:+ ext →
        g ∈ log_files (cleanupOldLogs baseName ext maxLogs d)) ∧
  (∀ g, g ∈ log_files (cleanupOldLogs baseName ext maxLogs d) → g ∈ log_files d).
Proof.
  split; [intros g; apply cleanupOldLogs_spares|]. split.
  - intros g Hg Hname. apply cleanupOldLogs_spares; [done|].
    unfold is_archive. rewrite Hname, String.eqb_refl. simpl.
    by rewrite andb_false_r.
  - intros g. apply cleanupOldLogs_within.
Qed.

Lemma cleanupOldLogs_spares_other_files_witness :
  {| log_name := "ERROR_LOG.md"; log_mtime := 3000; log_content := "# ERROR LOG" |}
  ∈ log_files (cleanupOldLogs "NINJA_CORE_LOG" ".md" 1 sampleLogDir).
Proof.
  destruct (cleanupOldLogs_spares_other_files "NINJA_CORE_LOG" ".md" 1 sampleLogDir)
    as [Hspares _].
  apply Hspares.
  - apply list_elem_of_In. simpl. right. right. left. reflexivity.
  - reflexivity.
Defined.

(** X25. On a log directory that can be written and lists no name
    twice, [cleanupOldLogs] keeps the [maxLogs] newest archives: as
    many archives are left as there were, or [maxLogs] if there were
    more, and no archive it deleted is newer than one it kept. *)
Theorem cleanupOldLogs_keeps_the_newest baseName ext maxLogs (d : LogDir) :
  log_readonly d = false → NoDup (log_names d) →
  length (archives baseName ext (cleanupOldLogs baseName ext maxLogs d))
  = (maxLogs `min` length (archives baseName ext d))%nat ∧
  ∀ kept gone,
    kept ∈ archives baseName ext (cleanupOldLogs baseName ext maxLogs d) →
    gone ∈ archives baseName ext d →
    gone ∉ log_files (cleanupOldLogs baseName ext maxLogs d) →
    (log_mtime gone <= log_mtime kept)%Z.
Proof.
  intros Hw Hnd. split; [by apply cleanupOldLogs_length|].
  destruct (decide (maxLogs < length (archives baseName ext d))%nat) as [Hmany|Hfew].
  - assert (Hkept := cleanupOldLogs_kept baseName ext maxLogs d Hw Hnd Hmany).
    set (sorted := sort_newest_first (archives baseName ext d)) in *.
    assert (Hperm : sorted ≡ₚ archives baseName ext d) by apply sort_newest_first_perm.
    intros kept gone Hk Hg Hgone. apply Hkept in Hk.
    assert (Hin : gone ∈ take maxLogs sorted ++ drop maxLogs sorted).
    { by rewrite take_drop, Hperm. }
    apply elem_of_app in Hin as [Htake|Hdrop].
    + exfalso. apply Hgone. apply Hkept in Htake.
      by apply elem_of_filter_bool in Htake as [? _].
    + eapply (StronglySorted_app_1_elem_of
                (λ a b, (log_mtime b <= log_mtime a)%Z)
                (take maxLogs sorted) (drop maxLogs sorted)); [|done|done].
      rewrite take_drop. apply sort_newest_first_sorted.
  - rewrite cleanupOldLogs_few by lia.
    intros kept gone _ Hg Hgone. exfalso. apply Hgone.
    by apply elem_of_filter_bool in Hg as [? _].
Qed.

Lemma cleanupOldLogs_keeps_the_newest_witness :
  length (archives "NINJA_CORE_LOG" ".md"
            (cleanupOldLogs "NINJA_CORE_LOG" ".md" 1 sampleLogDir)) = 1%nat.
Proof.
  apply (cleanupOldLogs_keeps_the_newest "NINJA_CORE_LOG" ".md" 1 sampleLogDir).
  - reflexivity.
  - apply (bool_decide_unpack _). vm_compute. exact I.
Defined.

Lemma append_nil_l s : EmptyString +:+ s = s.
Proof. reflexivity. Qed.

Lemma append_cons c a b : String c a +:+ b = String c (a +:+ b).
Proof. reflexivity. Qed.

Lemma string_length_append a b :
  String.length (a +:+ b) = (String.length a + String.length b)%nat.
Proof.
  induction a as [|c a IH]; rewrite ?append_nil_l, ?append_cons; simpl;
    [done | by rewrite IH].
Qed.

Lemma string_append_assoc a b c : (a +:+ b) +:+ c = a +:+ (b +:+ c).
Proof.
  induction a as [|x a IH]; rewrite ?append_nil_l, ?append_cons; [done | by f_equal].
Qed.

Lemma prefix_append b x : String.prefix b (b +:+ x) = true.
Proof.
  induction b as [|c b IH]; rewrite ?append_nil_l, ?append_cons; simpl;
    [by destruct x|].
  by destruct (ascii_dec c c).
Qed.

Lemma prefix_length s1 : ∀ s2,
  String.prefix s1 s2 = true → (String.length s1 ≤ String.length s2)%nat.
Proof.
  induction s1 as [|c s1 IH]; intros [|c2 s2]; simpl; try done; try lia.
  destruct (ascii_dec c c2); [|done]. intros H%IH. lia.
Qed.

Lemma substring_all s : String.substring 0 (String.length s) s = s.
Proof. induction s as [|c s IH]; simpl; [done | by rewrite IH]. Qed.

Lemma substring_append_r a b :
  String.substring (String.length a) (String.length b) (a +:+ b) = b.
Proof.
  induction a as [|c a IH]; rewrite ?append_nil_l, ?append_cons; simpl;
    [apply substring_all | done].
Qed.

Lemma endsWith_append x part : endsWith (x +:+ part) part = true.
Proof.
  unfold endsWith. rewrite string_length_append.
  replace (String.length x + String.length part - String.length part)%nat
    with (String.length x) by lia.
  rewrite substring_append_r, String.eqb_refl, andb_true_r.
  apply Nat.leb_le. lia.
Qed.

Lemma archiveName_not_log m baseName ext : archiveName m baseName ext ≠ baseName +:+ ext.
Proof.
  unfold archiveName. intros H%(f_equal String.length).
  rewrite !string_length_append in H. simpl in H. lia.
Qed.

(** The name [rotateLog] gives an archive is one that the filter of
    [cleanupOldLogs] takes for an archive. *)
Lemma is_archive_archiveName m baseName ext f :
  log_name f = archiveName m baseName ext → is_archive baseName ext f = true.
Proof.
  intros Hname. unfold is_archive, startsWith. rewrite Hname.
  apply andb_true_iff. split; [apply andb_true_iff; split|].
  - apply prefix_append.
  - apply negb_true_iff, String.eqb_neq, archiveName_not_log.
  - unfold archiveName.
    replace (baseName +:+ "_" +:+ at_stamp m +:+ ext)
      with ((baseName +:+ "_" +:+ at_stamp m) +:+ ext).
    + apply endsWith_append.
    + by rewrite !string_append_assoc.
Qed.

Lemma is_archive_log baseName ext f :
  log_name f = baseName +:+ ext → is_archive baseName ext f = false.
Proof.
  intros Hname. unfold is_archive. rewrite Hname, String.eqb_refl. simpl.
  by rewrite andb_false_r.
Qed.

Lemma rename_without from to files :
  from ∉ map log_name files →
  map (λ f, if named from f
            then {| log_name := to; log_mtime := log_mtime f;
                    log_content := log_content f |}
            else f)
    (List.filter (λ f, named from f || negb (named to f)) files)
  = List.filter (λ f, negb (named to f)) files.
Proof.
  induction files as [|g rest IH]; simpl; [done|].
  intros [Hg Hrest]%not_elem_of_cons.
  rewrite (named_false from g) by done. simpl.
  destruct (negb (named to g)); simpl; rewrite ?IH by done; [|done].
  by rewrite (named_false from g) by done.
Qed.

Lemma log_find_split name d old :
  log_find name d = Some old → NoDup (log_names d) →
  ∃ l1 l2, log_files d = l1 ++ old :: l2 ∧ log_name old = name ∧
           (name ∉ map log_name l1) ∧ (name ∉ map log_name l2).
Proof.
  unfold log_find, log_names. intros [Hin Hnamed]%find_some Hnd.
  apply String.eqb_eq in Hnamed.
  apply list_elem_of_In, list_elem_of_split in Hin as (l1 & l2 & Hsplit).
  exists l1, l2. rewrite Hsplit in *. split; [done|]. split; [done|].
  rewrite map_app in Hnd. simpl in Hnd.
  apply NoDup_app in Hnd as (_ & Hdisjoint & [Hold _]%NoDup_cons).
  rewrite Hnamed in *. split; [|done].
  intros Hin1. apply (Hdisjoint _ Hin1). by left.
Qed.

Lemma find_app_none {A} (p : A → bool) l k :
  (∀ x, x ∈ l → p x = false) → List.find p (l ++ k) = List.find p k.
Proof.
  induction l as [|x l IH]; simpl; [done|]. intros Hall.
  rewrite (Hall x) by (by left). apply IH. intros y Hy. apply Hall. by right.
Qed.

Lemma find_of_elem files : ∀ g,
  NoDup (map log_name files) → g ∈ files →
  List.find (named (log_name g)) files = Some g.
Proof.
  induction files as [|f rest IH]; intros g Hnd Hg; [by apply elem_of_nil in Hg|].
  simpl in *. apply NoDup_cons in Hnd as [Hf Hrest].
  apply elem_of_cons in Hg as [->|Hg].
  - unfold named. by rewrite String.eqb_refl.
  - rewrite named_false; [by apply IH|].
    intros Heq. apply Hf. rewrite Heq. by apply list_elem_of_fmap_2.
Qed.

Lemma unlinkEach_NoDup_names files : ∀ d,
  NoDup (log_names d) → NoDup (log_names (unlinkEach files d)).
Proof.
  induction files as [|f rest IH]; intros d Hd; simpl; [done|].
  unfold log_unlinkSync. destruct (log_readonly d); [done|].
  destruct (log_existsSync (log_name f) d); [|done].
  apply IH. unfold log_names. simpl. by apply NoDup_names_filter.
Qed.

Lemma cleanupOldLogs_NoDup_names baseName ext maxLogs d :
  NoDup (log_names d) → NoDup (log_names (cleanupOldLogs baseName ext maxLogs d)).
Proof.
  unfold cleanupOldLogs. destruct (_ <? _)%nat; [|done].
  apply unlinkEach_NoDup_names.
Qed.

Lemma filter_filter_length {A} (p q : A → bool) l :
  (length (List.filter p (List.filter q l)) ≤ length (List.filter p l))%nat.
Proof.
  induction l as [|x l IH]; simpl; [done|].
  destruct (q x); simpl; destruct (p x); simpl; lia.
Qed.

Lemma names_filter_within (q : LogFile → bool) files name :
  name ∈ map log_name (List.filter q files) → name ∈ map log_name files.
Proof.
  intros (g & -> & Hg)%list_elem_of_fmap.
  apply elem_of_filter_bool in Hg as [Hg _]. by apply list_elem_of_fmap_2.
Qed.

(** The directory [rotateLog] hands to [cleanupOldLogs]. *)
Lemma rotateLog_run m baseName ext d old l1 l2 :
  log_readonly d = false →
  log_files d = l1 ++ old :: l2 → log_name old = baseName +:+ ext →
  baseName +:+ ext ∉ map log_name l1 → baseName +:+ ext ∉ map log_name l2 →
  rotateLog m baseName ext d
  = cleanupOldLogs baseName ext 10
      (set_log_files
         ((List.filter (λ f, negb (named (archiveName m baseName ext) f)) l1
           ++ {| log_name := archiveName m baseName ext; log_mtime := log_mtime old;
                 log_content := log_content old |}
           :: List.filter (λ f, negb (named (archiveName m baseName ext) f)) l2)
          ++ [{| log_name := baseName +:+ ext; log_mtime := at_ms m;
                 log_content := rotationHeader m baseName |}]) d).
Proof.
  intros Hw Hfiles Hold Hl1 Hl2.
  assert (Hex : log_existsSync (baseName +:+ ext) d = true).
  { apply log_existsSync_names. unfold log_names. rewrite Hfiles, map_app.
    apply elem_of_app. right. simpl. rewrite Hold. by left. }
  unfold rotateLog. rewrite Hex. simpl.
  unfold log_renameSync. rewrite Hw, Hex.
  rewrite Hfiles, List.filter_app, map_app. simpl.
  assert (Hnamed : named (baseName +:+ ext) old = true) by by apply String.eqb_eq.
  rewrite Hnamed. simpl. rewrite Hnamed.
  rewrite !rename_without by done.
  unfold log_writeFileSync. simpl. rewrite Hw.
  set (kept := _ ++ _ :: _).
  destruct (log_existsSync (baseName +:+ ext) (set_log_files kept d)) eqn:Hex1; [|done].
  exfalso. apply log_existsSync_names in Hex1. unfold log_names in Hex1.
  simpl in Hex1. subst kept. rewrite map_app in Hex1. simpl in Hex1.
  apply elem_of_app in Hex1 as [Hin|Hin].
  - by apply names_filter_within in Hin.
  - apply elem_of_cons in Hin as [Heq|Hin].
    + by apply (archiveName_not_log m baseName ext).
    + by apply names_filter_within in Hin.
Qed.

(** X26. [rotateLog] on a log directory that can be written and lists
    no name twice: the log starts again with the rotation header; at
    most ten files that pass for its archives are left; the text of the
    old log is kept under the archive name when there were fewer than
    ten archives before; and every file that is neither the log nor an
    archive of it is left alone. *)
Theorem rotateLog_archives_and_restarts (m : Moment) baseName ext (d : LogDir) old :
  log_readonly d = false → NoDup (log_names d) →
  log_find (baseName +:+ ext) d = Some old →
  log_find (baseName +:+ ext) (rotateLog m baseName ext d)
  = Some {| log_name := baseName +:+ ext; log_mtime := at_ms m;
            log_content := rotationHeader m baseName |} ∧
  (length (archives baseName ext (rotateLog m baseName ext d)) ≤ 10)%nat ∧
  ((length (archives baseName ext d) < 10)%nat →
   {| log_name := archiveName m baseName ext; log_mtime := log_mtime old;
      log_content := log_content old |}
   ∈ log_files (rotateLog m baseName ext d)) ∧
  (∀ g, g ∈ log_files d → is_archive baseName ext g = false →
        log_name g ≠ baseName +:+ ext →
        g ∈ log_files (rotateLog m baseName ext d)).
Proof.
  intros Hw Hnd Hfind.
  destruct (log_find_split _ _ _ Hfind Hnd) as (l1 & l2 & Hfiles & Hold & Hl1 & Hl2).
  rewrite (rotateLog_run m baseName ext d old l1 l2) by done.
  set (to := archiveName m baseName ext).
  set (archived := {| log_name := to; log_mtime := log_mtime old;
                      log_content := log_content old |}).
  set (fresh := {| log_name := baseName +:+ ext; log_mtime := at_ms m;
                   log_content := rotationHeader m baseName |}).
  set (F1 := List.filter (λ f, negb (named to f)) l1).
  set (F2 := List.filter (λ f, negb (named to f)) l2).
  set (d2 := set_log_files ((F1 ++ archived :: F2) ++ [fresh]) d).
  assert (Hnames12 : NoDup (map log_name (l1 ++ l2))).
  { unfold log_names in Hnd. rewrite Hfiles in Hnd.
    rewrite map_app in *. simpl in Hnd.
    rewrite <- Permutation_middle in Hnd. by apply NoDup_cons in Hnd as [_ ?]. }
  assert (Hnd2 : NoDup (log_names d2)).
  { unfold log_names, d2. simpl. rewrite !map_app. simpl.
    rewrite <- Permutation_cons_append, <- Permutation_middle, <- map_app.
    unfold F1, F2. rewrite <- List.filter_app.
    apply NoDup_cons. split; [|apply NoDup_cons; split].
    - intros [Heq|Hin]%elem_of_cons.
      + by apply (archiveName_not_log m baseName ext).
      + apply names_filter_within in Hin. rewrite map_app in Hin.
        apply elem_of_app in Hin as [?|?]; done.
    - intros (g & Hname & Hg)%list_elem_of_fmap.
      apply elem_of_filter_bool in Hg as [_ Hg].
      apply negb_true_iff, String.eqb_neq in Hg. done.
    - by apply NoDup_names_filter. }
  assert (Hw2 : log_readonly d2 = false) by done.
  assert (Hfresh : is_archive baseName ext fresh = false) by by apply is_archive_log.
  assert (Harchived : is_archive baseName ext archived = true)
    by by apply (is_archive_archiveName m).
  split; [|split; [|split]].
  - unfold log_find.
    apply (find_of_elem _ fresh).
    + by apply cleanupOldLogs_NoDup_names.
    + apply cleanupOldLogs_spares; [|done].
      unfold d2. simpl. apply elem_of_app. right. by left.
  - rewrite cleanupOldLogs_length by done. lia.
  - intros Hfew. rewrite cleanupOldLogs_few.
    + unfold d2. simpl. apply elem_of_app. left. apply elem_of_app. right. by left.
    + unfold archives, d2. simpl.
      rewrite !List.filter_app. simpl. rewrite Hfresh, Harchived.
      rewrite !length_app. simpl.
      assert (H1 := filter_filter_length (is_archive baseName ext)
                      (λ f, negb (named to f)) l1).
      assert (H2 := filter_filter_length (is_archive baseName ext)
                      (λ f, negb (named to f)) l2).
      unfold archives in Hfew. rewrite Hfiles, List.filter_app in Hfew. simpl in Hfew.
      rewrite (is_archive_log baseName ext old) in Hfew by done.
      rewrite length_app in Hfew. fold F1 F2 in H1, H2. lia.
  - intros g Hg Hother Hname. apply cleanupOldLogs_spares; [|done].
    assert (Hkeep : negb (named to g) = true).
    { apply negb_true_iff, String.eqb_neq. intros Heq.
      rewrite (is_archive_archiveName m baseName ext g) in Hother by done. done. }
    unfold d2. simpl. rewrite Hfiles in Hg.
    apply elem_of_app in Hg as [Hg|Hg].
    + apply elem_of_app. left. apply elem_of_app. left.
      by apply elem_of_filter_bool.
    + apply elem_of_cons in Hg as [->|Hg]; [done|].
      apply elem_of_app. left. apply elem_of_app. right. right.
      by apply elem_of_filter_bool.
Qed.

Lemma rotateLog_archives_and_restarts_witness :
  {| log_name := "NINJA_CORE_LOG_2024-03-01T06-00-00.md"; log_mtime := 4000;
     log_content := "# NINJA CORE LOG" |}
  ∈ log_files (rotateLog sampleMoment "NINJA_CORE_LOG" ".md" sampleLogDir).
Proof.
  destruct (rotateLog_archives_and_restarts sampleMoment "NINJA_CORE_LOG" ".md"
              sampleLogDir
              {| log_name := "NINJA_CORE_LOG.md"; log_mtime := 4000;
                 log_content := "# NINJA CORE LOG" |})
    as (_ & _ & Hkept & _).
  - reflexivity.
  - apply (bool_decide_unpack _). vm_compute. exact I.
  - reflexivity.
  - apply Hkept. simpl. lia.
Defined.

Lemma find_map_named name (upd : LogFile → LogFile) files :
  (∀ f, log_name (upd f) = name) →
  List.find (named name) (map (λ f, if named name f then upd f else f) files)
  = upd <$> List.find (named name) files.
Proof.
  intros Hupd. induction files as [|g rest IH]; simpl; [done|].
  destruct (named name g) eqn:Hg.
  - unfold named at 1. by rewrite Hupd, String.eqb_refl.
  - by rewrite Hg.
Qed.

Lemma find_map_other name other (upd : LogFile → LogFile) files :
  (∀ f, log_name (upd f) = name) → other ≠ name →
  List.find (named other) (map (λ f, if named name f then upd f else f) files)
  = List.find (named other) files.
Proof.
  intros Hupd Hne. induction files as [|g rest IH]; simpl; [done|].
  destruct (named name g) eqn:Hg.
  - apply String.eqb_eq in Hg.
    rewrite !named_false by (rewrite ?Hupd; congruence). done.
  - destruct (named other g); [done | exact IH].
Qed.

Lemma log_find_exists name d f :
  log_find name d = Some f → log_existsSync name d = true.
Proof.
  unfold log_find, log_existsSync. intros [Hin Hnamed]%find_some.
  apply existsb_exists. eauto.
Qed.

(** Appending to a log that is there and not over the size limit. *)
Lemma writeToFile_appends m level message isError d f :
  log_readonly d = false →
  log_find (logPathOf isError) d = Some f →
  (logSizeOf f <= MAX_LOG_SIZE)%Z →
  log_readonly (writeToFile m level message isError d) = false ∧
  log_unreadable (writeToFile m level message isError d) = log_unreadable d ∧
  log_find (logPathOf isError) (writeToFile m level message isError d)
  = Some {| log_name := logPathOf isError; log_mtime := at_ms m;
            log_content := log_content f +:+ formatMarkdownLog m level message |} ∧
  ∀ other, other ≠ logPathOf isError →
           log_find other (writeToFile m level message isError d) = log_find other d.
Proof.
  intros Hw Hfind Hsize. unfold writeToFile. fold (logPathOf isError).
  unfold logSize. rewrite Hfind. fold (logSizeOf f).
  apply Z.ltb_ge in Hsize as ->. rewrite andb_false_r.
  unfold log_appendFileSync. rewrite Hw, (log_find_exists _ _ _ Hfind).
  split; [done|]. split; [done|]. unfold log_find in *. simpl. split.
  - rewrite (find_map_named _
               (λ f, {| log_name := logPathOf isError; log_mtime := at_ms m;
                        log_content := log_content f
                                       +:+ formatMarkdownLog m level message |}))
      by done.
    by rewrite Hfind.
  - intros other Hother.
    by rewrite (find_map_other _ _
                  (λ f, {| log_name := logPathOf isError; log_mtime := at_ms m;
                           log_content := log_content f
                                          +:+ formatMarkdownLog m level message |})).
Qed.

(** X27. [error] writes to both logs: when the error log and the core
    log are there, neither over the size limit, and the directory can
    be written, each of them ends with the new entry afterwards and has
    kept all it held. *)
Theorem error_reaches_both_logs (m : Moment) (message : string) (d : LogDir)
    errors core :
  log_readonly d = false →
  log_find "ERROR_LOG.md" d = Some errors →
  log_find "NINJA_CORE_LOG.md" d = Some core →
  (logSizeOf errors <= MAX_LOG_SIZE)%Z → (logSizeOf core <= MAX_LOG_SIZE)%Z →
  log_find "ERROR_LOG.md" (error m message d)
  = Some {| log_name := "ERROR_LOG.md"; log_mtime := at_ms m;
            log_content := log_content errors +:+ formatMarkdownLog m ERROR message |} ∧
  log_find "NINJA_CORE_LOG.md" (error m message d)
  = Some {| log_name := "NINJA_CORE_LOG.md"; log_mtime := at_ms m;
            log_content := log_content core +:+ formatMarkdownLog m ERROR message |}.
Proof.
  intros Hw Herrors Hcore Hsize1 Hsize2. unfold error.
  destruct (writeToFile_appends m ERROR message true d errors Hw Herrors Hsize1)
    as (Hw1 & _ & Hfind1 & Hother1).
  assert (Hcore1 : log_find (logPathOf false) (writeToFile m ERROR message true d)
                   = Some core).
  { rewrite Hother1; [exact Hcore | done]. }
  destruct (writeToFile_appends m ERROR message false _ core Hw1 Hcore1 Hsize2)
    as (_ & _ & Hfind2 & Hother2).
  split; [|exact Hfind2].
  change "ERROR_LOG.md" with (logPathOf true). rewrite Hother2; [exact Hfind1 | done].
Qed.

Lemma error_reaches_both_logs_witness :
  log_find "ERROR_LOG.md" (error sampleMoment "disk full" sampleLogDir)
  = Some {| log_name := "ERROR_LOG.md"; log_mtime := 5000;
            log_content := "# ERROR LOG"
                           +:+ formatMarkdownLog sampleMoment ERROR "disk full" |}.
Proof.
  apply (error_reaches_both_logs sampleMoment "disk full" sampleLogDir
           {| log_name := "ERROR_LOG.md"; log_mtime := 3000;
              log_content := "# ERROR LOG" |}
           {| log_name := "NINJA_CORE_LOG.md"; log_mtime := 4000;
              log_content := "# NINJA CORE LOG" |}).
  - reflexivity.
  - reflexivity.
  - reflexivity.
  - vm_compute. discriminate.
  - vm_compute. discriminate.
Defined.

(** The journal of a pass that fails for want of credentials, written
    out: the core log gets the line of the start and the error twice,
    once with its message and once with its stack, the error log the
    latter two. *)
Lemma failed_pass_reaches_the_logs :
  let stackOf e := "TypeError: " +:+ e in
  let e := "Cannot read properties of null (reading 'apiKey')" in
  let after := (mirrorFilesToClickUp [docA] (sampleWorld None emptyDisk [])).1 in
  let d := journalWrites stackOf (λ _, sampleMoment) 0 (journal after) sampleLogDir in
  log_content <$> log_find "NINJA_CORE_LOG.md" d
  = Some ("# NINJA CORE LOG"
          +:+ formatMarkdownLog sampleMoment INFO "Starting ClickUp mirroring operation..."
          +:+ formatMarkdownLog sampleMoment ERROR ("ClickUp mirroring failed: " +:+ e)
          +:+ formatMarkdownLog sampleMoment ERROR (stackOf e)) ∧
  log_content <$> log_find "ERROR_LOG.md" d
  = Some ("# ERROR LOG"
          +:+ formatMarkdownLog sampleMoment ERROR ("ClickUp mirroring failed: " +:+ e)
          +:+ formatMarkdownLog sampleMoment ERROR (stackOf e)).
Proof. vm_compute. split; reflexivity. Qed.

Lemma unlinkEach_readonly files d : log_readonly d = true → unlinkEach files d = d.
Proof.
  intros Hr. destruct files as [|f rest]; simpl; [done|].
  unfold log_unlinkSync. by rewrite Hr.
Qed.

Lemma rotateLog_readonly m baseName ext d :
  log_readonly d = true → rotateLog m baseName ext d = d.
Proof.
  intros Hr. unfold rotateLog, log_renameSync. rewrite Hr.
  by destruct (negb _).
Qed.

(** X28. A log directory that cannot be written is left as it is:
    [writeToFile], [rotateLog] and [cleanupOldLogs] return, each with
    the directory unchanged, and the entry is lost without a trace in
    the files. *)
Theorem readonly_directory_is_left_alone (m : Moment) level message isError
    baseName ext maxLogs (d : LogDir) :
  log_readonly d = true →
  writeToFile m level message isError d = d ∧
  rotateLog m baseName ext d = d ∧
  cleanupOldLogs baseName ext maxLogs d = d.
Proof.
  intros Hr. split; [|split].
  - unfold writeToFile. rewrite rotateLog_readonly by done.
    unfold log_appendFileSync.
    destruct (_ && _); by rewrite Hr.
  - by apply rotateLog_readonly.
  - unfold cleanupOldLogs. destruct (_ <? _)%nat; [|done].
    by apply unlinkEach_readonly.
Qed.

Lemma readonly_directory_is_left_alone_witness :
  writeToFile sampleMoment INFO "started" false
    {| log_files := log_files sampleLogDir; log_readonly := true;
       log_unreadable := false |}
  = {| log_files := log_files sampleLogDir; log_readonly := true;
       log_unreadable := false |}.
Proof.
  apply (readonly_directory_is_left_alone sampleMoment INFO "started" false
           "NINJA_CORE_LOG" ".md" 10
           {| log_files := log_files sampleLogDir; log_readonly := true;
              log_unreadable := false |}).
  reflexivity.
Defined.

Lemma split_entries_cons skip piece c rest :
  split_entries skip piece (String c rest)
  = match skip with
    | S skip' => split_entries skip' piece rest
    | O =>
        if String.prefix (newline +:+ "## ") (String c rest)
        then piece :: split_entries 3 EmptyString rest
        else split_entries 0 (piece +:+ String c EmptyString) rest
    end.
Proof. reflexivity. Qed.

Lemma prefix_nil s : String.prefix EmptyString s = true.
Proof. by destruct s. Qed.

Lemma prefix_cons a s1 b s2 :
  String.prefix (String a s1) (String b s2)
  = if ascii_dec a b then String.prefix s1 s2 else false.
Proof. reflexivity. Qed.

Lemma prefix_cons_nil a s1 : String.prefix (String a s1) EmptyString = false.
Proof. reflexivity. Qed.

(** The separator starts with the only line break it holds, so no
    match runs from the end of a text into a separator behind it. *)
Lemma separator_prefix_append c rest tail :
  String.prefix (newline +:+ "## ") (String c (rest +:+ newline +:+ tail))
  = String.prefix (newline +:+ "## ") (String c rest).
Proof.
  unfold newline.
  destruct rest as [|c1 [|c2 [|c3 rest]]];
    repeat (rewrite append_cons || rewrite append_nil_l);
    rewrite ?prefix_cons, ?prefix_cons_nil, ?prefix_nil;
    repeat (match goal with
            | |- context [ascii_dec ?a ?b] => destruct (ascii_dec a b)
            end; try done; try congruence).
Qed.

(** Splitting a text that ends with one more entry. *)
Lemma split_entries_append body : ∀ content skip piece,
  (skip ≤ String.length content)%nat →
  split_entries skip piece (content +:+ newline +:+ "## " +:+ body)
  = split_entries skip piece content ++ split_entries 0 EmptyString body.
Proof.
  induction content as [|c rest IH]; intros skip piece Hskip.
  - simpl in Hskip. assert (skip = 0%nat) as -> by lia.
    rewrite append_nil_l. unfold newline at 1. rewrite append_cons, append_nil_l.
    rewrite split_entries_cons.
    assert (Hp : String.prefix (newline +:+ "## ")
                   (String (ascii_of_nat 10) ("## " +:+ body)) = true)
      by apply (prefix_append (newline +:+ "## ") body).
    rewrite Hp. reflexivity.
  - rewrite append_cons, !split_entries_cons. destruct skip as [|skip].
    + rewrite separator_prefix_append.
      destruct (String.prefix (newline +:+ "## ") (String c rest)) eqn:Hp.
      * apply prefix_length in Hp. simpl in Hp.
        rewrite IH by lia. done.
      * by rewrite IH by lia.
    + simpl in Hskip. by rewrite IH by lia.
Qed.

Lemma split_entries_nonempty content : ∀ skip piece,
  ∃ first others, split_entries skip piece content = first :: others.
Proof.
  induction content as [|c rest IH]; intros skip piece; [by eexists _, _|].
  rewrite split_entries_cons. destruct skip as [|skip]; [|apply IH].
  destruct (String.prefix _ _); [by eexists _, _ | apply IH].
Qed.

Lemma slice_from_last {A} (l : list A) x : slice_from (-1) (l ++ [x]) = [x].
Proof.
  unfold slice_from. simpl. rewrite length_app. simpl.
  replace (Z.to_nat (Z.max (Z.of_nat (length l + 1) + -1) 0)) with (length l) by lia.
  by rewrite drop_app_length.
Qed.

(** X29. The entry just written is the most recent one: after
    [writeToFile] has appended to a core log that can be read and
    written and is not over the size limit, [getRecentLogs(1)] returns
    that entry, trimmed, behind "## ", provided the entry holds no
    further line that starts with "## ". *)
Theorem latest_entry_is_the_one_written (trim : string → string) (m : Moment)
    level message (d : LogDir) core :
  log_readonly d = false → log_unreadable d = false →
  log_find "NINJA_CORE_LOG.md" d = Some core →
  (logSizeOf core <= MAX_LOG_SIZE)%Z →
  split_entries 0 EmptyString (entryBody m level message)
  = [entryBody m level message] →
  getRecentLogs trim 1 (writeToFile m level message false d)
  = "## " +:+ trim (entryBody m level message).
Proof.
  intros Hw Hread Hcore Hsize Hbody.
  destruct (writeToFile_appends m level message false d core Hw Hcore Hsize)
    as (_ & Hread1 & Hfind & _).
  unfold getRecentLogs. change "NINJA_CORE_LOG.md" with (logPathOf false).
  rewrite Hfind, Hread1, Hread. simpl log_content.
  unfold recentLogs.
  change (formatMarkdownLog m level message)
    with (newline +:+ "## " +:+ entryBody m level message).
  rewrite split_entries_append by lia. rewrite Hbody.
  destruct (split_entries_nonempty (log_content core) 0 EmptyString)
    as (first & others & ->).
  change (slice_from 1 ((first :: others) ++ [entryBody m level message]))
    with (others ++ [entryBody m level message]).
  rewrite map_app. simpl map at 2. rewrite slice_from_last. reflexivity.
Qed.

Lemma latest_entry_is_the_one_written_witness :
  getRecentLogs (λ s, s) 1 (writeToFile sampleMoment INFO "started" false sampleLogDir)
  = "## " +:+ entryBody sampleMoment INFO "started".
Proof.
  apply (latest_entry_is_the_one_written (λ s, s) sampleMoment INFO "started"
           sampleLogDir
           {| log_name := "NINJA_CORE_LOG.md"; log_mtime := 4000;
              log_content := "# NINJA CORE LOG" |}).
  - reflexivity.
  - reflexivity.
  - reflexivity.
  - vm_compute. discriminate.
  - vm_compute. reflexivity.
Defined.

(** X30. [getRecentLogs] counts from the end, except for zero: a count
    of zero selects every entry of the log, a positive count the last
    [count] entries or all there are, and the entries come newest
    first. *)
Theorem recentLogs_counts_from_the_end (trim : string → string) (count : Z)
    (content : string) :
  (0 <= count)%Z →
  recentLogs trim count content
  = rev (let logs := map (λ entry, "## " +:+ trim entry)
                         (drop 1 (split_entries 0 EmptyString content)) in
         if (count =? 0)%Z then logs
         else drop (length logs - Z.to_nat count) logs).
Proof.
  intros Hcount. unfold recentLogs. f_equal.
  change (slice_from 1 (split_entries 0 EmptyString content))
    with (drop 1 (split_entries 0 EmptyString content)).
  set (logs := map _ _). simpl. unfold slice_from.
  destruct (Z.eqb_spec count 0) as [->|Hne]; [done|].
  assert (Hneg : (- count <? 0)%Z = true) by (apply Z.ltb_lt; lia).
  rewrite Hneg. f_equal. lia.
Qed.

Lemma recentLogs_counts_from_the_end_witness :
  recentLogs (λ s, s) 0
    ("# NINJA CORE LOG" +:+ formatMarkdownLog sampleMoment INFO "one"
     +:+ formatMarkdownLog sampleMoment WARN "two")
  = [ "## " +:+ entryBody sampleMoment WARN "two";
      "## " +:+ entryBody sampleMoment INFO "one" ].
Proof.
  rewrite (recentLogs_counts_from_the_end (λ s, s) 0) by lia.
  vm_compute. reflexivity.
Defined.
